(** * LinguaVoice AI: the audio container encoder, the timeline aligner,
      the generation orchestrator and the player handlers.

    A shallow embedding of [services/geminiService.ts] (alignSegments,
    base64ToWavBlob, translateAndSegment, generateSpeech, processContent),
    of [App.tsx] (handleGenerate, handleSeek, skip, togglePlay, the effects
    and the listeners of the audio element), of [components/SeekBar.tsx]
    and of the active index of [components/SubtitleDisplay.tsx].

    Conventions of the embedding.
    - A JavaScript exception is a value of [exn]; code that may throw
      returns an [Outcome].
    - An [ArrayBuffer] is a [list Z] of bytes, each in [0, 256); a store
      through a [DataView] or a [Uint8Array] reduces the stored number
      modulo the width of the cell, as the host does.
    - A binary string (what [window.atob] returns) is a [string]: every
      character of it is one code unit in [0, 256).
    - Integer-valued JavaScript numbers (lengths, the sample rate) are [Z];
      times in seconds are IEEE-754 doubles, [float].
    - The audio element is the host's: [App.Audio] holds the attributes
      the handlers touch, with the load algorithm that an assignment to
      [src] runs and the seek that an assignment to [currentTime] runs. *)

From Stdlib Require Import ZArith List String Ascii Lia Bool Floats QArith Qpower Lqa.
From stdpp Require Import base option list.
Import ListNotations.

Local Open Scope string_scope.
Local Open Scope list_scope.
Local Open Scope Z_scope.

(** ** Exceptions and outcomes *)

Inductive exn : Type :=
| Error (message : string)    (* [new Error(message)] thrown by the repository's code *)
| InvalidCharacterError       (* [atob] on a string that is not base64 *)
| RangeError                  (* a [DataView] access outside the buffer *)
| SyntaxError                 (* [JSON.parse] on malformed text *)
| Rejected (reason : string)  (* a remote call whose promise rejects *)
| TypeError.                  (* a number that is not finite, given to the audio element *)

Inductive Outcome (A : Type) : Type :=
| Return (a : A)
| Throw (e : exn).
Arguments Return {A} a.
Arguments Throw {A} e.

Definition Outcome_bind {A B} (f : A -> Outcome B) (m : Outcome A) : Outcome B :=
  match m with
  | Return a => f a
  | Throw e => Throw e
  end.

#[export] Instance Outcome_mbind : MBind Outcome := @Outcome_bind.
#[export] Instance Outcome_mret : MRet Outcome := @Return.

(** ** The PCM container encoder *)

Module Wav.

(** An [ArrayBuffer]: a fixed-length sequence of bytes. *)
Abbreviation ArrayBuffer := (list Z).

(** [new ArrayBuffer(n)]: [n] zero bytes. *)
Definition newArrayBuffer (n : nat) : ArrayBuffer := replicate n 0.

(** [s.charCodeAt(i)]; outside the string the host answers NaN, which every
    integer store below turns into [0]. *)
Definition charCodeAt (s : string) (i : nat) : Z :=
  match String.get i s with
  | Some c => Z.of_N (N_of_ascii c)
  | None => 0
  end.

(** [for (let i = 0; i < n; i++) body(i)] over a state that may throw. *)
Definition forUpTo {S : Type} (n : nat) (body : nat -> S -> Outcome S) (s : S) : Outcome S :=
  foldl (fun acc i => acc ≫= body i) (Return s) (seq 0 n).

(** [view.setUint8(byteOffset, value)]. *)
Definition setUint8 (view : ArrayBuffer) (byteOffset : nat) (value : Z) : Outcome ArrayBuffer :=
  if (byteOffset + 1 <=? length view)%nat
  then Return (<[byteOffset := value mod 256]> view)
  else Throw RangeError.

(** [view.setUint16(byteOffset, value, littleEndian)]. *)
Definition setUint16 (view : ArrayBuffer) (byteOffset : nat) (value : Z) (littleEndian : bool)
  : Outcome ArrayBuffer :=
  let v := value mod 65536 in
  let lo := v mod 256 in
  let hi := v / 256 in
  if (byteOffset + 2 <=? length view)%nat
  then Return (if littleEndian
               then <[S byteOffset := hi]> (<[byteOffset := lo]> view)
               else <[S byteOffset := lo]> (<[byteOffset := hi]> view))
  else Throw RangeError.

(** [view.setUint32(byteOffset, value, littleEndian)]. *)
Definition setUint32 (view : ArrayBuffer) (byteOffset : nat) (value : Z) (littleEndian : bool)
  : Outcome ArrayBuffer :=
  let v := value mod 4294967296 in
  let b0 := v mod 256 in
  let b1 := (v / 256) mod 256 in
  let b2 := (v / 65536) mod 256 in
  let b3 := v / 16777216 in
  if (byteOffset + 4 <=? length view)%nat
  then Return (if littleEndian
               then <[S (S (S byteOffset)) := b3]> (<[S (S byteOffset) := b2]>
                      (<[S byteOffset := b1]> (<[byteOffset := b0]> view)))
               else <[S (S (S byteOffset)) := b0]> (<[S (S byteOffset) := b1]>
                      (<[S byteOffset := b2]> (<[byteOffset := b3]> view))))
  else Throw RangeError.

(** The local helper of [base64ToWavBlob]. *)
Definition writeString (view : ArrayBuffer) (offset : nat) (string : string) : Outcome ArrayBuffer :=
  forUpTo (String.length string)
          (fun i view => setUint8 view (offset + i) (charCodeAt string i)) view.

(** [pcmData[i] = v] on [pcmData = new Uint8Array(buffer, byteOffset)]: a
    store outside the typed array is ignored, one inside keeps the low byte. *)
Definition Uint8Array_set (buffer : ArrayBuffer) (byteOffset i : nat) (v : Z) : ArrayBuffer :=
  <[(byteOffset + i)%nat := v mod 256]> buffer.

Record Blob : Type := mkBlob { blobBytes : list Z; blobType : string }.

Section Encoder.

(** [window.atob], provided by the host. *)
Variable atob : string -> Outcome string.

(** [base64ToWavBlob(base64, sampleRate = 24000)]. *)
Definition base64ToWavBlob (base64 : string) (sampleRate : option Z) : Outcome Blob :=
  let sampleRate := default 24000 sampleRate in
  binaryString ← atob base64;
  let len := String.length binaryString in
  let view := newArrayBuffer (44 + len) in
  view ← writeString view 0 "RIFF";
  view ← setUint32 view 4 (36 + Z.of_nat len) true;
  view ← writeString view 8 "WAVE";
  view ← writeString view 12 "fmt ";
  view ← setUint32 view 16 16 true;
  view ← setUint16 view 20 1 true;
  view ← setUint16 view 22 1 true;
  view ← setUint32 view 24 sampleRate true;
  view ← setUint32 view 28 (sampleRate * 2) true;
  view ← setUint16 view 32 2 true;
  view ← setUint16 view 34 16 true;
  view ← writeString view 36 "data";
  view ← setUint32 view 40 (Z.of_nat len) true;
  let buffer := foldl (fun buffer i => Uint8Array_set buffer 44 i (charCodeAt binaryString i))
                      view (seq 0 len) in
  Return (mkBlob buffer "audio/wav").

End Encoder.

(** *** The host's [atob]

    The forgiving base64 decoding of the HTML standard, which [window.atob]
    implements: ASCII whitespace is dropped, up to two padding characters
    are removed from a text whose length is a multiple of four, a remaining
    length of one modulo four or a character outside the alphabet is an
    [InvalidCharacterError], and the remaining sextets are packed into
    bytes, the bits left over being discarded. *)

Definition isAsciiWhitespace (c : ascii) : bool :=
  let n := Z.of_N (N_of_ascii c) in
  (n =? 9) || (n =? 10) || (n =? 12) || (n =? 13) || (n =? 32).

Definition sextet (c : ascii) : option Z :=
  let n := Z.of_N (N_of_ascii c) in
  if (65 <=? n) && (n <=? 90) then Some (n - 65)
  else if (97 <=? n) && (n <=? 122) then Some (n - 71)
  else if (48 <=? n) && (n <=? 57) then Some (n + 4)
  else if n =? 43 then Some 62
  else if n =? 47 then Some 63
  else None.

Definition isPadding (c : ascii) : bool := Z.of_N (N_of_ascii c) =? 61.

(** Removes one or two trailing padding characters when the length is a
    multiple of four. *)
Definition stripPadding (cs : list ascii) : list ascii :=
  if (length cs mod 4 =? 0)%nat then
    match rev cs with
    | p :: q :: r => if isPadding p then (if isPadding q then rev r else rev (q :: r)) else cs
    | _ => cs
    end
  else cs.

Fixpoint packSextets (l : list Z) : list Z :=
  match l with
  | a :: b :: c :: d :: rest =>
      (a * 4 + b / 16) :: ((b mod 16) * 16 + c / 4) :: ((c mod 4) * 64 + d) :: packSextets rest
  | [a; b; c] => [a * 4 + b / 16; (b mod 16) * 16 + c / 4]
  | [a; b] => [a * 4 + b / 16]
  | _ => []
  end.

Definition window_atob (base64 : string) : Outcome string :=
  let cs := stripPadding (filter (fun c => negb (isAsciiWhitespace c)) (list_ascii_of_string base64)) in
  if (length cs mod 4 =? 1)%nat then Throw InvalidCharacterError
  else match mapM sextet cs with
       | Some sextets =>
           Return (string_of_list_ascii (map (fun b => ascii_of_N (Z.to_N b)) (packSextets sextets)))
       | None => Throw InvalidCharacterError
       end.

(** *** Reading a container back *)

(** The bytes a binary string stands for. *)
Definition bytesOf (s : string) : list Z :=
  map (fun c => Z.of_N (N_of_ascii c)) (list_ascii_of_string s).

(** [view.getUint16(byteOffset, littleEndian)], [None] outside the buffer. *)
Definition getUint16 (bytes : list Z) (byteOffset : nat) (littleEndian : bool) : option Z :=
  b0 ← bytes !! byteOffset;
  b1 ← bytes !! S byteOffset;
  Some (if littleEndian then b0 + 256 * b1 else b1 + 256 * b0).

(** [view.getUint32(byteOffset, littleEndian)], [None] outside the buffer. *)
Definition getUint32 (bytes : list Z) (byteOffset : nat) (littleEndian : bool) : option Z :=
  b0 ← bytes !! byteOffset;
  b1 ← bytes !! S byteOffset;
  b2 ← bytes !! S (S byteOffset);
  b3 ← bytes !! S (S (S byteOffset));
  Some (if littleEndian
        then b0 + 256 * b1 + 65536 * b2 + 16777216 * b3
        else b3 + 256 * b2 + 65536 * b1 + 16777216 * b0).

(** The four-character tag stored at [byteOffset]. *)
Definition getTag (bytes : list Z) (byteOffset : nat) : option (list Z) :=
  let tag := take 4 (drop byteOffset bytes) in
  if (length tag =? 4)%nat then Some tag else None.

(** The fields of the canonical 44-byte header, in file order. *)
Record WavHeader : Type := mkWavHeader {
  chunkId : list Z;        (* offset 0 *)
  chunkSize : Z;           (* offset 4 *)
  format : list Z;         (* offset 8 *)
  subchunk1Id : list Z;    (* offset 12 *)
  subchunk1Size : Z;       (* offset 16 *)
  audioFormat : Z;         (* offset 20 *)
  numChannels : Z;         (* offset 22 *)
  sampleRate : Z;          (* offset 24 *)
  byteRate : Z;            (* offset 28 *)
  blockAlign : Z;          (* offset 32 *)
  bitsPerSample : Z;       (* offset 34 *)
  subchunk2Id : list Z;    (* offset 36 *)
  subchunk2Size : Z        (* offset 40 *)
}.

(** Reads the header fields, all little-endian, at their offsets. *)
Definition readHeader (bytes : list Z) : option WavHeader :=
  f0 ← getTag bytes 0;
  f4 ← getUint32 bytes 4 true;
  f8 ← getTag bytes 8;
  f12 ← getTag bytes 12;
  f16 ← getUint32 bytes 16 true;
  f20 ← getUint16 bytes 20 true;
  f22 ← getUint16 bytes 22 true;
  f24 ← getUint32 bytes 24 true;
  f28 ← getUint32 bytes 28 true;
  f32 ← getUint16 bytes 32 true;
  f34 ← getUint16 bytes 34 true;
  f36 ← getTag bytes 36;
  f40 ← getUint32 bytes 40 true;
  Some (mkWavHeader f0 f4 f8 f12 f16 f20 f22 f24 f28 f32 f34 f36 f40).

(** The result of decoding a container. *)
Record Decoded : Type := mkDecoded { samples : list Z; decodedSampleRate : Z }.

(** The [decode] of the round-trip property: a reader of the canonical
    container. The repository has no decoder of its own (the host's audio
    element plays the file); this one accepts a mono 16-bit linear PCM
    file with the canonical header and returns the declared number of data
    bytes that follow it. *)
Definition decode (bytes : list Z) : option Decoded :=
  h ← readHeader bytes;
  let payload := drop 44 bytes in
  if decide (chunkId h = bytesOf "RIFF" /\ format h = bytesOf "WAVE"
             /\ subchunk1Id h = bytesOf "fmt " /\ subchunk2Id h = bytesOf "data"
             /\ subchunk1Size h = 16 /\ audioFormat h = 1 /\ numChannels h = 1
             /\ bitsPerSample h = 16
             /\ subchunk2Size h <= Z.of_nat (length payload))
  then Some (mkDecoded (take (Z.to_nat (subchunk2Size h)) payload) (sampleRate h))
  else None.

(** The 44 header bytes [base64ToWavBlob] writes for a payload of [len]
    bytes at sample rate [rate]. *)
Definition headerBytes (len rate : Z) : list Z :=
  let size := (36 + len) mod 4294967296 in
  let rate4 := rate mod 4294967296 in
  let rate2 := (rate * 2) mod 4294967296 in
  let len4 := len mod 4294967296 in
  [82; 73; 70; 70;
   size mod 256; (size / 256) mod 256; (size / 65536) mod 256; size / 16777216;
   87; 65; 86; 69;
   102; 109; 116; 32;
   16; 0; 0; 0;
   1; 0;
   1; 0;
   rate4 mod 256; (rate4 / 256) mod 256; (rate4 / 65536) mod 256; rate4 / 16777216;
   rate2 mod 256; (rate2 / 256) mod 256; (rate2 / 65536) mod 256; rate2 / 16777216;
   2; 0;
   16; 0;
   100; 97; 116; 97;
   len4 mod 256; (len4 / 256) mod 256; (len4 / 65536) mod 256; len4 / 16777216].

Example window_atob_0123 : window_atob "AAECAw==" = Return (string_of_list_ascii
  [ascii_of_N 0; ascii_of_N 1; ascii_of_N 2; ascii_of_N 3]).
Proof. reflexivity. Qed.

Example window_atob_hello : window_atob "SGVsbG8=" = Return "Hello".
Proof. reflexivity. Qed.

Example window_atob_unpadded : window_atob " SGVs bG8" = Return "Hello".
Proof. reflexivity. Qed.

Example window_atob_invalid : window_atob "SGVsb" = Throw InvalidCharacterError.
Proof. reflexivity. Qed.

(** *** What the encoder writes *)

Lemma charCodeAt_byte (c : ascii) : Z.of_N (N_of_ascii c) mod 256 = Z.of_N (N_of_ascii c).
Proof.
  apply Z.mod_small. pose proof (N_ascii_bounded c). lia.
Qed.

Lemma charCodeAt_next (c : ascii) (s : string) (i : nat) :
  charCodeAt (String c s) (S i) = charCodeAt s i.
Proof. reflexivity. Qed.

Lemma foldl_seq_shift {A : Type} (f : A -> nat -> A) (a : A) (start n : nat) :
  foldl f a (seq (S start) n) = foldl (fun acc i => f acc (S i)) a (seq start n).
Proof.
  revert a start. induction n as [|n IH]; intros a start; [reflexivity|].
  cbn [seq foldl]. apply IH.
Qed.

Lemma foldl_ext_seq {A : Type} (f g : A -> nat -> A) (a : A) (start n : nat) :
  (forall acc i, f acc i = g acc i) -> foldl f a (seq start n) = foldl g a (seq start n).
Proof.
  intros Hfg. revert a start. induction n as [|n IH]; intros a start; [reflexivity|].
  cbn [seq foldl]. rewrite Hfg. apply IH.
Qed.

(** The loop over the samples fills the zeroed tail of the buffer with the
    bytes of the binary string and leaves what precedes it alone. *)
Lemma pcm_loop (s : string) (front : list Z) :
  foldl (fun buffer i => Uint8Array_set buffer (length front) i (charCodeAt s i))
        (front ++ replicate (String.length s) 0) (seq 0 (String.length s))
  = front ++ bytesOf s.
Proof.
  revert front. induction s as [|c s IH]; intros front; [reflexivity|].
  cbn [String.length replicate seq foldl].
  rewrite foldl_seq_shift.
  unfold Uint8Array_set at 2.
  rewrite Nat.add_0_r, insert_app_r_alt, Nat.sub_diag by lia.
  cbn [insert list_insert]. unfold charCodeAt at 2. cbn [String.get].
  rewrite charCodeAt_byte.
  change (front ++ Z.of_N (N_of_ascii c) :: replicate (String.length s) 0)
    with (front ++ [Z.of_N (N_of_ascii c)] ++ replicate (String.length s) 0).
  rewrite app_assoc.
  rewrite (foldl_ext_seq _ (fun buffer i =>
    Uint8Array_set buffer (length (front ++ [Z.of_N (N_of_ascii c)])) i (charCodeAt s i))).
  - rewrite IH, <- app_assoc. reflexivity.
  - intros acc i. unfold Uint8Array_set. rewrite charCodeAt_next, length_app.
    cbn [length]. f_equal. lia.
Qed.

(** Four bytes written little-endian read back as the number they encode. *)
Lemma le32_bytes (v : Z) :
  v mod 256 + 256 * ((v / 256) mod 256) + 65536 * ((v / 65536) mod 256) + 16777216 * (v / 16777216)
  = v.
Proof.
  pose proof (Z.div_mod v 256 ltac:(lia)) as H0.
  pose proof (Z.div_mod (v / 256) 256 ltac:(lia)) as H1.
  pose proof (Z.div_mod (v / 256 / 256) 256 ltac:(lia)) as H2.
  rewrite Z.div_div in H1, H2 by lia.
  rewrite Z.div_div in H2 by lia.
  change (256 * 256) with 65536 in *. change (65536 * 256) with 16777216 in *.
  lia.
Qed.

(** The header of an encoded file, read back: every numeric field is the
    written number reduced modulo the width of its field. *)
Lemma readHeader_headerBytes (len rate : Z) (payload : list Z) :
  readHeader (headerBytes len rate ++ payload)
  = Some (mkWavHeader (bytesOf "RIFF") ((36 + len) mod 4294967296) (bytesOf "WAVE")
            (bytesOf "fmt ") 16 1 1 (rate mod 4294967296) ((rate * 2) mod 4294967296)
            2 16 (bytesOf "data") (len mod 4294967296)).
Proof.
  unfold readHeader, headerBytes. cbn -[Z.add Z.mul Z.modulo Z.div].
  rewrite !le32_bytes. reflexivity.
Qed.

Section EncoderFacts.

Variable atob : string -> Outcome string.

(** The blob holds the 44 header bytes followed by the bytes of the decoded
    binary string, whatever the sample rate. *)
Lemma base64ToWavBlob_bytes (base64 binaryString : string) (rate : option Z) :
  atob base64 = Return binaryString ->
  base64ToWavBlob atob base64 rate
  = Return (mkBlob (headerBytes (Z.of_nat (String.length binaryString)) (default 24000 rate)
                    ++ bytesOf binaryString) "audio/wav").
Proof.
  intros Hatob. unfold base64ToWavBlob. rewrite Hatob.
  rewrite <- (pcm_loop binaryString).
  reflexivity.
Qed.

Lemma length_bytesOf (s : string) : length (bytesOf s) = String.length s.
Proof.
  unfold bytesOf. rewrite length_map.
  induction s as [|c s IH]; [reflexivity|]. cbn. now rewrite IH.
Qed.

(** C1 (as amended). For every binary string whose length fits the 32-bit
    size field ([36 + length < 2^32]) and every sample rate [r] with
    [0 < r < 2^31], the encoder returns a file of [44 + length] bytes whose
    header reads, little-endian: the tag RIFF; the file size minus 8, that
    is [36 + length]; the tag WAVE; the tag "fmt " with length 16; encoding
    code 1; channel count 1; the sample rate [r]; the byte rate
    [r * blockAlign]; block alignment [1 * 2]; 16 bits per sample; the tag
    data; and the payload length. The empty binary string is one instance:
    a header declaring zero data bytes. *)
Theorem base64ToWavBlob_header (base64 binaryString : string) (r : Z) :
  atob base64 = Return binaryString ->
  0 < r < 2147483648 ->
  36 + Z.of_nat (String.length binaryString) < 4294967296 ->
  exists bytes : list Z,
    base64ToWavBlob atob base64 (Some r) = Return (mkBlob bytes "audio/wav")
    /\ Z.of_nat (length bytes) = 44 + Z.of_nat (String.length binaryString)
    /\ readHeader bytes
       = Some {| chunkId := bytesOf "RIFF";
                 chunkSize := Z.of_nat (length bytes) - 8;
                 format := bytesOf "WAVE";
                 subchunk1Id := bytesOf "fmt ";
                 subchunk1Size := 16;
                 audioFormat := 1;
                 numChannels := 1;
                 sampleRate := r;
                 byteRate := r * (1 * 2);
                 blockAlign := 1 * 2;
                 bitsPerSample := 16;
                 subchunk2Id := bytesOf "data";
                 subchunk2Size := Z.of_nat (String.length binaryString) |}.
Proof.
  intros Hatob Hr Hlen. eexists. split; [|split].
  - apply base64ToWavBlob_bytes, Hatob.
  - rewrite length_app, length_bytesOf. cbn [length headerBytes]. lia.
  - rewrite readHeader_headerBytes, length_app, length_bytesOf.
    cbn [length headerBytes default from_option]. unfold id.
    rewrite !Z.mod_small by lia. do 2 f_equal; lia.
Qed.

(** C2 (as amended). For every sample buffer [b] shorter than [2^32] bytes
    and every sample rate [r] with [0 < r < 2^32], the output is exactly a
    44-byte header followed by the bytes of [b], unmodified and in order,
    and decoding it recovers the samples [b] and the sample rate [r]. *)
Theorem base64ToWavBlob_roundtrip (base64 b : string) (r : Z) :
  atob base64 = Return b ->
  0 < r < 4294967296 ->
  Z.of_nat (String.length b) < 4294967296 ->
  exists header : list Z,
    base64ToWavBlob atob base64 (Some r) = Return (mkBlob (header ++ bytesOf b) "audio/wav")
    /\ length header = 44%nat
    /\ decode (header ++ bytesOf b) = Some (mkDecoded (bytesOf b) r).
Proof.
  intros Hatob Hr Hlen.
  exists (headerBytes (Z.of_nat (String.length b)) r). split; [|split].
  - apply (base64ToWavBlob_bytes base64 b (Some r)), Hatob.
  - reflexivity.
  - unfold decode. rewrite readHeader_headerBytes. cbn [mbind option_bind].
    rewrite drop_app_length' by reflexivity.
    cbn [chunkId format subchunk1Id subchunk2Id subchunk1Size audioFormat numChannels
         bitsPerSample subchunk2Size sampleRate].
    rewrite length_bytesOf, !Z.mod_small by lia.
    rewrite decide_True by (repeat split; lia).
    rewrite Nat2Z.id, <- (length_bytesOf b), firstn_all. reflexivity.
Qed.

(** C3 (as amended). Encoding the four bytes 0, 1, 2, 3 at sample rate 24000
    gives 48 bytes in which the sample rate, byte rate, block alignment and
    bits per sample, read little-endian at offsets 24, 28, 32 and 34 (bytes
    24..36), are 24000, 48000, 2 and 16. *)
Theorem base64ToWavBlob_scenario (base64 : string) :
  atob base64 = Return (string_of_list_ascii [ascii_of_N 0; ascii_of_N 1; ascii_of_N 2; ascii_of_N 3]) ->
  exists bytes : list Z,
    base64ToWavBlob atob base64 (Some 24000) = Return (mkBlob bytes "audio/wav")
    /\ length bytes = 48%nat
    /\ drop 44 bytes = [0; 1; 2; 3]
    /\ getUint32 bytes 24 true = Some 24000
    /\ getUint32 bytes 28 true = Some 48000
    /\ getUint16 bytes 32 true = Some 2
    /\ getUint16 bytes 34 true = Some 16.
Proof.
  intros Hatob. eexists. split.
  - exact (base64ToWavBlob_bytes base64 _ (Some 24000) Hatob).
  - repeat split; reflexivity.
Qed.

End EncoderFacts.

(** C1, a witness: the empty payload at the default rate. *)
Lemma base64ToWavBlob_header_witness :
  exists bytes : list Z,
    base64ToWavBlob window_atob "" (Some 24000) = Return (mkBlob bytes "audio/wav")
    /\ Z.of_nat (length bytes) = 44 + 0
    /\ readHeader bytes
       = Some {| chunkId := bytesOf "RIFF"; chunkSize := Z.of_nat (length bytes) - 8;
                 format := bytesOf "WAVE"; subchunk1Id := bytesOf "fmt ";
                 subchunk1Size := 16; audioFormat := 1; numChannels := 1;
                 sampleRate := 24000; byteRate := 24000 * (1 * 2); blockAlign := 1 * 2;
                 bitsPerSample := 16; subchunk2Id := bytesOf "data"; subchunk2Size := 0 |}.
Proof.
  apply (base64ToWavBlob_header window_atob "" "" 24000); [reflexivity | lia | cbn; lia].
Defined.

(** C1, the counterexample: at sample rate [2^31] the byte-rate field of
    the header reads 0, while sample rate times block alignment is [2^32]. *)
Lemma base64ToWavBlob_header_counterexample :
  exists (bytes : list Z) (h : WavHeader),
    base64ToWavBlob window_atob "" (Some 2147483648) = Return (mkBlob bytes "audio/wav")
    /\ readHeader bytes = Some h
    /\ sampleRate h = 2147483648
    /\ blockAlign h = 2
    /\ byteRate h = 0
    /\ byteRate h <> 2147483648 * 2.
Proof.
  eexists. eexists. split; [reflexivity|]. split; [reflexivity|].
  repeat split. discriminate.
Qed.

(** C2, a witness: the payload "Hello" at 24000 Hz. *)
Lemma base64ToWavBlob_roundtrip_witness :
  exists header : list Z,
    base64ToWavBlob window_atob "SGVsbG8=" (Some 24000)
    = Return (mkBlob (header ++ bytesOf "Hello") "audio/wav")
    /\ length header = 44%nat
    /\ decode (header ++ bytesOf "Hello") = Some (mkDecoded (bytesOf "Hello") 24000).
Proof.
  apply (base64ToWavBlob_roundtrip window_atob "SGVsbG8=" "Hello" 24000);
    [reflexivity | lia | cbn; lia].
Defined.

(** C2, the counterexample: at sample rate [2^32] the file decodes, but to
    the sample rate 0. *)
Lemma base64ToWavBlob_roundtrip_counterexample :
  exists bytes : list Z,
    base64ToWavBlob window_atob "SGVsbG8=" (Some 4294967296) = Return (mkBlob bytes "audio/wav")
    /\ decode bytes = Some (mkDecoded (bytesOf "Hello") 0).
Proof.
  eexists. split; reflexivity.
Qed.

(** C3, a witness: the base64 text of the bytes 0, 1, 2, 3. *)
Lemma base64ToWavBlob_scenario_witness :
  exists bytes : list Z,
    base64ToWavBlob window_atob "AAECAw==" (Some 24000) = Return (mkBlob bytes "audio/wav")
    /\ length bytes = 48%nat
    /\ drop 44 bytes = [0; 1; 2; 3]
    /\ getUint32 bytes 24 true = Some 24000
    /\ getUint32 bytes 28 true = Some 48000
    /\ getUint16 bytes 32 true = Some 2
    /\ getUint16 bytes 34 true = Some 16.
Proof.
  apply (base64ToWavBlob_scenario window_atob "AAECAw=="). reflexivity.
Defined.

(** C3, the counterexample: bytes 36..44 of that file hold the tag data and
    the payload length 4, not the sample rate and the byte rate. *)
Lemma base64ToWavBlob_scenario_counterexample :
  exists bytes : list Z,
    base64ToWavBlob window_atob "AAECAw==" (Some 24000) = Return (mkBlob bytes "audio/wav")
    /\ take 4 (drop 36 bytes) = bytesOf "data"
    /\ getUint32 bytes 36 true = Some 1635017060
    /\ getUint32 bytes 40 true = Some 4
    /\ getUint32 bytes 36 true <> Some 24000
    /\ getUint32 bytes 40 true <> Some 48000.
Proof.
  eexists. split; [reflexivity|]. repeat split; discriminate.
Qed.

(** *** The encoder on any input *)

Section EncoderEdges.

Variable atob : string -> Outcome string.

(** X1. [base64ToWavBlob] fails exactly when [atob] does, with the
    exception of [atob]: none of its own writes leaves the buffer, whatever
    the sample rate. Otherwise it returns a blob of type audio/wav that
    holds 44 bytes, the first four of them the tag RIFF, followed by the
    bytes of the decoded string. *)
Theorem base64ToWavBlob_throws (base64 : string) (rate : option Z) :
  match atob base64 with
  | Throw e => base64ToWavBlob atob base64 rate = Throw e
  | Return binaryString =>
      exists bytes,
        base64ToWavBlob atob base64 rate = Return (mkBlob bytes "audio/wav")
        /\ length bytes = (44 + String.length binaryString)%nat
        /\ take 4 bytes = bytesOf "RIFF"
        /\ drop 44 bytes = bytesOf binaryString
  end.
Proof.
  destruct (atob base64) as [binaryString|e] eqn:Hatob.
  - eexists. split; [exact (base64ToWavBlob_bytes atob base64 binaryString rate Hatob)|].
    split; [|split].
    + rewrite length_app, length_bytesOf. reflexivity.
    + reflexivity.
    + now rewrite drop_app_length' by reflexivity.
  - unfold base64ToWavBlob. now rewrite Hatob.
Qed.

(** X2. Whatever the sample rate and the length of the payload, the
    numeric fields of the header hold the written numbers modulo [2^32]:
    the sample rate, the byte rate (twice the sample rate), the file size
    minus 8 and the payload length. When the sample rate is omitted the
    header declares 24000 Hz and 48000 bytes per second. *)
Theorem base64ToWavBlob_wraps (base64 binaryString : string) (rate : option Z) :
  atob base64 = Return binaryString ->
  exists bytes h,
    base64ToWavBlob atob base64 rate = Return (mkBlob bytes "audio/wav")
    /\ readHeader bytes = Some h
    /\ sampleRate h = default 24000 rate mod 4294967296
    /\ byteRate h = (default 24000 rate * 2) mod 4294967296
    /\ chunkSize h = (36 + Z.of_nat (String.length binaryString)) mod 4294967296
    /\ subchunk2Size h = Z.of_nat (String.length binaryString) mod 4294967296
    /\ (rate = None -> sampleRate h = 24000 /\ byteRate h = 48000).
Proof.
  intros Hatob. eexists. eexists.
  split; [exact (base64ToWavBlob_bytes atob base64 binaryString rate Hatob)|].
  split; [apply readHeader_headerBytes|].
  cbn [sampleRate byteRate chunkSize subchunk2Size]. do 4 (split; [reflexivity|]).
  intros ->. split; reflexivity.
Qed.

End EncoderEdges.

(** X2, a witness: the sample rate [-1] is stored as [2^32 - 1], and the
    byte rate [-2] as [2^32 - 2]. *)
Lemma base64ToWavBlob_wraps_witness :
  exists bytes h,
    base64ToWavBlob window_atob "SGVsbG8=" (Some (-1)) = Return (mkBlob bytes "audio/wav")
    /\ readHeader bytes = Some h
    /\ sampleRate h = 4294967295
    /\ byteRate h = 4294967294.
Proof.
  destruct (base64ToWavBlob_wraps window_atob "SGVsbG8=" "Hello" (Some (-1)) eq_refl)
    as (bytes & h & Hblob & Hheader & Hrate & Hbyte & _).
  exists bytes, h. split; [exact Hblob|]. split; [exact Hheader|]. split; assumption.
Defined.

End Wav.

(** ** types.ts *)

Module Types.

Inductive Language : Type := ENGLISH | VIETNAMESE.

(** The text of an enumeration member, as it is spliced into the prompt. *)
Definition Language_text (l : Language) : string :=
  match l with
  | ENGLISH => "English"
  | VIETNAMESE => "Vietnamese"
  end.

(** A subtitle line. Its times are numbers of the arithmetic [num]; a text
    is a [string], one character for each code unit, of which only the
    length and the identity matter. *)
Record SubtitleSegment (num : Type) : Type := mkSubtitleSegment {
  id : nat;
  original : string;
  translated : string;
  startTime : num;
  endTime : num
}.
Arguments mkSubtitleSegment {num} _ _ _ _ _.
Arguments id {num} _.
Arguments original {num} _.
Arguments translated {num} _.
Arguments startTime {num} _.
Arguments endTime {num} _.

Inductive Gender : Type := Male | Female.

Record VoiceOption : Type := mkVoiceOption {
  name : string;
  voice_id : string;
  gender : Gender
}.

Definition VOICES : list VoiceOption :=
  [ mkVoiceOption "Puck" "Puck" Male;
    mkVoiceOption "Charon" "Charon" Male;
    mkVoiceOption "Kore" "Kore" Female;
    mkVoiceOption "Fenrir" "Fenrir" Male;
    mkVoiceOption "Zephyr" "Zephyr" Female ].

Record GenerationResult : Type := mkGenerationResult {
  audioBase64 : string;
  segments : list (SubtitleSegment float)
}.

End Types.

Import Types.

(** ** IEEE-754 doubles

    The numbers of the host are Rocq's primitive floats, specified by
    [SpecFloat]. This part derives, from that specification, the facts
    about their order and their rounding that the aligner and the player
    rely on: sums of doubles that are not negative do not decrease, every
    operation is its exact result up to one rounding, and integers below
    [2^53] are exact. *)

Module Double.

(** *** Shifting and rounding a mantissa *)

(** The mantissa of a shifted record. *)
Lemma shr_1_m (mrs : shr_record) : 0 <= shr_m mrs -> shr_m (shr_1 mrs) = shr_m mrs / 2.
Proof.
  destruct mrs as [m r s]. cbn [shr_m]. intros Hm.
  destruct m as [|p|p]; [reflexivity| |lia].
  destruct p as [p|p|]; cbn [shr_1 shr_m].
  - rewrite Pos2Z.inj_xI. apply Z.div_unique with (r := 1); lia.
  - rewrite Pos2Z.inj_xO. apply Z.div_unique with (r := 0); lia.
  - reflexivity.
Qed.

Lemma iter_pos_nat {A : Type} (f : A -> A) (p : positive) (x : A) :
  SpecFloat.iter_pos f p x = Nat.iter (Pos.to_nat p) f x.
Proof.
  revert x. induction p as [p IH|p IH|]; intros x; cbn [SpecFloat.iter_pos].
  - rewrite !IH, Pos2Nat.inj_xI. cbn [Nat.mul]. rewrite Nat.add_0_r.
    rewrite <- Nat.iter_add, <- Nat.iter_succ_r. reflexivity.
  - rewrite !IH, Pos2Nat.inj_xO. cbn [Nat.mul]. rewrite Nat.add_0_r.
    now rewrite <- Nat.iter_add.
  - reflexivity.
Qed.

Lemma iter_shr_1_m (n : nat) (mrs : shr_record) :
  0 <= shr_m mrs ->
  shr_m (Nat.iter n shr_1 mrs) = shr_m mrs / 2 ^ Z.of_nat n.
Proof.
  intros Hm. induction n as [|n IH].
  - cbn. now rewrite Z.div_1_r.
  - rewrite Nat.iter_succ, shr_1_m.
    + rewrite IH, Z.div_div, Nat2Z.inj_succ, Z.pow_succ_r by lia. f_equal. lia.
    + rewrite IH. apply Z.div_pos; lia.
Qed.

(** The mantissa and the exponent after [shr]. *)
Lemma shr_spec (mrs : shr_record) (e n : Z) :
  0 <= shr_m mrs ->
  shr_m (fst (shr mrs e n)) = shr_m mrs / 2 ^ Z.max 0 n /\ snd (shr mrs e n) = e + Z.max 0 n.
Proof.
  intros Hm. destruct n as [|p|p]; cbn [shr fst snd].
  - rewrite Z.div_1_r. split; [reflexivity|lia].
  - rewrite iter_pos_nat, iter_shr_1_m, positive_nat_Z by exact Hm.
    rewrite Z.max_r by lia. split; reflexivity.
  - rewrite Z.div_1_r. split; [reflexivity|lia].
Qed.

Lemma digits2_pos_bounds (m : positive) :
  2 ^ (Zpos (digits2_pos m) - 1) <= Zpos m < 2 ^ Zpos (digits2_pos m).
Proof.
  induction m as [m IH|m IH|]; cbn [digits2_pos].
  - rewrite Pos2Z.inj_succ, Pos2Z.inj_xI.
    replace (Z.succ (Zpos (digits2_pos m)) - 1) with (Z.succ (Zpos (digits2_pos m) - 1)) by lia.
    rewrite !Z.pow_succ_r by lia.
    generalize dependent (2 ^ (Zpos (digits2_pos m) - 1)).
    generalize dependent (2 ^ Zpos (digits2_pos m)). lia.
  - rewrite Pos2Z.inj_succ, (Pos2Z.inj_xO m).
    replace (Z.succ (Zpos (digits2_pos m)) - 1) with (Z.succ (Zpos (digits2_pos m) - 1)) by lia.
    rewrite !Z.pow_succ_r by lia.
    generalize dependent (2 ^ (Zpos (digits2_pos m) - 1)).
    generalize dependent (2 ^ Zpos (digits2_pos m)). lia.
  - cbn. lia.
Qed.

Lemma shl_align_m (m : positive) (e e' : Z) :
  e' <= e -> Zpos (fst (shl_align m e e')) = Zpos m * 2 ^ (e - e').
Proof.
  intros He. unfold shl_align.
  destruct (e' - e) as [|d|d] eqn:Hd; cbn [fst]; try lia.
  - replace (e - e') with 0 by lia. cbn. lia.
  - replace (e - e') with (Zpos d) by lia.
    rewrite (Pos.iter_swap_gen _ _ Zpos xO (Z.mul 2)) by reflexivity.
    change (Pos.iter (Z.mul 2) (Zpos m) d) with (Z.shiftl (Zpos m) (Zpos d)).
    apply Z.shiftl_mul_pow2. lia.
Qed.

Lemma digits2_pos_lower (m : positive) (k : Z) :
  2 ^ k <= Zpos m -> k < Zpos (digits2_pos m).
Proof.
  intros Hk. destruct (Z.lt_ge_cases k (Zpos (digits2_pos m))) as [|Hge]; [assumption|].
  pose proof (digits2_pos_bounds m) as [_ Hm].
  pose proof (Z.pow_le_mono_r 2 _ _ ltac:(lia) Hge). lia.
Qed.

Lemma div_pow2_pos (m : positive) (n : Z) :
  0 <= n < Zpos (digits2_pos m) -> 1 <= Zpos m / 2 ^ n.
Proof.
  intros Hn. pose proof (digits2_pos_bounds m) as [Hm _].
  pose proof (Z.pow_le_mono_r 2 n (Zpos (digits2_pos m) - 1) ltac:(lia) ltac:(lia)).
  apply Z.div_le_lower_bound; [apply Z.pow_pos_nonneg; lia | lia].
Qed.

(** Rounding to nearest keeps a mantissa or moves it up by one. *)
Lemma round_nearest_even_ge (m : Z) (l : location) :
  m <= round_nearest_even m l.
Proof.
  destruct l as [|[]]; cbn; try lia. destruct (Z.even m); lia.
Qed.

Lemma round_nearest_even_le (m : Z) (l : location) :
  round_nearest_even m l <= m + 1.
Proof.
  destruct l as [|[]]; cbn; try lia. destruct (Z.even m); lia.
Qed.

(** Shifting zeros out of an exact mantissa leaves it exact. *)
Lemma shr_1_exact (m : Z) :
  0 <= m -> m mod 2 = 0 ->
  shr_1 (Build_shr_record m false false) = Build_shr_record (m / 2) false false.
Proof.
  intros Hm Heven. destruct m as [|p|p]; [reflexivity| |lia].
  destruct p as [p|p|]; cbn [shr_1 orb].
  - rewrite Pos2Z.inj_xI in Heven. exfalso.
    rewrite Z.add_comm, Z.mul_comm, Z.mod_add in Heven by lia. discriminate.
  - f_equal. rewrite (Pos2Z.inj_xO p). apply Z.div_unique with (r := 0); lia.
  - discriminate.
Qed.

Lemma iter_shr_1_exact (n : nat) (m : Z) :
  0 <= m -> m mod 2 ^ Z.of_nat n = 0 ->
  Nat.iter n shr_1 (Build_shr_record m false false)
  = Build_shr_record (m / 2 ^ Z.of_nat n) false false.
Proof.
  revert m. induction n as [|n IH]; intros m Hm Hdiv.
  - cbn. now rewrite Z.div_1_r.
  - rewrite Nat2Z.inj_succ, Z.pow_succ_r in * by lia.
    assert (H2 : 0 < 2 ^ Z.of_nat n) by (apply Z.pow_pos_nonneg; lia).
    apply Z.mod_divide in Hdiv; [|lia]. destruct Hdiv as [k Hk].
    rewrite Nat.iter_succ_r, shr_1_exact; try assumption.
    + rewrite IH.
      * now rewrite Z.div_div by lia.
      * apply Z.div_pos; lia.
      * subst m. replace (k * (2 * 2 ^ Z.of_nat n)) with (k * 2 ^ Z.of_nat n * 2) by ring.
        rewrite Z.div_mul by lia. apply Z.mod_mul. lia.
    + subst m. replace (k * (2 * 2 ^ Z.of_nat n)) with (k * 2 ^ Z.of_nat n * 2) by ring.
      apply Z.mod_mul. lia.
Qed.

Lemma shr_exact (m e n : Z) :
  0 <= m -> m mod 2 ^ Z.max 0 n = 0 ->
  fst (shr (Build_shr_record m false false) e n)
  = Build_shr_record (m / 2 ^ Z.max 0 n) false false.
Proof.
  intros Hm Hdiv. destruct n as [|p|p]; cbn [shr fst].
  - now rewrite Z.div_1_r.
  - rewrite Z.max_r in * by lia.
    rewrite iter_pos_nat. rewrite <- (positive_nat_Z p) in *. now apply iter_shr_1_exact.
  - now rewrite Z.div_1_r.
Qed.

Lemma digits2_pos_upper (m : positive) (k : Z) :
  Zpos m < 2 ^ k -> Zpos (digits2_pos m) <= k.
Proof.
  intros Hk. destruct (Z.le_gt_cases (Zpos (digits2_pos m)) k) as [|Hgt]; [assumption|].
  pose proof (digits2_pos_bounds m) as [Hm _].
  destruct (Z.lt_ge_cases k 0) as [Hneg|Hpos].
  - rewrite Z.pow_neg_r in Hk by lia. lia.
  - pose proof (Z.pow_le_mono_r 2 k (Zpos (digits2_pos m) - 1) ltac:(lia) ltac:(lia)). lia.
Qed.

Section Rounding.

Variables prec emax : Z.
Hypothesis prec_pos : 0 < prec.

Abbreviation fexp := (SpecFloat.fexp prec emax).
Abbreviation emin := (SpecFloat.emin prec emax).

(** Rounding a positive mantissa [m] at exponent [e], not below [emin],
    gives a positive number; its exponent is at least [fexp] of the
    magnitude, and when it is exactly [e] the mantissa is at least [m]. *)
Lemma binary_round_aux_pos (m : positive) (e : Z) (l : location) :
  emin <= e ->
  match binary_round_aux prec emax false (Zpos m) e l with
  | S754_infinity false => True
  | S754_finite false m' e' =>
      fexp (Zpos (digits2_pos m) + e) <= e'
      /\ e <= e'
      /\ Zpos m / 2 ^ (e' - e) <= Zpos m'
  | _ => False
  end.
Proof.
  intros He. unfold binary_round_aux, shr_fexp.
  set (n1 := fexp (Zdigits2 (Zpos m) + e) - e).
  assert (Hmax1 : 0 <= Z.max 0 n1 < Zpos (digits2_pos m)).
  { unfold n1, SpecFloat.fexp. cbn [Zdigits2]. pose proof (Pos2Z.is_pos (digits2_pos m)). lia. }
  assert (Hrec : 0 <= shr_m (shr_record_of_loc (Zpos m) l)) by (now destruct l as [|[]]).
  assert (Hrecm : shr_m (shr_record_of_loc (Zpos m) l) = Zpos m) by (now destruct l as [|[]]).
  pose proof (shr_spec (shr_record_of_loc (Zpos m) l) e n1 Hrec) as [Hm0 He1].
  destruct (shr (shr_record_of_loc (Zpos m) l) e n1) as [mrs' e1]. cbn [fst snd] in Hm0, He1.
  rewrite Hrecm in Hm0.
  pose proof (div_pow2_pos m _ Hmax1) as Hm0pos. rewrite <- Hm0 in Hm0pos.
  pose proof (round_nearest_even_ge (shr_m mrs') (loc_of_shr_record mrs')) as Hrne.
  set (m1 := round_nearest_even (shr_m mrs') (loc_of_shr_record mrs')) in *.
  destruct m1 as [|p1|p1] eqn:Hm1; try lia.
  set (n2 := fexp (Zdigits2 (Zpos p1) + e1) - e1).
  assert (Hmax2 : 0 <= Z.max 0 n2 < Zpos (digits2_pos p1)).
  { unfold n2, SpecFloat.fexp. cbn [Zdigits2]. pose proof (Pos2Z.is_pos (digits2_pos p1)).
    unfold n1, SpecFloat.fexp in He1. cbn [Zdigits2] in He1. lia. }
  pose proof (shr_spec (shr_record_of_loc (Zpos p1) loc_Exact) e1 n2 ltac:(cbn; lia)) as [Hm2 He2].
  destruct (shr (shr_record_of_loc (Zpos p1) loc_Exact) e1 n2) as [mrs'' e2].
  cbn [fst snd shr_record_of_loc shr_m] in Hm2, He2.
  pose proof (div_pow2_pos p1 _ Hmax2) as Hm2pos. rewrite <- Hm2 in Hm2pos.
  destruct (shr_m mrs'') as [|p2|p2] eqn:Hp2; try lia.
  destruct (e2 <=? emax - prec); [|exact I].
  split; [|split].
  - unfold n1, SpecFloat.fexp in *. cbn [Zdigits2] in *. lia.
  - lia.
  - replace (e2 - e) with (Z.max 0 n1 + Z.max 0 n2) by lia.
    rewrite Z.pow_add_r, <- Z.div_div, <- Hm0, Hm2 by lia.
    apply Z.div_le_mono; [apply Z.pow_pos_nonneg; lia | lia].
Qed.

(** A sum of two positive doubles is not below the first of them. *)
Lemma SFadd_pos_ge (mc : positive) (ec : Z) (ms : positive) (es : Z) :
  bounded prec emax mc ec = true ->
  bounded prec emax ms es = true ->
  match SFadd prec emax (S754_finite false mc ec) (S754_finite false ms es) with
  | S754_infinity false => True
  | S754_finite false m' e' => ec < e' \/ (e' = ec /\ Zpos mc <= Zpos m')
  | _ => False
  end.
Proof.
  unfold bounded, canonical_mantissa. intros Hc Hs.
  apply andb_prop in Hc, Hs. destruct Hc as [Hc _], Hs as [Hs _].
  apply Z.eqb_eq in Hc, Hs.
  cbn [SFadd cond_Zopp]. set (ez := Z.min ec es).
  pose proof (shl_align_m mc ec ez ltac:(lia)) as Ha.
  pose proof (shl_align_m ms es ez ltac:(lia)) as Hb.
  set (a := fst (shl_align mc ec ez)) in *. set (b := fst (shl_align ms es ez)) in *.
  change (Zpos a + Zpos b) with (Zpos (a + b)). cbn [binary_normalize]. unfold binary_round.
  set (m := (a + b)%positive).
  assert (Hm : Zpos mc * 2 ^ (ec - ez) <= Zpos m) by (unfold m; lia).
  assert (Hdig : Zpos (digits2_pos mc) + ec - ez <= Zpos (digits2_pos m)).
  { enough (Zpos (digits2_pos mc) - 1 + (ec - ez) < Zpos (digits2_pos m)) by lia.
    apply digits2_pos_lower. pose proof (digits2_pos_bounds mc) as [Hlow _].
    pose proof (Pos2Z.is_pos (digits2_pos mc)).
    rewrite Z.pow_add_r by lia.
    pose proof (Z.pow_pos_nonneg 2 (ec - ez) ltac:(lia) ltac:(lia)). nia. }
  assert (Hez : emin <= ez) by (unfold SpecFloat.fexp in Hc, Hs; lia).
  assert (HE : ec <= fexp (Zpos (digits2_pos m) + ez)) by (unfold SpecFloat.fexp in *; lia).
  unfold shl_align at 1.
  destruct (fexp (Zpos (digits2_pos m) + ez) - ez) as [|d|d] eqn:Hd; try lia.
  - pose proof (binary_round_aux_pos m ez loc_Exact Hez) as Hr.
    destruct (binary_round_aux prec emax false (Zpos m) ez loc_Exact) as [| [] | | [] m' e'];
      try assumption.
    destruct Hr as (H1 & H2 & H3).
    destruct (Z.eq_dec e' ec) as [->|]; [right|left; lia]. split; [reflexivity|].
    eapply Z.le_trans; [|exact H3].
    apply Z.div_le_lower_bound; [apply Z.pow_pos_nonneg; lia | lia].
  - pose proof (binary_round_aux_pos m ez loc_Exact Hez) as Hr.
    destruct (binary_round_aux prec emax false (Zpos m) ez loc_Exact) as [| [] | | [] m' e'];
      try assumption.
    destruct Hr as (H1 & H2 & H3).
    destruct (Z.eq_dec e' ec) as [->|]; [right|left; lia]. split; [reflexivity|].
    eapply Z.le_trans; [|exact H3].
    apply Z.div_le_lower_bound; [apply Z.pow_pos_nonneg; lia | lia].
Qed.

End Rounding.

(** *** One rounding *)

Section Faithful.

Variables prec emax : Z.
Hypothesis prec_pos : 0 < prec.
Hypothesis prec_lt_emax : prec < emax.

Abbreviation fexp := (SpecFloat.fexp prec emax).
Abbreviation emin := (SpecFloat.emin prec emax).

(** [binary_round_aux] on a mantissa [m >= 0] at an exponent [e] that is
    not above its canonical exponent [E = fexp (digits m + e)]: the result
    is [m1 * 2^E], where [m1] is [m / 2^(E-e)] or the next integer, and the
    former when nothing but zeros is shifted out; it is plus infinity only
    when [m1 * 2^E] is [2^emax] or more. *)
Lemma binary_round_aux_faithful (m e : Z) (l : location) :
  0 <= m -> e <= fexp (Zdigits2 m + e) ->
  exists m1 : Z,
    m / 2 ^ (fexp (Zdigits2 m + e) - e) <= m1 <= m / 2 ^ (fexp (Zdigits2 m + e) - e) + 1
    /\ (l = loc_Exact -> m mod 2 ^ (fexp (Zdigits2 m + e) - e) = 0 ->
        m1 = m / 2 ^ (fexp (Zdigits2 m + e) - e))
    /\ match binary_round_aux prec emax false m e l with
       | S754_zero false => m1 = 0
       | S754_finite false m' e' =>
           fexp (Zdigits2 m + e) <= e' <= emax - prec
           /\ Zpos m' * 2 ^ (e' - fexp (Zdigits2 m + e)) = m1
       | S754_infinity false =>
           exists k, 0 <= k /\ emax <= k + fexp (Zdigits2 m + e) /\ 2 ^ k <= m1
       | _ => False
       end.
Proof.
  intros Hm He. unfold binary_round_aux, shr_fexp.
  set (E := fexp (Zdigits2 m + e)) in *.
  assert (Hemin : emin <= E) by (unfold E, SpecFloat.fexp; lia).
  assert (Hrecm : shr_m (shr_record_of_loc m l) = m) by (now destruct l as [|[]]).
  pose proof (shr_spec (shr_record_of_loc m l) e (E - e) ltac:(lia)) as [Hm0 He1].
  rewrite Z.max_r in Hm0, He1 by lia. rewrite Hrecm in Hm0.
  assert (Hexact : l = loc_Exact -> m mod 2 ^ (E - e) = 0 ->
                   loc_of_shr_record (fst (shr (shr_record_of_loc m l) e (E - e))) = loc_Exact).
  { intros -> Hdiv. cbn [shr_record_of_loc].
    rewrite shr_exact; [reflexivity | assumption | now rewrite Z.max_r by lia]. }
  destruct (shr (shr_record_of_loc m l) e (E - e)) as [mrs' e1]. cbn [fst snd] in *.
  set (m0 := m / 2 ^ (E - e)) in *.
  assert (H2 : 0 < 2 ^ (E - e)) by (apply Z.pow_pos_nonneg; lia).
  assert (Hm0nn : 0 <= m0) by (apply Z.div_pos; lia).
  assert (Hm0lt : m0 < 2 ^ prec).
  { apply Z.div_lt_upper_bound; [exact H2|]. rewrite <- Z.pow_add_r by lia.
    destruct m as [|p|p]; [apply Z.pow_pos_nonneg; lia | | lia].
    pose proof (digits2_pos_bounds p) as [_ Hp].
    eapply Z.lt_le_trans; [exact Hp|]. apply Z.pow_le_mono_r; [lia|].
    unfold E, SpecFloat.fexp. cbn [Zdigits2]. lia. }
  pose proof (round_nearest_even_ge (shr_m mrs') (loc_of_shr_record mrs')) as Hge.
  pose proof (round_nearest_even_le (shr_m mrs') (loc_of_shr_record mrs')) as Hle.
  set (m1 := round_nearest_even (shr_m mrs') (loc_of_shr_record mrs')) in *.
  rewrite Hm0 in Hge, Hle.
  exists m1. split; [lia|]. split.
  { intros Hl Hdiv. unfold m1. rewrite (Hexact Hl Hdiv). cbn. exact Hm0. }
  assert (He1' : e1 = E) by lia. clear He1. subst e1.
  set (n2 := fexp (Zdigits2 m1 + E) - E).
  assert (Hn2 : Z.max 0 n2 = 0 \/ (Z.max 0 n2 = 1 /\ m1 = 2 ^ prec)).
  { destruct m1 as [|p1|p1] eqn:Em1; [| |lia].
    - left. unfold n2, SpecFloat.fexp. cbn [Zdigits2]. lia.
    - destruct (Z.lt_ge_cases (Zpos p1) (2 ^ prec)) as [Hlt|Hge1].
      + left. pose proof (digits2_pos_upper p1 prec Hlt).
        unfold n2, SpecFloat.fexp. cbn [Zdigits2]. lia.
      + right. assert (Heq : Zpos p1 = 2 ^ prec) by lia.
        assert (Zpos (digits2_pos p1) <= prec + 1).
        { apply digits2_pos_upper. rewrite Heq. apply Z.pow_lt_mono_r; lia. }
        assert (prec < Zpos (digits2_pos p1)).
        { apply digits2_pos_lower. lia. }
        split; [|exact Heq].
        unfold n2, SpecFloat.fexp. cbn [Zdigits2]. lia. }
  pose proof (shr_spec (shr_record_of_loc m1 loc_Exact) E n2 ltac:(cbn; lia)) as [Hm2 He2].
  destruct (shr (shr_record_of_loc m1 loc_Exact) E n2) as [mrs'' e2].
  cbn [fst snd shr_record_of_loc shr_m] in Hm2, He2.
  destruct Hn2 as [Hz|[Hone Hpow]].
  - rewrite Hz in *. rewrite Z.div_1_r in Hm2. rewrite Hm2.
    destruct m1 as [|p1|p1] eqn:Em1; [reflexivity| |lia].
    destruct (Z.leb_spec e2 (emax - prec)) as [Hfit|Hover].
    + replace (e2 - E) with 0 by lia. split; lia.
    + exists (prec - 1). split; [lia|]. split; [lia|].
      apply Z.le_trans with m0; [|lia].
      assert (HE : E = Zdigits2 m + e - prec).
      { unfold E, SpecFloat.fexp, SpecFloat.emin in *. lia. }
      destruct m as [|p|p]; [cbn [Zdigits2] in HE; lia| |lia].
      cbn [Zdigits2] in HE.
      pose proof (digits2_pos_bounds p) as [Hp _].
      apply Z.div_le_lower_bound; [exact H2|].
      rewrite <- Z.pow_add_r by lia.
      replace (E - e + (prec - 1)) with (Zpos (digits2_pos p) - 1) by lia. exact Hp.
  - rewrite Hone, Hpow in *.
    assert (Hhalf : 2 ^ prec = 2 ^ (prec - 1) * 2).
    { replace prec with (Z.succ (prec - 1)) at 1 by lia. rewrite Z.pow_succ_r by lia. ring. }
    assert (Hm2' : shr_m mrs'' = 2 ^ (prec - 1)).
    { rewrite Hm2. change (2 ^ 1) with 2. rewrite Hhalf at 1. apply Z.div_mul. lia. }
    pose proof (Z.pow_pos_nonneg 2 (prec - 1) ltac:(lia) ltac:(lia)) as Hpos.
    rewrite Hm2'. destruct (2 ^ (prec - 1)) as [|p2|p2] eqn:Ep2; try lia.
    destruct (Z.leb_spec e2 (emax - prec)) as [Hfit|Hover].
    + split; [lia|]. replace (e2 - E) with 1 by lia. change (2 ^ 1) with 2. lia.
    + exists prec. split; [lia|]. split; lia.
Qed.

End Faithful.

(** *** The value of a double *)

(** Powers of two, with exponents of either sign. *)
Definition pow2 (e : Z) : Q := (2 ^ e)%Q.

Lemma pow2_pos (e : Z) : (0 < pow2 e)%Q.
Proof. apply Qpower_0_lt. reflexivity. Qed.

Lemma pow2_add (a b : Z) : (pow2 (a + b) == pow2 a * pow2 b)%Q.
Proof. apply Qpower_plus. discriminate. Qed.

Lemma pow2_Z (n : Z) : 0 <= n -> (pow2 n == inject_Z (2 ^ n))%Q.
Proof. intros Hn. unfold pow2. now rewrite Zpower_Qpower. Qed.

Lemma pow2_le (a b : Z) : a <= b -> (pow2 a <= pow2 b)%Q.
Proof. intros Hab. apply Qpower_le_compat_l; [exact Hab | discriminate]. Qed.

Lemma pow2_lt_inv (a b : Z) : (pow2 a < pow2 b)%Q -> a < b.
Proof. intros Hab. apply (Qpower_lt_compat_l_inv 2); [exact Hab | reflexivity]. Qed.

Lemma scale_le (a b e : Z) : a <= b -> (inject_Z a * pow2 e <= inject_Z b * pow2 e)%Q.
Proof.
  intros Hab. apply Qmult_le_compat_r; [now rewrite <- Zle_Qle | apply Qlt_le_weak, pow2_pos].
Qed.

Lemma scale_shift (a k e : Z) :
  0 <= k -> (inject_Z (a * 2 ^ k) * pow2 e == inject_Z a * pow2 (k + e))%Q.
Proof.
  intros Hk. rewrite inject_Z_mult, pow2_add, (pow2_Z k Hk). ring.
Qed.

(** The rational a finite double stands for: its mantissa times two to
    its exponent. *)
Definition SF2Q (f : spec_float) : Q :=
  match f with
  | S754_finite false m e => inject_Z (Zpos m) * pow2 e
  | S754_finite true m e => - (inject_Z (Zpos m) * pow2 e)
  | _ => 0
  end.

Section Near.

Variables prec emax : Z.
Hypothesis prec_pos : 0 < prec.
Hypothesis prec_lt_emax : prec < emax.

Abbreviation fexp := (SpecFloat.fexp prec emax).
Abbreviation emin := (SpecFloat.emin prec emax).

(** The error of one rounding of [x]: [2^(1-prec)] of [x], or [2^emin]
    where the result is subnormal. *)
Definition err (x : Q) : Q := (pow2 (1 - prec) * x + pow2 emin)%Q.

(** [r] is [x] exactly, or plus infinity when [x] is out of range. *)
Definition exactly (x : Q) (r : spec_float) : Prop :=
  match r with
  | S754_zero _ | S754_finite false _ _ => (SF2Q r == x)%Q
  | S754_infinity false => (pow2 emax <= x)%Q
  | _ => False
  end.

(** [r] is [x] up to the error of one rounding, or plus infinity when [x]
    with that error is out of range. *)
Definition faithful (x : Q) (r : spec_float) : Prop :=
  match r with
  | S754_zero _ | S754_finite false _ _ => (x - err x <= SF2Q r <= x + err x)%Q
  | S754_infinity false => (pow2 emax <= x + err x)%Q
  | _ => False
  end.

Lemma err_nonneg (x : Q) : (0 <= x)%Q -> (0 <= err x)%Q.
Proof.
  intros Hx. unfold err.
  pose proof (pow2_pos (1 - prec)). pose proof (pow2_pos emin). nra.
Qed.

Lemma exactly_faithful (x : Q) (r : spec_float) :
  (0 <= x)%Q -> exactly x r -> faithful x r.
Proof.
  intros Hx. pose proof (err_nonneg x Hx).
  destruct r as [s|[]| |[] m e]; cbn [exactly faithful]; try tauto; intros Hr;
    try rewrite Hr; try split; lra.
Qed.

Lemma exactly_ext (x y : Q) (r : spec_float) : (x == y)%Q -> exactly x r -> exactly y r.
Proof.
  intros Hxy. destruct r as [s|[]| |[] m e]; cbn [exactly]; try tauto; now rewrite Hxy.
Qed.

Lemma faithful_ext (x y : Q) (r : spec_float) : (x == y)%Q -> faithful x r -> faithful y r.
Proof.
  intros Hxy. unfold faithful, err.
  destruct r as [s|[]| |[] m e]; try tauto; now rewrite Hxy.
Qed.

(** The value [binary_round_aux] gives to a mantissa [m] at an exponent
    [e] that is not above its canonical exponent [E]: [m / 2^(E-e)] or the
    next integer, at the exponent [E]. *)
Lemma binary_round_aux_value (m e : Z) (l : location) :
  0 <= m -> e <= fexp (Zdigits2 m + e) ->
  exists m1 : Z,
    m / 2 ^ (fexp (Zdigits2 m + e) - e) <= m1 <= m / 2 ^ (fexp (Zdigits2 m + e) - e) + 1
    /\ (l = loc_Exact -> m mod 2 ^ (fexp (Zdigits2 m + e) - e) = 0 ->
        m1 = m / 2 ^ (fexp (Zdigits2 m + e) - e))
    /\ exactly (inject_Z m1 * pow2 (fexp (Zdigits2 m + e)))
               (binary_round_aux prec emax false m e l).
Proof.
  intros Hm He.
  destruct (binary_round_aux_faithful prec emax prec_pos prec_lt_emax m e l Hm He)
    as (m1 & Hm1 & Hex & Hr).
  exists m1. split; [exact Hm1|]. split; [exact Hex|].
  set (E := fexp (Zdigits2 m + e)) in *.
  destruct (binary_round_aux prec emax false m e l) as [[]|[]| |[] m' e'];
    cbn [exactly SF2Q]; try contradiction.
  - subst m1. ring.
  - destruct Hr as (k & Hk & Hemax & Hpow).
    apply Qle_trans with (pow2 (k + E)); [now apply pow2_le|].
    rewrite pow2_add, (pow2_Z k Hk).
    apply Qmult_le_compat_r; [now rewrite <- Zle_Qle | apply Qlt_le_weak, pow2_pos].
  - destruct Hr as [[HE _] Hm'].
    rewrite <- Hm', scale_shift by lia.
    replace (e' - E + E) with e' by lia. reflexivity.
Qed.

(** Rounding a number [x] that lies between [m] and [m + 1] at the exponent
    [e] gives [x] up to the error of one rounding. *)
Lemma binary_round_aux_near (m e : Z) (l : location) (x : Q) :
  0 <= m -> e <= fexp (Zdigits2 m + e) ->
  (inject_Z m * pow2 e <= x <= inject_Z (m + 1) * pow2 e)%Q ->
  faithful x (binary_round_aux prec emax false m e l).
Proof.
  intros Hm He [Hlo Hhi].
  destruct (binary_round_aux_value m e l Hm He) as (m1 & Hm1 & _ & Hr).
  set (E := fexp (Zdigits2 m + e)) in *. set (m0 := m / 2 ^ (E - e)) in *.
  assert (H2 : 0 < 2 ^ (E - e)) by (apply Z.pow_pos_nonneg; lia).
  assert (Hx : (0 <= x)%Q).
  { eapply Qle_trans; [|exact Hlo].
    apply Qmult_le_0_compat; [now rewrite <- (Zle_Qle 0) | apply Qlt_le_weak, pow2_pos]. }
  assert (HloE : (inject_Z m0 * pow2 E <= x)%Q).
  { eapply Qle_trans; [|exact Hlo].
    replace E with ((E - e) + e) at 1 by lia. rewrite <- scale_shift by lia.
    apply scale_le. pose proof (Z.mul_div_le m (2 ^ (E - e)) H2). unfold m0. lia. }
  assert (HhiE : (x <= inject_Z (m0 + 1) * pow2 E)%Q).
  { eapply Qle_trans; [exact Hhi|].
    replace E with ((E - e) + e) at 1 by lia. rewrite <- scale_shift by lia.
    apply scale_le. pose proof (Z.mul_succ_div_gt m (2 ^ (E - e)) H2). unfold m0. lia. }
  assert (HE : (pow2 E <= err x)%Q).
  { unfold err. pose proof (pow2_pos (1 - prec)) as Hu. pose proof (pow2_pos emin) as Heta.
    destruct (Z.eq_dec E emin) as [->|Hne]; [nra|].
    assert (HEd : E = Zdigits2 m + e - prec) by (unfold E, SpecFloat.fexp in *; lia).
    destruct m as [|p|p]; [cbn [Zdigits2] in HEd; lia| |lia].
    cbn [Zdigits2] in HEd. pose proof (digits2_pos_bounds p) as [Hp _].
    assert (Hx' : (pow2 (Zpos (digits2_pos p) - 1 + e) <= x)%Q).
    { eapply Qle_trans; [|exact Hlo].
      pose proof (Pos2Z.is_pos (digits2_pos p)).
      rewrite pow2_add, pow2_Z by lia. now apply scale_le. }
    replace (Zpos (digits2_pos p) - 1 + e) with ((prec - 1) + E) in Hx' by lia.
    rewrite pow2_add in Hx'.
    assert (Hone : (pow2 (1 - prec) * pow2 (prec - 1) == 1)%Q).
    { rewrite <- pow2_add. replace (1 - prec + (prec - 1)) with 0 by lia. reflexivity. }
    pose proof (pow2_pos E). pose proof (pow2_pos (prec - 1)).
    assert ((pow2 (1 - prec) * (pow2 (prec - 1) * pow2 E) <= pow2 (1 - prec) * x)%Q).
    { apply Qmult_le_l; assumption. }
    nra. }
  assert (Hv : (inject_Z m0 * pow2 E <= inject_Z m1 * pow2 E <= inject_Z (m0 + 1) * pow2 E)%Q).
  { split; apply scale_le; lia. }
  rewrite inject_Z_plus in HhiE, Hv. change (inject_Z 1) with 1%Q in *.
  destruct (binary_round_aux prec emax false m e l) as [s|[]| |[] m' e'];
    cbn [exactly faithful] in *; try contradiction.
  - rewrite Hr. split; lra.
  - lra.
  - rewrite Hr. split; lra.
Qed.

(** When nothing is shifted out, rounding is exact. *)
Lemma binary_round_aux_exact (m e : Z) :
  0 <= m -> e <= fexp (Zdigits2 m + e) ->
  m mod 2 ^ (fexp (Zdigits2 m + e) - e) = 0 ->
  exactly (inject_Z m * pow2 e) (binary_round_aux prec emax false m e loc_Exact).
Proof.
  intros Hm He Hdiv.
  destruct (binary_round_aux_value m e loc_Exact Hm He) as (m1 & _ & Hex & Hr).
  specialize (Hex eq_refl Hdiv). subst m1.
  set (E := fexp (Zdigits2 m + e)) in *.
  assert (H2 : 0 < 2 ^ (E - e)) by (apply Z.pow_pos_nonneg; lia).
  assert (Hval : (inject_Z (m / 2 ^ (E - e)) * pow2 E == inject_Z m * pow2 e)%Q).
  { replace E with ((E - e) + e) at 2 by lia. rewrite <- scale_shift by lia.
    apply Z.div_exact in Hdiv; [|lia]. rewrite Z.mul_comm, <- Hdiv. reflexivity. }
  destruct (binary_round_aux prec emax false m e loc_Exact) as [s|[]| |[] m' e'];
    cbn [exactly] in *; try contradiction; now rewrite <- Hval.
Qed.

Lemma emin_nonpos : emin <= 0.
Proof. unfold SpecFloat.emin. lia. Qed.

Lemma digits2_pos_shift (m mz : positive) (k : Z) :
  0 <= k -> Zpos mz = Zpos m * 2 ^ k ->
  Zpos (digits2_pos mz) = Zpos (digits2_pos m) + k.
Proof.
  intros Hk Hmz. pose proof (digits2_pos_bounds m) as [Hlo Hhi].
  pose proof (Pos2Z.is_pos (digits2_pos m)).
  pose proof (Z.pow_pos_nonneg 2 k ltac:(lia) Hk) as H2.
  assert (Zpos (digits2_pos m) - 1 + k < Zpos (digits2_pos mz)).
  { apply digits2_pos_lower. rewrite Hmz, Z.pow_add_r by lia. nia. }
  assert (Zpos (digits2_pos mz) <= Zpos (digits2_pos m) + k).
  { apply digits2_pos_upper. rewrite Hmz, Z.pow_add_r by lia. nia. }
  lia.
Qed.

Lemma shl_align_ge (m : positive) (e e' : Z) : e <= e' -> shl_align m e e' = (m, e).
Proof.
  intros He. unfold shl_align. destruct (e' - e) eqn:Hd; try reflexivity. lia.
Qed.

Lemma shl_align_lt (m : positive) (e e' : Z) : e' < e -> snd (shl_align m e e') = e'.
Proof.
  intros He. unfold shl_align. destruct (e' - e) eqn:Hd; try lia. reflexivity.
Qed.

(** What [binary_round] hands to [binary_round_aux]: the same number, at
    an exponent that is not above the canonical one. *)
Lemma shl_align_fexp_spec (m : positive) (e : Z) :
  exists mz ez,
    shl_align m e (fexp (Zpos (digits2_pos m) + e)) = (mz, ez)
    /\ (inject_Z (Zpos mz) * pow2 ez == inject_Z (Zpos m) * pow2 e)%Q
    /\ ((mz = m /\ ez = e /\ e <= fexp (Zpos (digits2_pos m) + e))
        \/ ez = fexp (Zdigits2 (Zpos mz) + ez)).
Proof.
  set (F := fexp (Zpos (digits2_pos m) + e)).
  destruct (Z.le_gt_cases e F) as [Hle|Hgt].
  - exists m, e. rewrite shl_align_ge by exact Hle. split; [reflexivity|].
    split; [reflexivity|]. left. now repeat split.
  - pose proof (shl_align_m m e F ltac:(lia)) as Hm.
    pose proof (shl_align_lt m e F ltac:(lia)) as He.
    destruct (shl_align m e F) as [mz ez]. cbn [fst snd] in Hm, He. subst ez.
    exists mz, F. split; [reflexivity|]. split.
    + rewrite Hm, scale_shift by lia. replace (e - F + F) with e by lia. reflexivity.
    + right. cbn [Zdigits2]. rewrite (digits2_pos_shift m mz (e - F)) by (lia || exact Hm).
      unfold F. f_equal. lia.
Qed.

Lemma binary_round_near (m : positive) (e : Z) :
  faithful (inject_Z (Zpos m) * pow2 e) (binary_round prec emax false m e).
Proof.
  unfold binary_round.
  destruct (shl_align_fexp_spec m e) as (mz & ez & -> & Hval & Hcan).
  apply binary_round_aux_near; [lia | | ].
  - destruct Hcan as [(-> & -> & Hle)|Heq]; [exact Hle | lia].
  - rewrite <- Hval, inject_Z_plus. pose proof (pow2_pos ez). change (inject_Z 1) with 1%Q.
    split; nra.
Qed.

(** An integer below [2^prec] is a double. *)
Lemma binary_round_integer (m : positive) (e K : Z) :
  (inject_Z (Zpos m) * pow2 e == inject_Z K)%Q -> K < 2 ^ prec ->
  exactly (inject_Z K) (binary_round prec emax false m e).
Proof.
  intros HK Hprec. unfold binary_round.
  destruct (shl_align_fexp_spec m e) as (mz & ez & -> & Hval & Hcan).
  assert (Hgoal : exactly (inject_Z (Zpos mz) * pow2 ez)
                          (binary_round_aux prec emax false (Zpos mz) ez loc_Exact)).
  { destruct Hcan as [(-> & -> & Hle)|Heq].
    - apply binary_round_aux_exact; [lia | exact Hle |].
      cbn [Zdigits2]. set (E := fexp (Zpos (digits2_pos m) + e)) in *.
      destruct (Z.eq_dec E e) as [->|Hne]; [rewrite Z.sub_diag; apply Z.mod_1_r|].
      assert (Hdig : Zpos (digits2_pos m) - 1 + e < prec).
      { apply pow2_lt_inv. apply Qle_lt_trans with (inject_Z K).
        - rewrite <- HK. pose proof (digits2_pos_bounds m) as [Hp _].
          pose proof (Pos2Z.is_pos (digits2_pos m)).
          rewrite pow2_add, pow2_Z by lia. now apply scale_le.
        - rewrite pow2_Z by lia. now rewrite <- Zlt_Qlt. }
      pose proof emin_nonpos.
      assert (HE : E <= 0) by (unfold E, SpecFloat.fexp; lia).
      assert (Hm : Zpos m = K * 2 ^ (- e)).
      { apply (proj1 (inject_Z_injective _ _)).
        rewrite inject_Z_mult, <- pow2_Z, <- HK by lia.
        rewrite <- Qmult_assoc, <- pow2_add. replace (e + - e) with 0 by lia.
        change (pow2 0) with 1%Q. ring. }
      rewrite Hm. replace (- e) with (- E + (E - e)) by lia.
      rewrite Z.pow_add_r, Z.mul_assoc by lia. apply Z.mod_mul.
      apply Z.pow_nonzero; lia.
    - apply binary_round_aux_exact; [lia | lia |].
      rewrite <- Heq, Z.sub_diag. apply Z.mod_1_r. }
  apply (exactly_ext (inject_Z (Zpos mz) * pow2 ez)); [now rewrite Hval | exact Hgoal].
Qed.

(** Doubles that are not negative and not infinite. *)
Definition finite_nonneg (f : spec_float) : Prop :=
  match f with
  | S754_zero _ | S754_finite false _ _ => True
  | _ => False
  end.

Lemma SF2Q_nonneg (f : spec_float) : finite_nonneg f -> (0 <= SF2Q f)%Q.
Proof.
  destruct f as [s|s| |[] m e]; cbn; try tauto; try (intros _; apply Qle_refl).
  intros _. pose proof (pow2_pos e).
  assert (0 < inject_Z (Zpos m))%Q by (now rewrite <- (Zlt_Qlt 0)). nra.
Qed.

Lemma faithful_self (f : spec_float) (x : Q) :
  finite_nonneg f -> (SF2Q f == x)%Q -> faithful x f.
Proof.
  intros Hf Hx. apply exactly_faithful.
  - rewrite <- Hx. now apply SF2Q_nonneg.
  - destruct f as [s|s| |[] m e]; cbn in *; tauto.
Qed.

Lemma exactly_self (f : spec_float) (x : Q) :
  finite_nonneg f -> (SF2Q f == x)%Q -> exactly x f.
Proof.
  intros Hf Hx. destruct f as [s|s| |[] m e]; cbn in *; tauto.
Qed.

(** The sum of two positive doubles is the rounding of their exact sum. *)
Lemma SFadd_finite (ma : positive) (ea : Z) (mb : positive) (eb : Z) :
  exists m e,
    SFadd prec emax (S754_finite false ma ea) (S754_finite false mb eb)
    = binary_round prec emax false m e
    /\ (inject_Z (Zpos m) * pow2 e
        == inject_Z (Zpos ma) * pow2 ea + inject_Z (Zpos mb) * pow2 eb)%Q.
Proof.
  cbn [SFadd cond_Zopp]. set (ez := Z.min ea eb).
  pose proof (shl_align_m ma ea ez ltac:(lia)) as Ha.
  pose proof (shl_align_m mb eb ez ltac:(lia)) as Hb.
  set (a := fst (shl_align ma ea ez)) in *. set (b := fst (shl_align mb eb ez)) in *.
  change (Zpos a + Zpos b) with (Zpos (a + b)). cbn [binary_normalize].
  exists (a + b)%positive, ez. split; [reflexivity|].
  rewrite Pos2Z.inj_add, inject_Z_plus, Ha, Hb.
  rewrite Qmult_plus_distr_l, !scale_shift by lia.
  replace (ea - ez + ez) with ea by lia. replace (eb - ez + ez) with eb by lia. reflexivity.
Qed.

Lemma SFadd_near (a b : spec_float) :
  finite_nonneg a -> finite_nonneg b ->
  faithful (SF2Q a + SF2Q b) (SFadd prec emax a b).
Proof.
  intros Ha Hb.
  destruct a as [sa|sa| |[] ma ea]; try contradiction;
    destruct b as [sb|sb| |[] mb eb]; try contradiction.
  - apply faithful_self; [now destruct sa, sb|]. destruct sa, sb; cbn; ring.
  - apply faithful_self; [exact I|]. cbn. ring.
  - apply faithful_self; [exact I|]. cbn. ring.
  - destruct (SFadd_finite ma ea mb eb) as (m & e & -> & Hval).
    cbn [SF2Q]. apply (faithful_ext _ _ _ Hval), binary_round_near.
Qed.

Lemma SFadd_integer (a b : spec_float) (K : Z) :
  finite_nonneg a -> finite_nonneg b ->
  (SF2Q a + SF2Q b == inject_Z K)%Q -> K < 2 ^ prec ->
  exactly (inject_Z K) (SFadd prec emax a b).
Proof.
  intros Ha Hb HK Hprec.
  destruct a as [sa|sa| |[] ma ea]; try contradiction;
    destruct b as [sb|sb| |[] mb eb]; try contradiction.
  - apply exactly_self; [now destruct sa, sb|]. rewrite <- HK. destruct sa, sb; cbn; ring.
  - apply exactly_self; [exact I|]. rewrite <- HK. cbn. ring.
  - apply exactly_self; [exact I|]. rewrite <- HK. cbn. ring.
  - destruct (SFadd_finite ma ea mb eb) as (m & e & -> & Hval).
    cbn [SF2Q] in HK. rewrite <- Hval in HK. now apply binary_round_integer.
Qed.

Lemma faithful_zero (x : Q) (s : bool) : (x == 0)%Q -> faithful x (S754_zero s).
Proof.
  intros Hx. apply faithful_self; [exact I|]. now rewrite Hx.
Qed.

(** The product of two doubles is the rounding of their exact product. *)
Lemma SFmul_near (a b : spec_float) :
  finite_nonneg a -> finite_nonneg b ->
  SpecFloat.valid_binary prec emax a = true -> SpecFloat.valid_binary prec emax b = true ->
  faithful (SF2Q a * SF2Q b) (SFmul prec emax a b).
Proof.
  intros Ha Hb Va Vb.
  destruct a as [sa|sa| |[] ma ea]; try contradiction;
    destruct b as [sb|sb| |[] mb eb]; try contradiction;
    cbn [SFmul xorb]; try (apply faithful_zero; cbn; ring).
  cbn [SpecFloat.valid_binary] in Va, Vb. unfold bounded, canonical_mantissa in Va, Vb.
  apply andb_prop in Va, Vb. destruct Va as [Va _], Vb as [Vb _].
  apply Z.eqb_eq in Va, Vb.
  apply (faithful_ext (inject_Z (Zpos (ma * mb)) * pow2 (ea + eb))).
  { cbn [SF2Q]. rewrite Pos2Z.inj_mul, inject_Z_mult, pow2_add. ring. }
  apply binary_round_aux_near; [lia | | ].
  - cbn [Zdigits2].
    assert (Hdig : Zpos (digits2_pos ma) - 1 + (Zpos (digits2_pos mb) - 1)
                   < Zpos (digits2_pos (ma * mb))).
    { apply digits2_pos_lower.
      pose proof (digits2_pos_bounds ma) as [Hma _].
      pose proof (digits2_pos_bounds mb) as [Hmb _].
      pose proof (Pos2Z.is_pos (digits2_pos ma)). pose proof (Pos2Z.is_pos (digits2_pos mb)).
      rewrite Z.pow_add_r, Pos2Z.inj_mul by lia.
      apply Z.mul_le_mono_nonneg; try assumption; apply Z.pow_nonneg; lia. }
    pose proof (Pos2Z.is_pos (digits2_pos ma)). pose proof (Pos2Z.is_pos (digits2_pos mb)).
    pose proof emin_nonpos.
    unfold SpecFloat.fexp in *. lia.
  - rewrite inject_Z_plus. change (inject_Z 1) with 1%Q. pose proof (pow2_pos (ea + eb)).
    split; nra.
Qed.

(** The quotient of two doubles is the rounding of their exact quotient. *)
Lemma SFdiv_near (a : spec_float) (mb : positive) (eb : Z) (x : Q) :
  finite_nonneg a ->
  (x * (inject_Z (Zpos mb) * pow2 eb) == SF2Q a)%Q ->
  faithful x (SFdiv prec emax a (S754_finite false mb eb)).
Proof.
  intros Ha Hx.
  assert (HB : (0 < inject_Z (Zpos mb) * pow2 eb)%Q).
  { pose proof (pow2_pos eb). assert (0 < inject_Z (Zpos mb))%Q by (now rewrite <- (Zlt_Qlt 0)).
    nra. }
  destruct a as [sa|sa| |[] ma ea]; try contradiction; cbn [SFdiv xorb].
  { apply faithful_zero. cbn [SF2Q] in Hx.
    apply Qmult_integral in Hx. destruct Hx as [Hx|Hx]; [exact Hx|]. rewrite Hx in HB.
    now apply Qlt_irrefl in HB. }
  cbn [SF2Q] in Hx. unfold SFdiv_core_binary. cbn [Zdigits2].
  set (d1 := Zpos (digits2_pos ma)). set (d2 := Zpos (digits2_pos mb)).
  set (e' := Z.min (fexp (d1 + ea - (d2 + eb))) (ea - eb)).
  set (s := ea - eb - e').
  assert (Hs : 0 <= s) by (unfold s, e'; lia).
  set (m' := match s with Zpos _ => Z.shiftl (Zpos ma) s | Z0 => Zpos ma | Zneg _ => 0 end).
  assert (Hm' : m' = Zpos ma * 2 ^ s).
  { unfold m'. destruct s as [|p|p] eqn:Es; [cbn; lia | apply Z.shiftl_mul_pow2; lia | lia]. }
  clearbody m'.
  pose proof (Z_div_mod m' (Zpos mb) ltac:(lia)) as Hdiv.
  destruct (Z.div_eucl m' (Zpos mb)) as [q r]. destruct Hdiv as [Hqr Hr].
  pose proof (Z.pow_pos_nonneg 2 s ltac:(lia) Hs) as H2s.
  assert (Hq : 0 <= q) by nia.
  pose proof (digits2_pos_bounds ma) as [Hma _]. fold d1 in Hma.
  pose proof (digits2_pos_bounds mb) as [_ Hmb]. fold d2 in Hmb.
  assert (Hd1 : 0 < d1) by (unfold d1; lia). assert (Hd2 : 0 < d2) by (unfold d2; lia).
  apply binary_round_aux_near; [exact Hq | | ].
  - destruct (Z.lt_ge_cases (d1 - d2 - 1 + s) 0) as [Hsmall|Hbig].
    + assert (e' <= emin) by (unfold e', s, SpecFloat.fexp in *; lia).
      unfold SpecFloat.fexp. lia.
    + assert (Hqlow : 2 ^ (d1 - d2 - 1 + s) <= q).
      { assert (Hlow : Zpos mb * 2 ^ (d1 - d2 - 1 + s) <= m').
        { apply Z.le_trans with (2 ^ d2 * 2 ^ (d1 - d2 - 1 + s)).
          - apply Z.mul_le_mono_nonneg_r; [apply Z.pow_nonneg; lia | lia].
          - rewrite <- Z.pow_add_r by lia. replace (d2 + (d1 - d2 - 1 + s)) with (d1 - 1 + s) by lia.
            rewrite Hm', Z.pow_add_r by lia. nia. }
        pose proof (Z.pow_pos_nonneg 2 (d1 - d2 - 1 + s) ltac:(lia) Hbig).
        destruct (Z.lt_ge_cases q (2 ^ (d1 - d2 - 1 + s))); [nia | lia]. }
      pose proof (Z.pow_pos_nonneg 2 (d1 - d2 - 1 + s) ltac:(lia) Hbig).
      destruct q as [|pq|pq]; try lia. cbn [Zdigits2].
      pose proof (digits2_pos_lower pq _ Hqlow).
      unfold e', s, SpecFloat.fexp in *. lia.
  - assert (Hscale : (inject_Z m' * pow2 (e' + eb) == inject_Z (Zpos ma) * pow2 ea)%Q).
    { rewrite Hm', scale_shift by lia. replace (s + (e' + eb)) with ea by (unfold s; lia).
      reflexivity. }
    assert (Hlo : (inject_Z (q * Zpos mb) * pow2 (e' + eb) <= inject_Z m' * pow2 (e' + eb))%Q).
    { apply scale_le. lia. }
    assert (Hhi : (inject_Z m' * pow2 (e' + eb) <= inject_Z ((q + 1) * Zpos mb) * pow2 (e' + eb))%Q).
    { apply scale_le. lia. }
    rewrite Hscale, <- Hx, inject_Z_mult, pow2_add in Hlo, Hhi.
    split.
    + apply (Qmult_le_r _ _ _ HB). lra.
    + apply (Qmult_le_r _ _ _ HB). lra.
Qed.

(** An unsigned integer below [2^prec] converts exactly. *)
Lemma binary_normalize_integer (K : Z) :
  0 <= K < 2 ^ prec ->
  finite_nonneg (binary_normalize prec emax K 0 false)
  /\ (SF2Q (binary_normalize prec emax K 0 false) == inject_Z K)%Q.
Proof.
  intros [HK Hprec]. destruct K as [|p|p]; [split; [exact I|reflexivity] | | lia].
  cbn [binary_normalize].
  assert (Hval : (inject_Z (Zpos p) * pow2 0 == inject_Z (Zpos p))%Q).
  { change (pow2 0) with 1%Q. ring. }
  pose proof (binary_round_integer p 0 (Zpos p) Hval Hprec) as Hr.
  destruct (binary_round prec emax false p 0) as [s|[]| |[] m e]; cbn [exactly] in Hr;
    try contradiction; try (split; [exact I|exact Hr]).
  exfalso. apply (Qlt_irrefl (pow2 emax)).
  eapply Qle_lt_trans; [exact Hr|]. apply Qlt_le_trans with (pow2 prec).
  - rewrite pow2_Z by lia. now rewrite <- Zlt_Qlt.
  - apply pow2_le. lia.
Qed.

End Near.

(** *** Rounding and the doubles around a number *)

Section Monotone.

Variables prec emax : Z.
Hypothesis prec_pos : 0 < prec.
Hypothesis prec_lt_emax : prec < emax.

Abbreviation fexp := (SpecFloat.fexp prec emax).
Abbreviation emin := (SpecFloat.emin prec emax).

Lemma scale_le_inv (a b e : Z) : (inject_Z a * pow2 e <= inject_Z b * pow2 e)%Q -> a <= b.
Proof.
  intros Hab. apply Qmult_le_r in Hab; [|apply pow2_pos]. now rewrite Zle_Qle.
Qed.

Lemma scale_lt (a b e : Z) : a < b -> (inject_Z a * pow2 e < inject_Z b * pow2 e)%Q.
Proof.
  intros Hab. apply Qmult_lt_compat_r; [apply pow2_pos | now rewrite <- Zlt_Qlt].
Qed.

(** A double in canonical form: its exponent is the one its magnitude
    calls for, and it is in range. *)
Definition canonical (m : positive) (e : Z) : Prop :=
  e = fexp (Zpos (digits2_pos m) + e) /\ e <= emax - prec.

Lemma bounded_canonical (m : positive) (e : Z) :
  bounded prec emax m e = true -> canonical m e.
Proof.
  unfold bounded, canonical_mantissa, canonical. intros Hb.
  apply andb_prop in Hb. destruct Hb as [Hc He].
  apply Z.eqb_eq in Hc. apply Z.leb_le in He. split; [now symmetry | exact He].
Qed.

Lemma canonical_lt_emax (m : positive) (e : Z) :
  canonical m e -> (inject_Z (Zpos m) * pow2 e < pow2 emax)%Q.
Proof.
  intros [Hc He]. pose proof (digits2_pos_bounds m) as [_ Hm].
  pose proof (Pos2Z.is_pos (digits2_pos m)).
  apply Qlt_le_trans with (pow2 (Zpos (digits2_pos m) + e)).
  - rewrite pow2_add, (pow2_Z (Zpos (digits2_pos m))) by lia. now apply scale_lt.
  - apply pow2_le. unfold SpecFloat.fexp in Hc. lia.
Qed.

(** Rounding does not cross a double: a number that a double bounds from
    above rounds to a double that this double still bounds. *)
Lemma binary_round_aux_le (m e : Z) (l : location) (x : Q) (my : positive) (ey : Z) :
  0 <= m -> e <= fexp (Zdigits2 m + e) ->
  (inject_Z m * pow2 e <= x)%Q ->
  ((x == inject_Z m * pow2 e)%Q -> l = loc_Exact) ->
  canonical my ey ->
  (x <= inject_Z (Zpos my) * pow2 ey)%Q ->
  finite_nonneg (binary_round_aux prec emax false m e l)
  /\ (SF2Q (binary_round_aux prec emax false m e l) <= inject_Z (Zpos my) * pow2 ey)%Q.
Proof.
  intros Hm He Hlo Hl Hcan Hxy.
  destruct (binary_round_aux_value prec emax prec_pos prec_lt_emax m e l Hm He)
    as (m1 & Hm1 & Hex & Hr).
  set (E := fexp (Zdigits2 m + e)) in *. set (m0 := m / 2 ^ (E - e)) in *.
  assert (H2 : 0 < 2 ^ (E - e)) by (apply Z.pow_pos_nonneg; lia).
  assert (HmE : (inject_Z (m0 * 2 ^ (E - e)) * pow2 e == inject_Z m0 * pow2 E)%Q).
  { rewrite scale_shift by lia. replace (E - e + e) with E by lia. reflexivity. }
  assert (HloE : (inject_Z m0 * pow2 E <= inject_Z m * pow2 e)%Q).
  { rewrite <- HmE. apply scale_le.
    pose proof (Z.mul_div_le m (2 ^ (E - e)) H2). unfold m0. lia. }
  pose proof (digits2_pos_bounds my) as [_ Hmy].
  pose proof (Pos2Z.is_pos (digits2_pos my)) as Hdy.
  destruct Hcan as [Hc Hrange].
  assert (HEy : E <= ey).
  { destruct m as [|p|p]; [| |lia].
    - unfold E, SpecFloat.fexp in *. cbn [Zdigits2] in *. lia.
    - cbn [Zdigits2] in *. pose proof (digits2_pos_bounds p) as [Hp _].
      pose proof (Pos2Z.is_pos (digits2_pos p)).
      assert (Hlt : Zpos (digits2_pos p) - 1 + e < Zpos (digits2_pos my) + ey).
      { apply pow2_lt_inv.
        apply Qle_lt_trans with (inject_Z (Zpos my) * pow2 ey)%Q.
        - apply Qle_trans with (inject_Z (Zpos p) * pow2 e)%Q; [|lra].
          rewrite pow2_add, (pow2_Z (Zpos (digits2_pos p) - 1)) by lia. now apply scale_le.
        - rewrite pow2_add, (pow2_Z (Zpos (digits2_pos my))) by lia. now apply scale_lt. }
      unfold E, SpecFloat.fexp in *. lia. }
  set (K := Zpos my * 2 ^ (ey - E)).
  assert (HK : (inject_Z K * pow2 E == inject_Z (Zpos my) * pow2 ey)%Q).
  { unfold K. rewrite scale_shift by lia. replace (ey - E + E) with ey by lia. reflexivity. }
  assert (Hm0K : m0 <= K) by (apply (scale_le_inv _ _ E); lra).
  assert (Hm1K : m1 <= K).
  { destruct (Z.eq_dec m1 m0) as [->|Hne]; [exact Hm0K|].
    destruct (Z.eq_dec K m0) as [HKm|HKm]; [|lia]. exfalso. apply Hne.
    assert (Hxm : (x == inject_Z m * pow2 e)%Q).
    { rewrite HKm in HK. apply Qle_antisym; [|exact Hlo]. lra. }
    apply Hex; [now apply Hl|].
    assert (Hmm : m = m0 * 2 ^ (E - e)).
    { apply Z.le_antisymm.
      - apply (scale_le_inv _ _ e). rewrite HmE. rewrite HKm in HK. lra.
      - pose proof (Z.mul_div_le m (2 ^ (E - e)) H2). unfold m0. lia. }
    rewrite Hmm. apply Z.mod_mul. lia. }
  assert (Hv : (inject_Z m1 * pow2 E <= inject_Z (Zpos my) * pow2 ey)%Q).
  { rewrite <- HK. now apply scale_le. }
  pose proof (canonical_lt_emax my ey (conj Hc Hrange)) as Hfin.
  destruct (binary_round_aux prec emax false m e l) as [s|[]| |[] m' e'];
    cbn [exactly finite_nonneg] in *; try contradiction.
  - split; [exact I|]. now rewrite Hr.
  - lra.
  - split; [exact I|]. now rewrite Hr.
Qed.


(** Rounding does not cross a double from above either: a number that a
    double bounds from below rounds to that double at least, or overflows. *)
Lemma binary_round_aux_ge (m e : Z) (l : location) (x : Q) (my : positive) (ey : Z) :
  0 <= m -> e <= fexp (Zdigits2 m + e) ->
  (x < inject_Z (m + 1) * pow2 e)%Q ->
  canonical my ey ->
  (inject_Z (Zpos my) * pow2 ey <= x)%Q ->
  match binary_round_aux prec emax false m e l with
  | S754_zero _ | S754_finite false _ _ =>
      (inject_Z (Zpos my) * pow2 ey <= SF2Q (binary_round_aux prec emax false m e l))%Q
  | S754_infinity false => True
  | _ => False
  end.
Proof.
  intros Hm He Hhi Hcan Hyx.
  destruct (binary_round_aux_value prec emax prec_pos prec_lt_emax m e l Hm He)
    as (m1 & Hm1 & _ & Hr).
  set (E := fexp (Zdigits2 m + e)) in *. set (m0 := m / 2 ^ (E - e)) in *.
  assert (H2 : 0 < 2 ^ (E - e)) by (apply Z.pow_pos_nonneg; lia).
  assert (HhiE : (inject_Z (m + 1) * pow2 e <= inject_Z (m0 + 1) * pow2 E)%Q).
  { replace E with ((E - e) + e) at 1 by lia. rewrite <- scale_shift by lia.
    apply scale_le. pose proof (Z.mul_succ_div_gt m (2 ^ (E - e)) H2). unfold m0. lia. }
  pose proof (digits2_pos_bounds my) as [_ Hmy].
  pose proof (Pos2Z.is_pos (digits2_pos my)) as Hdy.
  destruct Hcan as [Hc Hrange].
  assert (Hv : (inject_Z (Zpos my) * pow2 ey <= inject_Z m1 * pow2 E)%Q).
  { destruct (Z.le_gt_cases E ey) as [HEy|HEy].
    - set (K := Zpos my * 2 ^ (ey - E)).
      assert (HK : (inject_Z K * pow2 E == inject_Z (Zpos my) * pow2 ey)%Q).
      { unfold K. rewrite scale_shift by lia. replace (ey - E + E) with ey by lia. reflexivity. }
      rewrite <- HK. apply scale_le.
      assert (K < m0 + 1); [|lia].
      rewrite Zlt_Qlt. apply (Qmult_lt_r _ _ (pow2 E) (pow2_pos E)). lra.
    - destruct m as [|p|p]; [| |lia].
      + unfold E, SpecFloat.fexp in *. cbn [Zdigits2] in *. lia.
      + cbn [Zdigits2] in *. pose proof (digits2_pos_bounds p) as [Hp _].
        pose proof (Pos2Z.is_pos (digits2_pos p)) as Hd.
        assert (HE : E = Zpos (digits2_pos p) + e - prec)
          by (unfold E, SpecFloat.fexp in *; lia).
        assert (Hdd : Zpos (digits2_pos my) + ey <= Zpos (digits2_pos p) + e - 1)
          by (unfold SpecFloat.fexp in *; lia).
        assert (Hm0 : 2 ^ (prec - 1) <= m0).
        { apply Z.div_le_lower_bound; [exact H2|]. rewrite <- Z.pow_add_r by lia.
          replace (E - e + (prec - 1)) with (Zpos (digits2_pos p) - 1) by lia. exact Hp. }
        apply Qle_trans with (pow2 (Zpos (digits2_pos my) + ey)).
        { rewrite pow2_add, (pow2_Z (Zpos (digits2_pos my))) by lia. apply scale_le. lia. }
        apply Qle_trans with (pow2 (prec - 1 + E)); [apply pow2_le; lia|].
        rewrite pow2_add, (pow2_Z (prec - 1)) by lia. apply scale_le. lia. }
  destruct (binary_round_aux prec emax false m e l) as [s|[]| |[] m' e'];
    cbn [exactly] in *; try contradiction; try exact I; now rewrite Hr.
Qed.

(** The product of two doubles stays at or below a double that bounds the
    exact product, and at or above one that the exact product bounds. *)
Lemma SFmul_le (a b y : spec_float) :
  finite_nonneg a -> finite_nonneg b -> finite_nonneg y ->
  SpecFloat.valid_binary prec emax a = true -> SpecFloat.valid_binary prec emax b = true ->
  SpecFloat.valid_binary prec emax y = true ->
  (SF2Q a * SF2Q b <= SF2Q y)%Q ->
  finite_nonneg (SFmul prec emax a b) /\ (SF2Q (SFmul prec emax a b) <= SF2Q y)%Q.
Proof.
  intros Ha Hb Hy Va Vb Vy Hle. pose proof (SF2Q_nonneg y Hy) as Hy0.
  destruct a as [sa|sa| |[] ma ea]; try contradiction;
    destruct b as [sb|sb| |[] mb eb]; try contradiction;
    cbn [SFmul xorb]; try (split; [exact I | exact Hy0]).
  assert (Hprod : (inject_Z (Zpos (ma * mb)) * pow2 (ea + eb)
                   == SF2Q (S754_finite false ma ea) * SF2Q (S754_finite false mb eb))%Q).
  { cbn [SF2Q]. rewrite Pos2Z.inj_mul, inject_Z_mult, pow2_add. ring. }
  assert (Hpos : (0 < inject_Z (Zpos (ma * mb)) * pow2 (ea + eb))%Q).
  { pose proof (pow2_pos (ea + eb)).
    assert (0 < inject_Z (Zpos (ma * mb)))%Q by (now rewrite <- (Zlt_Qlt 0)). nra. }
  destruct y as [sy|sy| |[] my ey]; try contradiction; cbn [SF2Q] in Hle, Hy0 |- *;
    [cbn [SF2Q] in Hprod; lra|].
  cbn [SpecFloat.valid_binary] in Va, Vb, Vy. unfold bounded, canonical_mantissa in Va, Vb.
  apply andb_prop in Va, Vb. destruct Va as [Va _], Vb as [Vb _].
  apply Z.eqb_eq in Va, Vb.
  apply binary_round_aux_le with (x := (inject_Z (Zpos (ma * mb)) * pow2 (ea + eb))%Q);
    [lia | | apply Qle_refl | reflexivity | now apply bounded_canonical
     | cbn [SF2Q] in Hprod; lra].
  cbn [Zdigits2].
  assert (Hdig : Zpos (digits2_pos ma) - 1 + (Zpos (digits2_pos mb) - 1)
                 < Zpos (digits2_pos (ma * mb))).
  { apply digits2_pos_lower.
    pose proof (digits2_pos_bounds ma) as [Hma _].
    pose proof (digits2_pos_bounds mb) as [Hmb _].
    pose proof (Pos2Z.is_pos (digits2_pos ma)). pose proof (Pos2Z.is_pos (digits2_pos mb)).
    rewrite Z.pow_add_r, Pos2Z.inj_mul by lia.
    apply Z.mul_le_mono_nonneg; try assumption; apply Z.pow_nonneg; lia. }
  pose proof (Pos2Z.is_pos (digits2_pos ma)). pose proof (Pos2Z.is_pos (digits2_pos mb)).
  pose proof (emin_nonpos prec emax prec_pos prec_lt_emax).
  unfold SpecFloat.fexp in *. lia.
Qed.


Lemma SFmul_ge (a b y : spec_float) :
  finite_nonneg a -> finite_nonneg b -> finite_nonneg y ->
  SpecFloat.valid_binary prec emax a = true -> SpecFloat.valid_binary prec emax b = true ->
  SpecFloat.valid_binary prec emax y = true ->
  (SF2Q y <= SF2Q a * SF2Q b)%Q ->
  match SFmul prec emax a b with
  | S754_zero _ | S754_finite false _ _ => (SF2Q y <= SF2Q (SFmul prec emax a b))%Q
  | S754_infinity false => True
  | _ => False
  end.
Proof.
  intros Ha Hb Hy Va Vb Vy Hle.
  destruct a as [sa|sa| |[] ma ea]; try contradiction;
    destruct b as [sb|sb| |[] mb eb]; try contradiction;
    cbn [SFmul xorb]; try (cbn [SF2Q] in *; lra).
  assert (Hprod : (inject_Z (Zpos (ma * mb)) * pow2 (ea + eb)
                   == SF2Q (S754_finite false ma ea) * SF2Q (S754_finite false mb eb))%Q).
  { cbn [SF2Q]. rewrite Pos2Z.inj_mul, inject_Z_mult, pow2_add. ring. }
  assert (He : ea + eb <= fexp (Zdigits2 (Zpos (ma * mb)) + (ea + eb))).
  { cbn [SpecFloat.valid_binary] in Va, Vb. unfold bounded, canonical_mantissa in Va, Vb.
    apply andb_prop in Va, Vb. destruct Va as [Va _], Vb as [Vb _].
    apply Z.eqb_eq in Va, Vb. cbn [Zdigits2].
    assert (Hdig : Zpos (digits2_pos ma) - 1 + (Zpos (digits2_pos mb) - 1)
                   < Zpos (digits2_pos (ma * mb))).
    { apply digits2_pos_lower.
      pose proof (digits2_pos_bounds ma) as [Hma _].
      pose proof (digits2_pos_bounds mb) as [Hmb _].
      pose proof (Pos2Z.is_pos (digits2_pos ma)). pose proof (Pos2Z.is_pos (digits2_pos mb)).
      rewrite Z.pow_add_r, Pos2Z.inj_mul by lia.
      apply Z.mul_le_mono_nonneg; try assumption; apply Z.pow_nonneg; lia. }
    pose proof (Pos2Z.is_pos (digits2_pos ma)). pose proof (Pos2Z.is_pos (digits2_pos mb)).
    pose proof (emin_nonpos prec emax prec_pos prec_lt_emax).
    unfold SpecFloat.fexp in *. lia. }
  destruct y as [sy|sy| |[] my ey]; try contradiction.
  - pose proof (binary_round_aux_value prec emax prec_pos prec_lt_emax
                  (Zpos (ma * mb)) (ea + eb) loc_Exact ltac:(lia) He) as (m1 & Hm1 & _ & Hr).
    assert (H0 : 0 <= Zpos (ma * mb) / 2 ^ (fexp (Zdigits2 (Zpos (ma * mb)) + (ea + eb)) - (ea + eb))).
    { apply Z.div_pos; [lia | apply Z.pow_pos_nonneg; lia]. }
    assert (Hv : (0 <= inject_Z m1 * pow2 (fexp (Zdigits2 (Zpos (ma * mb)) + (ea + eb))))%Q).
    { apply Qmult_le_0_compat; [rewrite <- (Zle_Qle 0); lia | apply Qlt_le_weak, pow2_pos]. }
    destruct (binary_round_aux prec emax false _ _ _) as [s|[]| |[] m' e'];
      cbn [exactly SF2Q] in *; try contradiction; try exact I; try rewrite Hr; try exact Hv.
    apply Qle_refl.
  - cbn [SpecFloat.valid_binary] in Vy.
    apply binary_round_aux_ge with (x := (inject_Z (Zpos (ma * mb)) * pow2 (ea + eb))%Q);
      [lia | exact He | apply scale_lt; lia | now apply bounded_canonical
       | cbn [SF2Q] in Hprod, Hle; lra].
Qed.

(** What [SFdiv] hands to [binary_round_aux]: the integer part of the
    quotient at an exponent that is not above the canonical one, marked
    exact when the division leaves no remainder. *)
Lemma SFdiv_round (ma : positive) (ea : Z) (mb : positive) (eb : Z) (x : Q) :
  (x * (inject_Z (Zpos mb) * pow2 eb) == inject_Z (Zpos ma) * pow2 ea)%Q ->
  exists (q e' : Z) (l : location),
    SFdiv prec emax (S754_finite false ma ea) (S754_finite false mb eb)
    = binary_round_aux prec emax false q e' l
    /\ 0 <= q /\ e' <= fexp (Zdigits2 q + e')
    /\ (inject_Z q * pow2 e' <= x < inject_Z (q + 1) * pow2 e')%Q
    /\ ((x == inject_Z q * pow2 e')%Q -> l = loc_Exact).
Proof.
  intros Hx.
  assert (HB : (0 < inject_Z (Zpos mb) * pow2 eb)%Q).
  { pose proof (pow2_pos eb). assert (0 < inject_Z (Zpos mb))%Q by (now rewrite <- (Zlt_Qlt 0)).
    nra. }
  cbn [SFdiv xorb]. unfold SFdiv_core_binary. cbn [Zdigits2].
  set (d1 := Zpos (digits2_pos ma)). set (d2 := Zpos (digits2_pos mb)).
  set (e' := Z.min (fexp (d1 + ea - (d2 + eb))) (ea - eb)).
  set (s := ea - eb - e').
  assert (Hs : 0 <= s) by (unfold s, e'; lia).
  set (m' := match s with Zpos _ => Z.shiftl (Zpos ma) s | Z0 => Zpos ma | Zneg _ => 0 end).
  assert (Hm' : m' = Zpos ma * 2 ^ s).
  { unfold m'. destruct s as [|p|p] eqn:Es; [cbn; lia | apply Z.shiftl_mul_pow2; lia | lia]. }
  clearbody m'.
  pose proof (Z_div_mod m' (Zpos mb) ltac:(lia)) as Hdiv.
  destruct (Z.div_eucl m' (Zpos mb)) as [q r]. destruct Hdiv as [Hqr Hr].
  pose proof (Z.pow_pos_nonneg 2 s ltac:(lia) Hs) as H2s.
  assert (Hq : 0 <= q) by nia.
  pose proof (digits2_pos_bounds ma) as [Hma _]. fold d1 in Hma.
  pose proof (digits2_pos_bounds mb) as [_ Hmb]. fold d2 in Hmb.
  assert (Hd1 : 0 < d1) by (unfold d1; lia). assert (Hd2 : 0 < d2) by (unfold d2; lia).
  exists q, e', (new_location (Zpos mb) r).
  split; [reflexivity|]. split; [exact Hq|].
  assert (Hscale : (inject_Z m' * pow2 (e' + eb) == inject_Z (Zpos ma) * pow2 ea)%Q).
  { rewrite Hm', scale_shift by lia. replace (s + (e' + eb)) with ea by (unfold s; lia).
    reflexivity. }
  split; [|split].
  - destruct (Z.lt_ge_cases (d1 - d2 - 1 + s) 0) as [Hsmall|Hbig].
    + assert (e' <= emin) by (unfold e', s, SpecFloat.fexp in *; lia).
      unfold SpecFloat.fexp. lia.
    + assert (Hqlow : 2 ^ (d1 - d2 - 1 + s) <= q).
      { assert (Hlow : Zpos mb * 2 ^ (d1 - d2 - 1 + s) <= m').
        { apply Z.le_trans with (2 ^ d2 * 2 ^ (d1 - d2 - 1 + s)).
          - apply Z.mul_le_mono_nonneg_r; [apply Z.pow_nonneg; lia | lia].
          - rewrite <- Z.pow_add_r by lia. replace (d2 + (d1 - d2 - 1 + s)) with (d1 - 1 + s) by lia.
            rewrite Hm', Z.pow_add_r by lia. nia. }
        pose proof (Z.pow_pos_nonneg 2 (d1 - d2 - 1 + s) ltac:(lia) Hbig).
        destruct (Z.lt_ge_cases q (2 ^ (d1 - d2 - 1 + s))); [nia | lia]. }
      pose proof (Z.pow_pos_nonneg 2 (d1 - d2 - 1 + s) ltac:(lia) Hbig).
      destruct q as [|pq|pq]; try lia. cbn [Zdigits2].
      pose proof (digits2_pos_lower pq _ Hqlow).
      unfold e', s, SpecFloat.fexp in *. lia.
  - assert (Hlo : (inject_Z (q * Zpos mb) * pow2 (e' + eb) <= inject_Z m' * pow2 (e' + eb))%Q).
    { apply scale_le. lia. }
    assert (Hhi : (inject_Z m' * pow2 (e' + eb) < inject_Z ((q + 1) * Zpos mb) * pow2 (e' + eb))%Q).
    { apply scale_lt. lia. }
    rewrite Hscale, <- Hx, inject_Z_mult, pow2_add in Hlo, Hhi.
    split.
    + apply (Qmult_le_r _ _ _ HB). lra.
    + apply (Qmult_lt_r _ _ _ HB). lra.
  - intros Hxq.
    assert (Hr0 : r = 0).
    { assert (Heq : q * Zpos mb = m'); [|lia].
      apply (proj1 (inject_Z_injective _ _)).
      apply (Qmult_inj_r _ _ (pow2 (e' + eb))).
      { pose proof (pow2_pos (e' + eb)). intros Hz. rewrite Hz in H. now apply Qlt_irrefl in H. }
      rewrite Hscale, <- Hx, Hxq, inject_Z_mult, pow2_add. ring. }
    rewrite Hr0. unfold new_location, new_location_even, new_location_odd.
    now destruct (Z.even (Zpos mb)).
Qed.

(** The quotient of two doubles, likewise. *)
Lemma SFdiv_le (a : spec_float) (mb : positive) (eb : Z) (x : Q) (y : spec_float) :
  finite_nonneg a -> finite_nonneg y -> SpecFloat.valid_binary prec emax y = true ->
  (x * (inject_Z (Zpos mb) * pow2 eb) == SF2Q a)%Q ->
  (x <= SF2Q y)%Q ->
  finite_nonneg (SFdiv prec emax a (S754_finite false mb eb))
  /\ (SF2Q (SFdiv prec emax a (S754_finite false mb eb)) <= SF2Q y)%Q.
Proof.
  intros Ha Hy Vy Hx Hle. pose proof (SF2Q_nonneg y Hy) as Hy0.
  assert (HB : (0 < inject_Z (Zpos mb) * pow2 eb)%Q).
  { pose proof (pow2_pos eb). assert (0 < inject_Z (Zpos mb))%Q by (now rewrite <- (Zlt_Qlt 0)).
    nra. }
  destruct a as [sa|sa| |[] ma ea]; try contradiction;
    [cbn [SFdiv xorb]; split; [exact I | exact Hy0]|].
  cbn [SF2Q] in Hx.
  destruct (SFdiv_round ma ea mb eb x Hx) as (q & e' & l & -> & Hq & He & [Hlo Hhi] & Hl).
  assert (Hxpos : (0 < x)%Q).
  { assert (HA : (0 < inject_Z (Zpos ma) * pow2 ea)%Q).
    { pose proof (pow2_pos ea). assert (0 < inject_Z (Zpos ma))%Q by (now rewrite <- (Zlt_Qlt 0)).
      nra. }
    rewrite <- Hx in HA. destruct (Qlt_le_dec 0 x) as [Hp|Hn]; [exact Hp|]. exfalso. nra. }
  destruct y as [sy|sy| |[] my ey]; try contradiction; cbn [SF2Q] in Hle, Hy0 |- *; [lra|].
  cbn [SpecFloat.valid_binary] in Vy.
  apply binary_round_aux_le with (x := x); try assumption. now apply bounded_canonical.
Qed.

Lemma SFdiv_ge (a : spec_float) (mb : positive) (eb : Z) (x : Q) (y : spec_float) :
  finite_nonneg a -> finite_nonneg y -> SpecFloat.valid_binary prec emax y = true ->
  (x * (inject_Z (Zpos mb) * pow2 eb) == SF2Q a)%Q ->
  (SF2Q y <= x)%Q ->
  match SFdiv prec emax a (S754_finite false mb eb) with
  | S754_zero _ | S754_finite false _ _ =>
      (SF2Q y <= SF2Q (SFdiv prec emax a (S754_finite false mb eb)))%Q
  | S754_infinity false => True
  | _ => False
  end.
Proof.
  intros Ha Hy Vy Hx Hle. pose proof (SF2Q_nonneg y Hy) as Hy0.
  assert (HB : (0 < inject_Z (Zpos mb) * pow2 eb)%Q).
  { pose proof (pow2_pos eb). assert (0 < inject_Z (Zpos mb))%Q by (now rewrite <- (Zlt_Qlt 0)).
    nra. }
  destruct a as [sa|sa| |[] ma ea]; try contradiction.
  { cbn [SFdiv xorb SF2Q] in *.
    apply Qmult_integral in Hx. destruct Hx as [Hx|Hx]; [lra|]. rewrite Hx in HB.
    now apply Qlt_irrefl in HB. }
  cbn [SF2Q] in Hx.
  destruct (SFdiv_round ma ea mb eb x Hx) as (q & e' & l & -> & Hq & He & [Hlo Hhi] & Hl).
  destruct y as [sy|sy| |[] my ey]; try contradiction.
  - pose proof (binary_round_aux_value prec emax prec_pos prec_lt_emax q e' l Hq He)
      as (m1 & Hm1 & _ & Hr).
    assert (H0 : 0 <= q / 2 ^ (fexp (Zdigits2 q + e') - e')).
    { apply Z.div_pos; [lia | apply Z.pow_pos_nonneg; lia]. }
    assert (Hv : (0 <= inject_Z m1 * pow2 (fexp (Zdigits2 q + e')))%Q).
    { apply Qmult_le_0_compat; [rewrite <- (Zle_Qle 0); lia | apply Qlt_le_weak, pow2_pos]. }
    destruct (binary_round_aux prec emax false _ _ _) as [s|[]| |[] m' e''];
      cbn [exactly SF2Q] in *; try contradiction; try exact I; try rewrite Hr; try exact Hv.
    apply Qle_refl.
  - cbn [SpecFloat.valid_binary] in Vy. cbn [SF2Q] in Hle.
    apply binary_round_aux_ge with (x := x); try assumption. now apply bounded_canonical.
Qed.

End Monotone.

(** *** Doubles that are not negative *)

Local Open Scope float_scope.

(** Zero of either sign, a positive number, or plus infinity. *)
Definition nonneg (f : spec_float) : bool :=
  match f with
  | S754_zero _ | S754_finite false _ _ | S754_infinity false => true
  | _ => false
  end.

Lemma leb_0_nonneg (x : float) : (0 <=? x) = nonneg (Prim2SF x).
Proof.
  rewrite FloatAxioms.leb_spec. change (Prim2SF 0) with (S754_zero false).
  now destruct (Prim2SF x) as [[]|[]| |[] m e].
Qed.

(** Adding a double that is not negative to another gives a double that is
    not negative and not below the first. *)
Lemma add_nonneg_ge (c s : float) :
  (0 <=? c) = true -> (0 <=? s) = true ->
  (0 <=? c + s) = true /\ (c <=? c + s) = true.
Proof.
  intros Hc Hs. rewrite leb_0_nonneg in *.
  rewrite FloatAxioms.leb_spec, add_spec. unfold SF64add.
  pose proof (Prim2SF_valid c) as Vc. pose proof (Prim2SF_valid s) as Vs.
  destruct (Prim2SF c) as [sc|[]| |[] mc ec]; try discriminate;
    destruct (Prim2SF s) as [ss|[]| |[] ms es]; try discriminate;
    try (destruct sc); try (destruct ss); try (split; reflexivity).
  - cbn [SFadd]. split; [reflexivity|]. unfold SFleb. cbn.
    now rewrite Z.compare_refl, Pos.compare_cont_refl.
  - cbn [SFadd]. split; [reflexivity|]. unfold SFleb. cbn.
    now rewrite Z.compare_refl, Pos.compare_cont_refl.
  - cbn [SpecFloat.valid_binary] in Vc, Vs.
    pose proof (SFadd_pos_ge prec emax ltac:(reflexivity) mc ec ms es Vc Vs) as Hr.
    destruct (SFadd prec emax _ _) as [[]|[]| |[] m' e']; try contradiction.
    + split; reflexivity.
    + split; [reflexivity|]. unfold SFleb. cbn.
      destruct Hr as [Hlt|[-> Hle]].
      * now rewrite (proj2 (Z.compare_lt_iff ec e') Hlt).
      * rewrite Z.compare_refl. change (Pos.compare_cont Eq mc m') with (mc ?= m')%positive.
        destruct (mc ?= m')%positive eqn:E; try reflexivity.
        apply Pos.compare_gt_iff in E. lia.
Qed.

(** Among doubles that are not negative, [<=] is transitive. *)
Lemma leb_trans_nonneg (x y z : float) :
  (0 <=? x) = true -> (x <=? y) = true -> (y <=? z) = true -> (x <=? z) = true.
Proof.
  rewrite leb_0_nonneg, !FloatAxioms.leb_spec. unfold SFleb.
  destruct (Prim2SF x) as [[]|[]| |[] mx ex]; try discriminate; intros _;
    destruct (Prim2SF y) as [[]|[]| |[] my ey]; try discriminate;
    destruct (Prim2SF z) as [[]|[]| |[] mz ez]; try discriminate; try reflexivity.
  cbn.
  destruct (Z.compare_spec ex ey), (Z.compare_spec ey ez), (Z.compare_spec ex ez);
    try discriminate; try reflexivity; try lia; subst.
  change (Pos.compare_cont Eq ?a ?b) with (a ?= b)%positive.
  destruct (Pos.compare_spec mx my), (Pos.compare_spec my mz), (Pos.compare_spec mx mz);
    try discriminate; try reflexivity; lia.
Qed.

(** *** The order of doubles *)

Lemma SFcompare_refl (f : spec_float) :
  SFcompare f f = match f with S754_nan => None | _ => Some Eq end.
Proof.
  destruct f as [s|s| |s m e]; cbn; try reflexivity.
  - now destruct s.
  - rewrite Z.compare_refl, Pos.compare_cont_refl. now destruct s.
Qed.

Lemma compare_cont_flip (m m' : positive) :
  Pos.compare_cont Eq m' m = CompOpp (Pos.compare_cont Eq m m').
Proof. now rewrite Pos.compare_cont_antisym. Qed.

Lemma SFcompare_antisym (f g : spec_float) :
  SFcompare g f = CompOpp <$> SFcompare f g.
Proof.
  destruct f as [s|s| |s m e], g as [s'|s'| |s' m' e']; cbn;
    try reflexivity; try (now destruct s); try (now destruct s'); try (now destruct s, s').
  destruct s, s'; try reflexivity; cbn;
    rewrite (Z.compare_antisym e e'), (compare_cont_flip m m');
    now destruct (e ?= e')%Z, (Pos.compare_cont Eq m m').
Qed.

Lemma is_nan_spec (x : float) :
  is_nan x = match Prim2SF x with S754_nan => true | _ => false end.
Proof.
  unfold is_nan. rewrite FloatAxioms.eqb_spec. unfold SFeqb. rewrite SFcompare_refl.
  now destruct (Prim2SF x).
Qed.

Lemma ltb_leb (x y : float) : (x <? y) = true -> (x <=? y) = true.
Proof.
  rewrite FloatAxioms.ltb_spec, FloatAxioms.leb_spec. unfold SFltb, SFleb.
  now destruct (SFcompare (Prim2SF x) (Prim2SF y)) as [[]|].
Qed.

Lemma leb_not_nan (x y : float) : (x <=? y) = true -> is_nan x = false /\ is_nan y = false.
Proof.
  rewrite FloatAxioms.leb_spec, !is_nan_spec. unfold SFleb.
  destruct (Prim2SF x), (Prim2SF y); cbn; try discriminate; now split.
Qed.

Lemma leb_refl (x : float) : is_nan x = false -> (x <=? x) = true.
Proof.
  rewrite FloatAxioms.leb_spec, is_nan_spec. unfold SFleb. rewrite SFcompare_refl.
  now destruct (Prim2SF x).
Qed.

Lemma not_ltb_leb (x y : float) :
  is_nan x = false -> is_nan y = false -> (x <? y) = false -> (y <=? x) = true.
Proof.
  rewrite FloatAxioms.ltb_spec, FloatAxioms.leb_spec, !is_nan_spec. unfold SFltb, SFleb.
  rewrite (SFcompare_antisym (Prim2SF x) (Prim2SF y)).
  destruct (Prim2SF x), (Prim2SF y); try discriminate; intros _ _;
    destruct (SFcompare _ _) as [[]|] eqn:E; cbn; try reflexivity; try discriminate;
    cbn in E; try discriminate; repeat match goal with b : bool |- _ => destruct b end;
    discriminate.
Qed.

Lemma eqb_refl (x : float) : is_nan x = false -> (x =? x) = true.
Proof. unfold is_nan. now destruct (x =? x). Qed.

Lemma ltb_asym (x y : float) : (x <? y) = true -> (y <? x) = false.
Proof.
  rewrite !FloatAxioms.ltb_spec. unfold SFltb.
  rewrite (SFcompare_antisym (Prim2SF x) (Prim2SF y)).
  now destruct (SFcompare (Prim2SF x) (Prim2SF y)) as [[]|].
Qed.

Local Close Scope float_scope.

(** *** Doubles as rationals *)

(** One unit in the last place of a double relative to its value, which
    bounds the relative error of one rounding; the spacing of the subnormal
    doubles, which bounds its absolute error near zero; and the bound of
    the finite doubles. *)
Definition eps : Q := pow2 (-52).
Definition tiny : Q := pow2 (-1074).
Definition huge : Q := pow2 1024.

(** The bounds of the rounding of [x >= 0]. *)
Definition above (x : Q) : Q := ((1 + eps) * x + tiny)%Q.
Definition below (x : Q) : Q := ((1 - eps) * x - tiny)%Q.

(** A finite double that is not negative, and the rational it stands for. *)
Definition number (x : float) : Prop := finite_nonneg (Prim2SF x).
Definition value (x : float) : Q := SF2Q (Prim2SF x).

Lemma value_nonneg (x : float) : number x -> (0 <= value x)%Q.
Proof. apply SF2Q_nonneg. Qed.

(** A rounding of [x] that stays in range is a finite double between the
    bounds. *)
Lemma faithful_number (x : Q) (r : float) :
  faithful prec emax x (Prim2SF r) -> (above x < huge)%Q ->
  number r /\ (below x <= value r <= above x)%Q.
Proof.
  unfold number, value, faithful, err, above, below, huge.
  change (pow2 (1 - prec)) with eps. change (pow2 (SpecFloat.emin prec emax)) with tiny.
  change (pow2 emax) with (pow2 1024).
  destruct (Prim2SF r) as [s|[]| |[] m e]; try contradiction; intros Hr Hx;
    try (split; [exact I|split; lra]).
  lra.
Qed.

Lemma exactly_number (x : Q) (r : float) :
  exactly emax x (Prim2SF r) -> (x < huge)%Q -> number r /\ (value r == x)%Q.
Proof.
  unfold number, value, exactly, huge. change (pow2 emax) with (pow2 1024).
  destruct (Prim2SF r) as [s|[]| |[] m e]; try contradiction; intros Hr Hx;
    try (split; [exact I|exact Hr]).
  lra.
Qed.

(** The operations on doubles that are not negative: the exact result,
    rounded once; exact when it is an integer below [2^53]. *)
Lemma add_near (c s : float) :
  number c -> number s -> (above (value c + value s) < huge)%Q ->
  number (c + s)
  /\ (below (value c + value s) <= value (c + s) <= above (value c + value s))%Q.
Proof.
  intros Hc Hs. apply faithful_number. rewrite add_spec.
  now apply SFadd_near.
Qed.

(** A sum that has not overflowed is the exact sum, rounded once. *)
Lemma add_number_near (c s : float) :
  number c -> number s -> number (c + s) ->
  (below (value c + value s) <= value (c + s) <= above (value c + value s))%Q.
Proof.
  intros Hc Hs Hn.
  assert (H : faithful prec emax (value c + value s) (Prim2SF (c + s))).
  { rewrite add_spec. now apply SFadd_near. }
  revert Hn H. unfold number, value, faithful, err, above, below.
  change (pow2 (1 - prec)) with eps. change (pow2 (SpecFloat.emin prec emax)) with tiny.
  destruct (Prim2SF (c + s)) as [sg|[]| |[] m e]; try contradiction; intros _ Hr; lra.
Qed.

Lemma add_exact (a b : float) (K : Z) :
  number a -> number b -> (value a + value b == inject_Z K)%Q -> K < 2 ^ 53 ->
  number (a + b) /\ (value (a + b) == inject_Z K)%Q.
Proof.
  intros Ha Hb HK Hprec. apply exactly_number.
  - rewrite add_spec. now apply SFadd_integer.
  - apply Qlt_le_trans with (inject_Z (2 ^ 53)); [now rewrite <- Zlt_Qlt | discriminate].
Qed.

Lemma mul_near (q d : float) :
  number q -> number d -> (above (value q * value d) < huge)%Q ->
  number (q * d)
  /\ (below (value q * value d) <= value (q * d) <= above (value q * value d))%Q.
Proof.
  intros Hq Hd. apply faithful_number. rewrite mul_spec.
  apply SFmul_near; try assumption; try reflexivity; apply Prim2SF_valid.
Qed.

Lemma div_near (l t : float) (x : Q) :
  number l -> number t -> (0 < value t)%Q -> (x * value t == value l)%Q ->
  (above x < huge)%Q ->
  number (l / t) /\ (below x <= value (l / t) <= above x)%Q.
Proof.
  intros Hl Ht Hpos Hx. apply faithful_number. rewrite div_spec.
  unfold number, value in *.
  destruct (Prim2SF t) as [s|s| |[] mt et]; try contradiction;
    try (now apply Qlt_irrefl in Hpos).
  apply SFdiv_near; try assumption; reflexivity.
Qed.

Lemma of_uint63_exact (n : Z) :
  0 <= n < 2 ^ 53 ->
  number (of_uint63 (Uint63.of_Z n)) /\ (value (of_uint63 (Uint63.of_Z n)) == inject_Z n)%Q.
Proof.
  intros Hn. unfold number, value. rewrite of_uint63_spec, Uint63.of_Z_spec.
  rewrite Z.mod_small by (change Uint63.wB with (2 ^ 63); lia).
  apply binary_normalize_integer; [reflexivity | reflexivity | exact Hn].
Qed.

Lemma eps_value : (eps == 1 # 4503599627370496)%Q.
Proof. reflexivity. Qed.

Lemma tiny_pos : (0 < tiny)%Q.
Proof. apply pow2_pos. Qed.

Lemma tiny_le_1 : (tiny <= 1)%Q.
Proof. change 1%Q with (pow2 0). now apply pow2_le. Qed.

Lemma huge_value : (huge == 2 * pow2 1023)%Q.
Proof. change huge with (pow2 (1 + 1023)). now rewrite pow2_add. Qed.

Lemma pow2_1023_ge_2 : (2 <= pow2 1023)%Q.
Proof. change 2%Q with (pow2 1). now apply pow2_le. Qed.

Lemma above_mono (x y : Q) : (x <= y)%Q -> (above x <= above y)%Q.
Proof. unfold above. rewrite eps_value. intros Hxy. lra. Qed.

Lemma below_mono (x y : Q) : (x <= y)%Q -> (below x <= below y)%Q.
Proof. unfold below. rewrite eps_value. intros Hxy. lra. Qed.

Lemma above_ge (x : Q) : (0 <= x)%Q -> (x <= above x)%Q.
Proof. unfold above. rewrite eps_value. pose proof tiny_pos. intros Hx. lra. Qed.

Lemma above_1 : (above 1 < huge)%Q.
Proof.
  unfold above. rewrite eps_value. pose proof tiny_le_1. pose proof huge_value.
  pose proof pow2_1023_ge_2. lra.
Qed.

(** The compound error of [k] roundings up, and of [k] roundings down. *)
Fixpoint growth (k : nat) : Q :=
  match k with
  | O => 1
  | S k => ((1 + eps) * growth k)%Q
  end.

Fixpoint decay (k : nat) : Q :=
  match k with
  | O => 1
  | S k => ((1 - eps) * decay k)%Q
  end.

Lemma growth_ge_1 (k : nat) : (1 <= growth k)%Q.
Proof.
  induction k as [|k IH]; cbn [growth]; [apply Qle_refl|]. rewrite eps_value. lra.
Qed.

Lemma growth_le (k : nat) :
  (2 * inject_Z (Z.of_nat k) * eps <= 1)%Q ->
  (growth k <= 1 + 2 * inject_Z (Z.of_nat k) * eps)%Q.
Proof.
  induction k as [|k IH]; cbn [growth].
  - intros _. rewrite eps_value. change (inject_Z (Z.of_nat 0)) with 0%Q. lra.
  - rewrite Nat2Z.inj_succ. unfold Z.succ. rewrite inject_Z_plus.
    change (inject_Z 1) with 1%Q. rewrite eps_value in *.
    assert (0 <= inject_Z (Z.of_nat k))%Q by (rewrite <- (Zle_Qle 0); lia).
    intros Hk. specialize (IH ltac:(lra)). lra.
Qed.

Lemma decay_bounds (k : nat) : (0 <= decay k <= 1)%Q.
Proof.
  induction k as [|k IH]; cbn [decay]; [split; [discriminate|apply Qle_refl]|].
  rewrite eps_value. split; lra.
Qed.

Lemma decay_ge (k : nat) : (1 - inject_Z (Z.of_nat k) * eps <= decay k)%Q.
Proof.
  induction k as [|k IH]; cbn [decay].
  - rewrite eps_value. change (inject_Z (Z.of_nat 0)) with 0%Q. lra.
  - rewrite Nat2Z.inj_succ. unfold Z.succ. rewrite inject_Z_plus.
    change (inject_Z 1) with 1%Q. rewrite eps_value in *.
    assert (0 <= inject_Z (Z.of_nat k))%Q by (rewrite <- (Zle_Qle 0); lia).
    pose proof (decay_bounds k). lra.
Qed.

Lemma tiny_small : (tiny <= 1 # 1267650600228229401496703205376)%Q.
Proof. change (tiny <= pow2 (-100))%Q. now apply pow2_le. Qed.

Lemma pow2_1040 : (pow2 (-1040) == 17179869184 * tiny)%Q.
Proof. change (pow2 (-1040)) with (pow2 (34 + -1074)). now rewrite pow2_add. Qed.

(** The order of the doubles is the order of their values. *)
Lemma SFleb_value (x y : spec_float) :
  finite_nonneg x -> finite_nonneg y ->
  SpecFloat.valid_binary prec emax x = true -> SpecFloat.valid_binary prec emax y = true ->
  SFleb x y = true -> (SF2Q x <= SF2Q y)%Q.
Proof.
  intros Hx Hy Vx Vy.
  destruct x as [sx|sx| |[] mx ex]; try contradiction;
    destruct y as [sy|sy| |[] my ey]; try contradiction; cbn [SF2Q];
    try (intros _; apply Qle_refl); try discriminate.
  - intros _. apply (SF2Q_nonneg (S754_finite false my ey) I).
  - cbn [SpecFloat.valid_binary] in Vx, Vy. unfold bounded, canonical_mantissa in Vx, Vy.
    apply andb_prop in Vx, Vy. destruct Vx as [Vx _], Vy as [Vy _].
    apply Z.eqb_eq in Vx, Vy.
    unfold SFleb. cbn [SFcompare].
    destruct (Z.compare_spec ex ey) as [->|Hlt|Hgt]; try discriminate.
    + change (Pos.compare_cont Eq mx my) with (mx ?= my)%positive.
      destruct (Pos.compare_spec mx my) as [->|Hm|Hm]; try discriminate; intros _.
      * apply Qle_refl.
      * apply scale_le. lia.
    + intros _.
      pose proof (digits2_pos_bounds mx) as [_ Hmx]. pose proof (digits2_pos_bounds my) as [Hmy _].
      pose proof (Pos2Z.is_pos (digits2_pos mx)). pose proof (Pos2Z.is_pos (digits2_pos my)).
      assert (Hdx : Zpos (digits2_pos mx) <= prec) by (unfold SpecFloat.fexp in Vx; lia).
      assert (Hdy : Zpos (digits2_pos my) = prec)
        by (unfold SpecFloat.fexp, SpecFloat.emin in *; lia).
      apply Qle_trans with (pow2 (Zpos (digits2_pos mx) + ex)).
      { rewrite pow2_add, (pow2_Z (Zpos (digits2_pos mx))) by lia. apply scale_le. lia. }
      apply Qle_trans with (pow2 (Zpos (digits2_pos my) - 1 + ey)).
      { apply pow2_le. lia. }
      rewrite pow2_add, (pow2_Z (Zpos (digits2_pos my) - 1)) by lia. now apply scale_le.
Qed.

Lemma leb_value (x y : float) :
  number x -> number y -> (x <=? y)%float = true -> (value x <= value y)%Q.
Proof.
  intros Hx Hy. rewrite FloatAxioms.leb_spec.
  apply SFleb_value; try assumption; apply Prim2SF_valid.
Qed.

Lemma number_leb (x : float) : number x -> (0 <=? x)%float = true.
Proof.
  rewrite leb_0_nonneg. unfold number. now destruct (Prim2SF x) as [s|s| |[] m e].
Qed.

Lemma number_finite (x : float) : number x -> (x <? infinity)%float = true.
Proof.
  rewrite FloatAxioms.ltb_spec. unfold number.
  now destruct (Prim2SF x) as [s|s| |[] m e].
Qed.

(** A double between [0] and a finite number is finite. *)
Lemma leb_number (x y : float) :
  (0 <=? x)%float = true -> (x <=? y)%float = true -> number y -> number x.
Proof.
  rewrite leb_0_nonneg, FloatAxioms.leb_spec. unfold number.
  destruct (Prim2SF x) as [sx|[]| |[] mx ex]; try discriminate; try (intros; exact I).
  destruct (Prim2SF y) as [sy|[]| |[] my ey]; try contradiction; discriminate.
Qed.

(** A double from 0 to [2^1023] is finite, with a value up to [2^1023]. *)
Lemma leb_number_1023 (x : float) :
  (0 <=? x)%float = true -> (x <=? 0x1p+1023)%float = true ->
  number x /\ (value x <= pow2 1023)%Q.
Proof.
  intros H0 Hmax.
  assert (Hbound : number 0x1p+1023%float) by exact I.
  pose proof (leb_number _ _ H0 Hmax Hbound) as Hx. split; [exact Hx|].
  apply Qle_trans with (value 0x1p+1023%float); [now apply leb_value|].
  apply Qle_lteq. right. vm_compute. reflexivity.
Qed.

(** *** The order of doubles and the order of their values *)

Lemma SFltb_value (x y : spec_float) :
  finite_nonneg x -> finite_nonneg y ->
  SpecFloat.valid_binary prec emax x = true -> SpecFloat.valid_binary prec emax y = true ->
  SFltb x y = true -> (SF2Q x < SF2Q y)%Q.
Proof.
  intros Hx Hy Vx Vy.
  assert (Hpos : forall m e, (0 < inject_Z (Zpos m) * pow2 e)%Q).
  { intros m e. pose proof (pow2_pos e).
    assert (0 < inject_Z (Zpos m))%Q by (now rewrite <- (Zlt_Qlt 0)). nra. }
  destruct x as [sx|sx| |[] mx ex]; try contradiction;
    destruct y as [sy|sy| |[] my ey]; try contradiction; cbn [SF2Q];
    try discriminate; try (intros _; apply Hpos).
  cbn [SpecFloat.valid_binary] in Vx, Vy.
  apply (bounded_canonical prec emax) in Vx, Vy. destruct Vx as [Vx _], Vy as [Vy _].
  unfold SFltb. cbn [SFcompare].
  destruct (Z.compare_spec ex ey) as [->|Hlt|Hgt]; try discriminate.
  - change (Pos.compare_cont Eq mx my) with (mx ?= my)%positive.
    destruct (Pos.compare_spec mx my) as [->|Hm|Hm]; try discriminate; intros _.
    apply scale_lt. lia.
  - intros _.
    pose proof (digits2_pos_bounds mx) as [_ Hmx]. pose proof (digits2_pos_bounds my) as [Hmy _].
    pose proof (Pos2Z.is_pos (digits2_pos mx)). pose proof (Pos2Z.is_pos (digits2_pos my)).
    assert (Hdx : Zpos (digits2_pos mx) <= prec) by (unfold SpecFloat.fexp in Vx; lia).
    assert (Hdy : Zpos (digits2_pos my) = prec)
      by (unfold SpecFloat.fexp, SpecFloat.emin in *; lia).
    apply Qlt_le_trans with (pow2 (Zpos (digits2_pos mx) + ex)).
    { rewrite pow2_add, (pow2_Z (Zpos (digits2_pos mx))) by lia. apply scale_lt. lia. }
    apply Qle_trans with (pow2 (Zpos (digits2_pos my) - 1 + ey)).
    { apply pow2_le. lia. }
    rewrite pow2_add, (pow2_Z (Zpos (digits2_pos my) - 1)) by lia. now apply scale_le.
Qed.

Lemma ltb_value (x y : float) :
  number x -> number y -> (x <? y)%float = true -> (value x < value y)%Q.
Proof.
  intros Hx Hy. rewrite FloatAxioms.ltb_spec.
  apply SFltb_value; try assumption; apply Prim2SF_valid.
Qed.

Lemma number_not_nan (x : float) : number x -> is_nan x = false.
Proof.
  rewrite is_nan_spec. unfold number. now destruct (Prim2SF x).
Qed.

Lemma not_leb_ltb (x y : float) :
  is_nan x = false -> is_nan y = false -> (x <=? y)%float = false -> (y <? x)%float = true.
Proof.
  intros Hx Hy Hle. destruct (y <? x)%float eqn:Hlt; [reflexivity|].
  rewrite (not_ltb_leb y x Hy Hx Hlt) in Hle. discriminate.
Qed.

Lemma ltb_not_leb (x y : float) : (x <? y)%float = true -> (y <=? x)%float = false.
Proof.
  rewrite FloatAxioms.ltb_spec, FloatAxioms.leb_spec. unfold SFltb, SFleb.
  rewrite (SFcompare_antisym (Prim2SF x) (Prim2SF y)).
  now destruct (SFcompare (Prim2SF x) (Prim2SF y)) as [[]|].
Qed.

Lemma leb_antisym (x y : float) :
  (x <=? y)%float = true -> (y <=? x)%float = true -> (x =? y)%float = true.
Proof.
  rewrite !FloatAxioms.leb_spec, FloatAxioms.eqb_spec. unfold SFleb, SFeqb.
  rewrite (SFcompare_antisym (Prim2SF x) (Prim2SF y)).
  now destruct (SFcompare (Prim2SF x) (Prim2SF y)) as [[]|].
Qed.

Lemma ltb_not_eqb (x y : float) : (x <? y)%float = true -> (y =? x)%float = false.
Proof.
  rewrite FloatAxioms.ltb_spec, FloatAxioms.eqb_spec. unfold SFltb, SFeqb.
  rewrite (SFcompare_antisym (Prim2SF x) (Prim2SF y)).
  now destruct (SFcompare (Prim2SF x) (Prim2SF y)) as [[]|].
Qed.

(** Among finite doubles that are not negative, the order of the values is
    the order of the doubles. *)
Lemma value_leb (x y : float) :
  number x -> number y -> (value x <= value y)%Q -> (x <=? y)%float = true.
Proof.
  intros Hx Hy Hle. destruct (x <=? y)%float eqn:E; [reflexivity|]. exfalso.
  apply not_leb_ltb in E; try now apply number_not_nan.
  apply (ltb_value y x Hy Hx) in E. lra.
Qed.

Lemma value_ltb (x y : float) :
  number x -> number y -> (value x < value y)%Q -> (x <? y)%float = true.
Proof.
  intros Hx Hy Hlt. destruct (x <? y)%float eqn:E; [reflexivity|]. exfalso.
  apply not_ltb_leb in E; try now apply number_not_nan.
  apply (leb_value y x Hy Hx) in E. lra.
Qed.

Lemma value_eqb (x y : float) :
  number x -> number y -> (value x == value y)%Q -> (x =? y)%float = true.
Proof.
  intros Hx Hy Heq. apply leb_antisym; apply value_leb; try assumption; lra.
Qed.

(** *** Operations that do not cross a double *)

Lemma mul_le (q d y : float) :
  number q -> number d -> number y -> (value q * value d <= value y)%Q ->
  number (q * d)%float /\ (value (q * d)%float <= value y)%Q.
Proof.
  intros Hq Hd Hy Hle. unfold number, value. rewrite mul_spec.
  apply SFmul_le; try assumption; try reflexivity; apply Prim2SF_valid.
Qed.

Lemma mul_exact (q d y : float) :
  number q -> number d -> number y -> (value q * value d == value y)%Q ->
  number (q * d)%float /\ (value (q * d)%float == value y)%Q.
Proof.
  intros Hq Hd Hy Heq.
  destruct (mul_le q d y Hq Hd Hy) as [Hn Hle]; [lra|]. split; [exact Hn|].
  apply Qle_antisym; [exact Hle|].
  pose proof (SFmul_ge prec emax ltac:(reflexivity) ltac:(reflexivity)
                (Prim2SF q) (Prim2SF d) (Prim2SF y) Hq Hd Hy
                (Prim2SF_valid q) (Prim2SF_valid d) (Prim2SF_valid y)) as Hge.
  unfold number, value in *. rewrite mul_spec in *. unfold SF64mul in *.
  destruct (SFmul prec emax (Prim2SF q) (Prim2SF d)) as [s|[]| |[] m e];
    try contradiction; apply Hge; lra.
Qed.

Lemma div_le (l t y : float) :
  number l -> number t -> number y -> (0 < value t)%Q ->
  (value l <= value y * value t)%Q ->
  number (l / t)%float /\ (value (l / t)%float <= value y)%Q.
Proof.
  intros Hl Ht Hy Hpos Hle. unfold number, value in *. rewrite div_spec.
  destruct (Prim2SF t) as [s|s| |[] mt et]; try contradiction;
    try (now apply Qlt_irrefl in Hpos).
  apply SFdiv_le with (x := (SF2Q (Prim2SF l) / SF2Q (S754_finite false mt et))%Q);
    try assumption; try reflexivity; try apply Prim2SF_valid.
  - cbn [SF2Q] in *. set (B := (inject_Z (Zpos mt) * pow2 et)%Q) in *. field. lra.
  - apply Qle_shift_div_r; assumption.
Qed.

Lemma div_exact (l t y : float) :
  number l -> number t -> number y -> (0 < value t)%Q ->
  (value l == value y * value t)%Q ->
  number (l / t)%float /\ (value (l / t)%float == value y)%Q.
Proof.
  intros Hl Ht Hy Hpos Heq.
  destruct (div_le l t y Hl Ht Hy Hpos) as [Hn Hle]; [lra|]. split; [exact Hn|].
  apply Qle_antisym; [exact Hle|].
  unfold number, value in *. rewrite div_spec in *. unfold SF64div in *.
  destruct (Prim2SF t) as [s|s| |[] mt et]; try contradiction;
    try (now apply Qlt_irrefl in Hpos).
  pose proof (SFdiv_ge prec emax ltac:(reflexivity) ltac:(reflexivity)
                (Prim2SF l) mt et (SF2Q (Prim2SF y)) (Prim2SF y) Hl Hy (Prim2SF_valid y)) as Hge.
  cbn [SF2Q] in *.
  destruct (SFdiv prec emax (Prim2SF l) (S754_finite false mt et)) as [s|[]| |[] m e];
    try contradiction; apply Hge; try lra; try apply Qle_refl.
Qed.

(** *** Zero *)

(** A finite double that is not negative and stands for 0 is a zero. *)
Lemma number_zero (x : float) :
  number x -> (value x == 0)%Q -> exists s, Prim2SF x = S754_zero s.
Proof.
  unfold number, value. destruct (Prim2SF x) as [s|s| |[] m e]; try contradiction.
  - intros _ _. now exists s.
  - intros _ Hv. cbn [SF2Q] in Hv. pose proof (pow2_pos e).
    assert (0 < inject_Z (Zpos m))%Q by (now rewrite <- (Zlt_Qlt 0)). nra.
Qed.

(** Adding a zero of either sign to a double that is not negative gives a
    double equal to it. *)
Lemma add_zero_r (c s : float) (sgn : bool) :
  (0 <=? c)%float = true -> Prim2SF s = S754_zero sgn -> (c + s =? c)%float = true.
Proof.
  rewrite leb_0_nonneg, FloatAxioms.eqb_spec, add_spec. intros Hc ->. unfold SFeqb.
  destruct (Prim2SF c) as [sc|[]| |[] mc ec]; try discriminate.
  - now destruct sc, sgn.
  - reflexivity.
  - cbn [SFadd]. now rewrite SFcompare_refl.
Qed.

(** [0 / t * d] is a zero when [t] is positive and [d] is finite. *)
Lemma zero_share (t d : float) :
  number t -> (0 < value t)%Q -> number d ->
  exists sgn, Prim2SF (0 / t * d)%float = S754_zero sgn.
Proof.
  unfold number, value. rewrite mul_spec, div_spec. change (Prim2SF 0) with (S754_zero false).
  destruct (Prim2SF t) as [s|s| |[] mt et]; try contradiction;
    try (intros _ Hpos; now apply Qlt_irrefl in Hpos).
  intros _ _. cbn [SFdiv xorb].
  destruct (Prim2SF d) as [sd|sd| |[] md ed]; try contradiction; intros _; cbn [SFmul];
    eexists; reflexivity.
Qed.

(** A double with a positive value is not equal to zero. *)
Lemma positive_not_zero (x : float) :
  number x -> (0 < value x)%Q -> (x =? 0)%float = false.
Proof.
  intros Hx Hpos. apply ltb_not_eqb, value_ltb; [exact I | exact Hx | exact Hpos].
Qed.

(** *** More on the order of doubles *)

Local Open Scope float_scope.

Lemma eqb_leb (x y : float) : (x =? y) = true -> (x <=? y) = true.
Proof.
  rewrite FloatAxioms.eqb_spec, FloatAxioms.leb_spec. unfold SFeqb, SFleb.
  now destruct (SFcompare (Prim2SF x) (Prim2SF y)) as [[]|].
Qed.

Lemma leb_not_ltb (x y : float) : (y <=? x) = true -> (x <? y) = false.
Proof.
  intros Hle. destruct (x <? y) eqn:Hlt; [|reflexivity].
  apply ltb_not_leb in Hlt. congruence.
Qed.

(** What is at most 0 is below what is above 0. *)
Lemma leb_0_ltb (v w : float) : (v <=? 0) = true -> (0 <? w) = true -> (v <? w) = true.
Proof.
  rewrite FloatAxioms.leb_spec, !FloatAxioms.ltb_spec. change (Prim2SF 0) with (S754_zero false).
  destruct (Prim2SF v) as [[]|[]| |[] mv ev], (Prim2SF w) as [[]|[]| |[] mw ew];
    try discriminate; reflexivity.
Qed.

Lemma zero_eqb (x : float) (sgn : bool) : Prim2SF x = S754_zero sgn -> (x =? 0) = true.
Proof.
  rewrite FloatAxioms.eqb_spec. intros ->. now destruct sgn.
Qed.

(** A double from 0 that is below infinity is a finite number. *)
Lemma finite_number (x : float) : (0 <=? x) = true -> (x <? infinity) = true -> number x.
Proof.
  rewrite leb_0_nonneg, FloatAxioms.ltb_spec. unfold number.
  now destruct (Prim2SF x) as [s|[]| |[] m e].
Qed.

(** Adding a finite double that is not negative to [0] gives its value. *)
Lemma add_zero_l (s : float) :
  number s -> number (0 + s) /\ (value (0 + s) == value s)%Q.
Proof.
  unfold number, value. rewrite add_spec. change (Prim2SF 0) with (S754_zero false).
  destruct (Prim2SF s) as [sgn|sgn| |[] m e]; try contradiction; intros _.
  - destruct sgn; split; try exact I; reflexivity.
  - split; [exact I | reflexivity].
Qed.

Local Close Scope float_scope.

End Double.

(** ** The timeline aligner *)

Module Aligner.

(** The arithmetic [alignSegments] is evaluated in. The code runs on
    doubles ([double]); [exact] evaluates the same expressions on rationals
    without rounding. *)
Class Arith (num : Type) : Type := {
  ofNat : nat -> num;        (* an integer-valued number: a length, the literal 0 *)
  add : num -> num -> num;
  mul : num -> num -> num;
  div : num -> num -> num
}.

(** IEEE-754 binary64, the numbers of the host. A length is below [2^53]
    and converts exactly. *)
#[export] Instance double : Arith float := {|
  ofNat n := PrimFloat.of_uint63 (Uint63.of_Z (Z.of_nat n));
  add := PrimFloat.add;
  mul := PrimFloat.mul;
  div := PrimFloat.div
|}.

(** Exact rational arithmetic. *)
#[export] Instance exact : Arith Q := {|
  ofNat n := inject_Z (Z.of_nat n);
  add := Qplus;
  mul := Qmult;
  div := Qdiv
|}.

Section AlignSegments.

Context {num : Type} `{Arith num}.

(** [segments.reduce((sum, seg) => sum + seg.original.length, 0)]. *)
Definition totalChars (segments : list (SubtitleSegment num)) : num :=
  foldl (fun sum seg => add sum (ofNat (String.length (original seg)))) (ofNat 0) segments.

(** The [map] of [alignSegments], with the captured variable [currentTime]
    passed along. *)
Fixpoint alignFrom (totalChars duration currentTime : num) (segments : list (SubtitleSegment num))
  : list (SubtitleSegment num) :=
  match segments with
  | [] => []
  | seg :: rest =>
      let segmentDuration := mul (div (ofNat (String.length (original seg))) totalChars) duration in
      let aligned := {| id := id seg;
                        original := original seg;
                        translated := translated seg;
                        startTime := currentTime;
                        endTime := add currentTime segmentDuration |} in
      let currentTime := add currentTime segmentDuration in
      aligned :: alignFrom totalChars duration currentTime rest
  end.

(** [alignSegments(segments, duration)]. *)
Definition alignSegments (segments : list (SubtitleSegment num)) (duration : num)
  : list (SubtitleSegment num) :=
  let totalChars := totalChars segments in
  let currentTime := ofNat 0 in
  alignFrom totalChars duration currentTime segments.

(** The facts that hold in every arithmetic. *)

Lemma alignFrom_length (t d c : num) (segs : list (SubtitleSegment num)) :
  length (alignFrom t d c segs) = length segs.
Proof.
  revert c. induction segs as [|seg rest IH]; intros c; cbn; [reflexivity|].
  now rewrite IH.
Qed.

Lemma alignFrom_texts (t d c : num) (segs : list (SubtitleSegment num)) :
  map (fun s => (id s, original s, translated s)) (alignFrom t d c segs)
  = map (fun s => (id s, original s, translated s)) segs.
Proof.
  revert c. induction segs as [|seg rest IH]; intros c; cbn; [reflexivity|].
  now rewrite IH.
Qed.

Lemma alignFrom_head (t d c : num) (segs : list (SubtitleSegment num)) (a : SubtitleSegment num) :
  alignFrom t d c segs !! 0%nat = Some a -> startTime a = c.
Proof.
  destruct segs as [|seg rest]; cbn; [discriminate|].
  intros [= <-]. reflexivity.
Qed.

Lemma alignFrom_contiguous (t d c : num) (segs : list (SubtitleSegment num)) (i : nat)
      (a b : SubtitleSegment num) :
  alignFrom t d c segs !! i = Some a ->
  alignFrom t d c segs !! S i = Some b ->
  endTime a = startTime b.
Proof.
  revert c i. induction segs as [|seg rest IH]; intros c i; [discriminate|].
  destruct i as [|i]; cbn.
  - intros [= <-] Hb. apply alignFrom_head in Hb. now rewrite Hb.
  - apply IH.
Qed.

(** Each aligned segment has the source text of the segment it is made of. *)
Lemma alignFrom_original (t d c : num) (segs : list (SubtitleSegment num)) (i : nat)
      (a : SubtitleSegment num) :
  alignFrom t d c segs !! i = Some a ->
  exists seg, segs !! i = Some seg /\ original a = original seg.
Proof.
  revert c i. induction segs as [|seg rest IH]; intros c i; [discriminate|].
  destruct i as [|i]; cbn.
  - intros [= <-]. now exists seg.
  - apply IH.
Qed.

(** Each segment ends at its start plus its share of the duration. *)
Lemma alignFrom_share (t d c : num) (segs : list (SubtitleSegment num)) (i : nat)
      (a : SubtitleSegment num) :
  alignFrom t d c segs !! i = Some a ->
  endTime a = add (startTime a) (mul (div (ofNat (String.length (original a))) t) d).
Proof.
  revert c i. induction segs as [|seg rest IH]; intros c i; [discriminate|].
  destruct i as [|i]; cbn.
  - intros [= <-]. reflexivity.
  - apply IH.
Qed.

(** Where the cursor stands after the segments. *)
Definition cursorAfter (totalChars duration currentTime : num)
    (segments : list (SubtitleSegment num)) : num :=
  foldl (fun currentTime seg =>
           add currentTime (mul (div (ofNat (String.length (original seg))) totalChars) duration))
        currentTime segments.

Lemma alignFrom_last_cursor (t d c : num)
    (segs : list (SubtitleSegment num)) (a : SubtitleSegment num) :
  last (alignFrom t d c segs) = Some a -> endTime a = cursorAfter t d c segs.
Proof.
  revert c. induction segs as [|seg rest IH]; intros c; [discriminate|].
  destruct rest as [|seg' rest].
  - cbn. intros [= <-]. reflexivity.
  - intros Ha.
    apply (IH (add c (mul (div (ofNat (String.length (original seg))) t) d))). exact Ha.
Qed.

End AlignSegments.

(** *** In exact arithmetic *)

(** The number of source characters of a list of segments. *)
Definition sourceLength {num : Type} (segments : list (SubtitleSegment num)) : nat :=
  list_sum (map (fun seg => String.length (original seg)) segments).

Lemma sourceLength_cons {num : Type} (seg : SubtitleSegment num) (rest : list (SubtitleSegment num)) :
  sourceLength (seg :: rest) = (String.length (original seg) + sourceLength rest)%nat.
Proof. reflexivity. Qed.

Lemma foldl_chars_exact (a : Q) (segs : list (SubtitleSegment Q)) :
  (foldl (fun sum seg => add sum (ofNat (String.length (original seg)))) a segs
   == a + inject_Z (Z.of_nat (sourceLength segs)))%Q.
Proof.
  revert a. induction segs as [|seg rest IH]; intros a; cbn [foldl].
  - unfold sourceLength. cbn. ring.
  - rewrite IH, sourceLength_cons. cbn [add ofNat exact].
    rewrite Nat2Z.inj_add, inject_Z_plus. ring.
Qed.

Lemma totalChars_exact (segs : list (SubtitleSegment Q)) :
  (totalChars segs == inject_Z (Z.of_nat (sourceLength segs)))%Q.
Proof.
  unfold totalChars. rewrite foldl_chars_exact. cbn. ring.
Qed.

Lemma share_nonneg (n : nat) (t d : Q) :
  (0 < t)%Q -> (0 <= d)%Q -> (0 <= mul (div (ofNat n) t) d)%Q.
Proof.
  intros Ht Hd. cbn. apply Qmult_le_0_compat; [|exact Hd].
  apply Qle_shift_div_l; [exact Ht|]. rewrite Qmult_0_l.
  change 0%Q with (inject_Z 0). rewrite <- Zle_Qle. lia.
Qed.

(** Every segment starts at or after the cursor and ends at or after its start. *)
Lemma alignFrom_after (t d c : Q) (segs : list (SubtitleSegment Q)) (i : nat)
      (a : SubtitleSegment Q) :
  (0 < t)%Q -> (0 <= d)%Q ->
  alignFrom t d c segs !! i = Some a ->
  (c <= startTime a)%Q /\ (startTime a <= endTime a)%Q.
Proof.
  intros Ht Hd. revert c i. induction segs as [|seg rest IH]; intros c i; [discriminate|].
  pose proof (share_nonneg (String.length (original seg)) t d Ht Hd) as Hs.
  destruct i as [|i]; cbn [alignFrom lookup list_lookup].
  - intros [= <-]. cbn [startTime endTime]. cbn in *. split; lra.
  - intros Ha. apply IH in Ha. cbn in *. destruct Ha. split; lra.
Qed.

Lemma alignFrom_sorted (t d c : Q) (segs : list (SubtitleSegment Q)) (i j : nat)
      (a b : SubtitleSegment Q) :
  (0 < t)%Q -> (0 <= d)%Q -> (i <= j)%nat ->
  alignFrom t d c segs !! i = Some a ->
  alignFrom t d c segs !! j = Some b ->
  (startTime a <= startTime b)%Q.
Proof.
  intros Ht Hd. revert c i j. induction segs as [|seg rest IH]; intros c i j Hij; [discriminate|].
  destruct i as [|i].
  - intros Ha Hb. apply alignFrom_head in Ha. rewrite Ha.
    now apply (alignFrom_after t d c (seg :: rest) j b Ht Hd).
  - destruct j as [|j]; [lia|]. cbn [alignFrom lookup list_lookup].
    apply IH. lia.
Qed.

(** The last segment ends where the cursor started plus the share of all
    the segments. *)
Lemma alignFrom_last (t d c : Q) (segs : list (SubtitleSegment Q)) (a : SubtitleSegment Q) :
  last (alignFrom t d c segs) = Some a ->
  (endTime a == c + inject_Z (Z.of_nat (sourceLength segs)) / t * d)%Q.
Proof.
  revert c. induction segs as [|seg rest IH]; intros c; [discriminate|].
  destruct rest as [|seg' rest].
  - cbn. intros [= <-]. cbn. unfold sourceLength. cbn.
    rewrite Nat.add_0_r. reflexivity.
  - change (alignFrom t d c (seg :: seg' :: rest))
      with (alignFrom t d c [seg] ++ alignFrom t d
              (add c (mul (div (ofNat (String.length (original seg))) t) d)) (seg' :: rest)).
    rewrite last_app. intros Ha.
    destruct (last (alignFrom t d _ (seg' :: rest))) as [a'|] eqn:Hlast.
    + injection Ha as <-. rewrite (IH _ Hlast).
      rewrite (sourceLength_cons seg). cbn [add mul div ofNat exact].
      rewrite Nat2Z.inj_add, inject_Z_plus.
      unfold Qdiv. ring.
    + apply last_None in Hlast. discriminate.
Qed.

(** *** In doubles *)

Local Open Scope float_scope.

(** NaN absorbs a product and a sum. *)
Lemma nan_mul_l (d : float) : nan * d = nan.
Proof.
  apply Prim2SF_inj. rewrite mul_spec. reflexivity.
Qed.

Lemma nan_add_r (c : float) : c + nan = nan.
Proof.
  apply Prim2SF_inj. rewrite add_spec.
  change (Prim2SF nan) with S754_nan.
  destruct (Prim2SF c) as [ | | |[] ? ?]; reflexivity.
Qed.

(** The sum of no characters is [0]. *)
Lemma totalChars_no_chars (segs : list (SubtitleSegment float)) :
  Forall (fun s => original s = "") segs -> totalChars segs = 0.
Proof.
  unfold totalChars. change (ofNat 0) with 0.
  induction 1 as [|s rest Hs _ IH]; cbn [foldl]; [reflexivity|].
  rewrite Hs. exact IH.
Qed.

(** With no characters at all every share is [0 / 0 * duration], that is
    NaN, and NaN stays in the cursor from the first addition on. *)
Lemma alignFrom_no_chars (d c : float) (segs : list (SubtitleSegment float)) (i : nat)
      (a : SubtitleSegment float) :
  Forall (fun s => original s = "") segs ->
  alignFrom 0 d c segs !! i = Some a ->
  startTime a = match i with O => c | S _ => nan end /\ endTime a = nan.
Proof.
  intros Hall. revert c i. induction Hall as [|s rest Hs _ IH]; intros c i; [discriminate|].
  cbn [alignFrom]. rewrite Hs.
  change (mul (div (ofNat (String.length "")) 0) d) with (nan * d).
  rewrite nan_mul_l. change (add c nan) with (c + nan). rewrite nan_add_r.
  destruct i as [|i]; cbn [lookup list_lookup].
  - intros [= <-]. split; reflexivity.
  - intros Ha. apply IH in Ha. destruct Ha as [Hstart Hend].
    split; [|exact Hend]. rewrite Hstart. now destruct i.
Qed.

Local Close Scope float_scope.

(** *** In doubles: the bounds of the cursor

    Every operation of [alignSegments] is its exact result up to one
    rounding. The cursor after some segments therefore lies between two
    rationals, computed like the cursor with every rounding taken down, or
    up; [k] segments move those two bounds apart by [k + 2] roundings. *)

Import Double.

(** The share of [n] characters out of [T], and the bounds of the cursor
    after a segment of [n] characters: the three roundings of
    [currentTime + (n / totalChars) * duration], all up or all down. *)
Definition share (T : Q) (n : nat) : Q := (inject_Z (Z.of_nat n) / T)%Q.

Definition upper (T D c : Q) (n : nat) : Q := above (c + above (above (share T n) * D)).
Definition lower (T D c : Q) (n : nat) : Q := below (c + below (below (share T n) * D)).

Definition upperAfter (T D c : Q) (segs : list (SubtitleSegment float)) : Q :=
  foldl (fun c seg => upper T D c (String.length (original seg))) c segs.

Definition lowerAfter (T D c : Q) (segs : list (SubtitleSegment float)) : Q :=
  foldl (fun c seg => lower T D c (String.length (original seg))) c segs.

Lemma share_ge_0 (T : Q) (n : nat) : (0 < T)%Q -> (0 <= share T n)%Q.
Proof.
  intros HT. unfold share. apply Qle_shift_div_l; [exact HT|]. rewrite Qmult_0_l.
  rewrite <- (Zle_Qle 0). lia.
Qed.

Lemma upper_mono (T D c c' : Q) (n : nat) : (c <= c')%Q -> (upper T D c n <= upper T D c' n)%Q.
Proof. intros Hc. unfold upper. apply above_mono. lra. Qed.

Lemma lower_mono (T D c c' : Q) (n : nat) : (c <= c')%Q -> (lower T D c n <= lower T D c' n)%Q.
Proof. intros Hc. unfold lower. apply below_mono. lra. Qed.

Lemma above_nonneg (x : Q) : (0 <= x)%Q -> (0 <= above x)%Q.
Proof. intros Hx. pose proof (above_ge x Hx). lra. Qed.

Lemma upper_ge (T D c : Q) (n : nat) :
  (0 < T)%Q -> (0 <= D)%Q -> (0 <= c)%Q -> (c <= upper T D c n)%Q.
Proof.
  intros HT HD Hc. unfold upper.
  assert (Hs : (0 <= above (above (share T n) * D))%Q).
  { apply above_nonneg, Qmult_le_0_compat; [|exact HD].
    now apply above_nonneg, share_ge_0. }
  pose proof (above_ge (c + above (above (share T n) * D)) ltac:(lra)). lra.
Qed.

Lemma upperAfter_mono (T D c c' : Q) (segs : list (SubtitleSegment float)) :
  (c <= c')%Q -> (upperAfter T D c segs <= upperAfter T D c' segs)%Q.
Proof.
  revert c c'. induction segs as [|seg rest IH]; intros c c' Hc; [exact Hc|].
  apply IH. now apply upper_mono.
Qed.

Lemma lowerAfter_mono (T D c c' : Q) (segs : list (SubtitleSegment float)) :
  (c <= c')%Q -> (lowerAfter T D c segs <= lowerAfter T D c' segs)%Q.
Proof.
  revert c c'. induction segs as [|seg rest IH]; intros c c' Hc; [exact Hc|].
  apply IH. now apply lower_mono.
Qed.

Lemma upperAfter_ge (T D c : Q) (segs : list (SubtitleSegment float)) :
  (0 < T)%Q -> (0 <= D)%Q -> (0 <= c)%Q -> (c <= upperAfter T D c segs)%Q.
Proof.
  intros HT HD. revert c. induction segs as [|seg rest IH]; intros c Hc; [apply Qle_refl|].
  pose proof (upper_ge T D c (String.length (original seg)) HT HD Hc) as Hu.
  apply Qle_trans with (upper T D c (String.length (original seg))); [exact Hu|].
  apply IH. lra.
Qed.

Local Open Scope float_scope.

(** The cursor of the code, in doubles, stays between the two bounds as
    long as the upper one is in the range of the doubles. *)
Lemma cursorAfter_double (t d c : float) (segs : list (SubtitleSegment float)) :
  number t -> (0 < value t)%Q -> number d ->
  Forall (fun seg => (Z.of_nat (String.length (original seg)) < 2 ^ 53)%Z
                     /\ (inject_Z (Z.of_nat (String.length (original seg))) <= value t)%Q) segs ->
  number c ->
  (upperAfter (value t) (value d) (value c) segs < huge)%Q ->
  number (cursorAfter t d c segs)
  /\ (lowerAfter (value t) (value d) (value c) segs
      <= value (cursorAfter t d c segs)
      <= upperAfter (value t) (value d) (value c) segs)%Q.
Proof.
  intros Ht HT Hd Hall. revert c.
  pose proof (value_nonneg d Hd) as HD.
  induction Hall as [|seg rest [Hn Hle] _ IH]; intros c Hc Hup.
  { split; [exact Hc|]. split; apply Qle_refl. }
  pose proof (value_nonneg c Hc) as HC.
  set (n := String.length (original seg)) in *.
  change (upperAfter (value t) (value d) (value c) (seg :: rest))
    with (upperAfter (value t) (value d) (upper (value t) (value d) (value c) n) rest) in *.
  change (lowerAfter (value t) (value d) (value c) (seg :: rest))
    with (lowerAfter (value t) (value d) (lower (value t) (value d) (value c) n) rest).
  set (l := of_uint63 (Uint63.of_Z (Z.of_nat n))).
  change (cursorAfter t d c (seg :: rest))
    with (cursorAfter t d (c + (l / t) * d) rest).
  assert (Hupper : (upper (value t) (value d) (value c) n < huge)%Q).
  { eapply Qle_lt_trans; [|exact Hup]. apply upperAfter_ge; try assumption.
    pose proof (upper_ge (value t) (value d) (value c) n HT HD HC). lra. }
  pose proof (share_ge_0 (value t) n HT) as Ha.
  set (a := share (value t) n) in *.
  assert (Ha1 : (a <= 1)%Q).
  { unfold a, share. apply Qle_shift_div_r; [exact HT|]. now rewrite Qmult_1_l. }
  destruct (of_uint63_exact (Z.of_nat n) ltac:(lia)) as [Hl Hlv]. fold l in Hl, Hlv.
  destruct (div_near l t a Hl Ht HT) as [Hq [Hqlo Hqhi]].
  { rewrite Hlv. unfold a, share. field. lra. }
  { eapply Qle_lt_trans; [apply above_mono; exact Ha1 | exact above_1]. }
  pose proof (value_nonneg _ Hq) as Hq0.
  assert (Hprod : (below a * value d <= value (l / t) * value d <= above a * value d)%Q).
  { split; apply Qmult_le_compat_r; assumption. }
  pose proof (above_nonneg a Ha) as Haa.
  assert (Hy : (0 <= above (above a * value d))%Q).
  { apply above_nonneg, Qmult_le_0_compat; assumption. }
  assert (Hupper' : (upper (value t) (value d) (value c) n
                     = above (value c + above (above a * value d)))%Q) by reflexivity.
  destruct (mul_near (l / t) d Hq Hd) as [Hs [Hslo Hshi]].
  { eapply Qle_lt_trans; [|exact Hupper]. rewrite Hupper'.
    apply Qle_trans with (above (above a * value d)); [apply above_mono, Hprod|].
    pose proof (above_ge (value c + above (above a * value d)) ltac:(lra)). lra. }
  assert (Hs' : (below (below a * value d) <= value (l / t * d)
                 <= above (above a * value d))%Q).
  { split.
    - eapply Qle_trans; [|exact Hslo]. apply below_mono, Hprod.
    - eapply Qle_trans; [exact Hshi|]. apply above_mono, Hprod. }
  destruct (add_near c (l / t * d) Hc Hs) as [Hc' [Hclo Hchi]].
  { eapply Qle_lt_trans; [|exact Hupper]. rewrite Hupper'. apply above_mono. lra. }
  assert (Hnext : (lower (value t) (value d) (value c) n
                   <= value (c + l / t * d)
                   <= upper (value t) (value d) (value c) n)%Q).
  { split.
    - eapply Qle_trans; [|exact Hclo]. unfold lower. fold a. apply below_mono. lra.
    - eapply Qle_trans; [exact Hchi|]. rewrite Hupper'. apply above_mono. lra. }
  destruct (IH (c + l / t * d) Hc') as [Hfin [Hlo Hhi]].
  { eapply Qle_lt_trans; [|exact Hup]. apply upperAfter_mono, Hnext. }
  split; [exact Hfin|]. split.
  - eapply Qle_trans; [|exact Hlo]. apply lowerAfter_mono, Hnext.
  - eapply Qle_trans; [exact Hhi|]. apply upperAfter_mono, Hnext.
Qed.

Local Close Scope float_scope.

(** The shares of all the segments of a list. *)
Definition shares (T : Q) (segs : list (SubtitleSegment float)) : Q :=
  (inject_Z (Z.of_nat (sourceLength segs)) / T)%Q.

Lemma shares_nil (T : Q) : (shares T [] == 0)%Q.
Proof. unfold shares, sourceLength. cbn. unfold Qdiv. ring. Qed.

Lemma shares_cons (T : Q) (seg : SubtitleSegment float) (rest : list (SubtitleSegment float)) :
  (shares T (seg :: rest) == share T (String.length (original seg)) + shares T rest)%Q.
Proof.
  unfold shares, share. rewrite sourceLength_cons, Nat2Z.inj_add, inject_Z_plus.
  unfold Qdiv. ring.
Qed.

Lemma shares_nonneg (T : Q) (segs : list (SubtitleSegment float)) :
  (0 < T)%Q -> (0 <= shares T segs)%Q.
Proof.
  intros HT. unfold shares. apply Qle_shift_div_l; [exact HT|]. rewrite Qmult_0_l.
  rewrite <- (Zle_Qle 0). lia.
Qed.

Lemma upper_le (T D c : Q) (n : nat) :
  (upper T D c n
   <= (1 + eps) * (c + (1 + eps) * (1 + eps) * share T n * D + tiny * ((1 + eps) * D + 2)))%Q.
Proof.
  unfold upper, above. pose proof tiny_pos. rewrite eps_value. nra.
Qed.

Lemma lower_ge (T D c : Q) (n : nat) :
  (0 <= D)%Q ->
  ((1 - eps) * (c + (1 - eps) * (1 - eps) * share T n * D) - tiny * (D + 2)
   <= lower T D c n)%Q.
Proof.
  intros HD. unfold lower, below. pose proof tiny_pos.
  assert (0 <= tiny * D)%Q by (apply Qmult_le_0_compat; lra).
  rewrite eps_value. nra.
Qed.

(** After [k] segments the upper bound has grown by [k] roundings of the
    cursor, two roundings of each share and [k] subnormal spacings. *)
Lemma upperAfter_le (T D c : Q) (segs : list (SubtitleSegment float)) :
  (0 < T)%Q -> (0 <= D)%Q -> (0 <= c)%Q ->
  (upperAfter T D c segs
   <= growth (length segs)
      * (c + (1 + eps) * (1 + eps) * D * shares T segs
         + inject_Z (Z.of_nat (length segs)) * (tiny * ((1 + eps) * D + 2))))%Q.
Proof.
  intros HT HD. revert c. induction segs as [|seg rest IH]; intros c Hc.
  - change (upperAfter T D c []) with c. cbn [length growth].
    change (inject_Z (Z.of_nat 0)) with 0%Q. rewrite shares_nil. nra.
  - change (upperAfter T D c (seg :: rest))
      with (upperAfter T D (upper T D c (String.length (original seg))) rest).
    pose proof (upper_ge T D c (String.length (original seg)) HT HD Hc) as Hge.
    specialize (IH (upper T D c (String.length (original seg))) ltac:(lra)).
    pose proof (upper_le T D c (String.length (original seg))) as Hle.
    rewrite shares_cons. cbn [length growth].
    rewrite Nat2Z.inj_succ. unfold Z.succ. rewrite inject_Z_plus. change (inject_Z 1) with 1%Q.
    pose proof (share_ge_0 T (String.length (original seg)) HT) as Ha.
    pose proof (shares_nonneg T rest HT) as HSA.
    pose proof (growth_ge_1 (length rest)) as HG.
    assert (HK : (0 <= inject_Z (Z.of_nat (length rest)))%Q) by (rewrite <- (Zle_Qle 0); lia).
    set (a := share T (String.length (original seg))) in *.
    set (U := upper T D c (String.length (original seg))) in *.
    set (SA := shares T rest) in *. set (G := growth (length rest)) in *.
    set (K := inject_Z (Z.of_nat (length rest))) in *.
    set (UA := upperAfter T D U rest) in *.
    pose proof tiny_pos as Ht. pose proof eps_value as He.
    assert (HNh : (0 <= tiny * ((1 + eps) * D + 2))%Q).
    { apply Qmult_le_0_compat; [lra|]. rewrite He. lra. }
    set (Nh := (tiny * ((1 + eps) * D + 2))%Q) in *.
    assert (HR : (0 <= (1 + eps) * (1 + eps) * D * SA + K * Nh)%Q).
    { assert (0 <= D * SA)%Q by (now apply Qmult_le_0_compat).
      assert (0 <= K * Nh)%Q by (now apply Qmult_le_0_compat).
      rewrite He. nra. }
    set (R := ((1 + eps) * (1 + eps) * D * SA + K * Nh)%Q) in *.
    set (X := (c + (1 + eps) * (1 + eps) * a * D + Nh)%Q) in *.
    apply Qle_trans with (G * (U + R))%Q.
    { eapply Qle_trans; [exact IH|]. apply Qle_lteq. right. unfold R. ring. }
    apply Qle_trans with ((1 + eps) * G * (X + R))%Q.
    + assert (0 <= G * ((1 + eps) * X - U))%Q by (apply Qmult_le_0_compat; lra).
      assert (0 <= G * R)%Q by (apply Qmult_le_0_compat; lra).
      rewrite He in *. nra.
    + apply Qle_lteq. right. unfold X, R. ring.
Qed.

(** After [k] segments the lower bound has shrunk by [k] roundings of the
    cursor, two roundings of each share and [k] subnormal spacings. *)
Lemma lowerAfter_ge (T D c : Q) (segs : list (SubtitleSegment float)) :
  (0 < T)%Q -> (0 <= D)%Q ->
  (decay (length segs) * (c + (1 - eps) * (1 - eps) * D * shares T segs)
   - inject_Z (Z.of_nat (length segs)) * (tiny * (D + 2))
   <= lowerAfter T D c segs)%Q.
Proof.
  intros HT HD. revert c. induction segs as [|seg rest IH]; intros c.
  - change (lowerAfter T D c []) with c. cbn [length decay].
    change (inject_Z (Z.of_nat 0)) with 0%Q. rewrite shares_nil. nra.
  - change (lowerAfter T D c (seg :: rest))
      with (lowerAfter T D (lower T D c (String.length (original seg))) rest).
    specialize (IH (lower T D c (String.length (original seg)))).
    pose proof (lower_ge T D c (String.length (original seg)) HD) as Hge.
    rewrite shares_cons. cbn [length decay].
    rewrite Nat2Z.inj_succ. unfold Z.succ. rewrite inject_Z_plus. change (inject_Z 1) with 1%Q.
    pose proof (share_ge_0 T (String.length (original seg)) HT) as Ha.
    pose proof (shares_nonneg T rest HT) as HSA.
    pose proof (decay_bounds (length rest)) as HG.
    assert (HK : (0 <= inject_Z (Z.of_nat (length rest)))%Q) by (rewrite <- (Zle_Qle 0); lia).
    set (a := share T (String.length (original seg))) in *.
    set (L := lower T D c (String.length (original seg))) in *.
    set (SA := shares T rest) in *. set (G := decay (length rest)) in *.
    set (K := inject_Z (Z.of_nat (length rest))) in *.
    set (LA := lowerAfter T D L rest) in *.
    pose proof tiny_pos as Ht. pose proof eps_value as He.
    assert (HN : (0 <= tiny * (D + 2))%Q) by (apply Qmult_le_0_compat; lra).
    set (N := (tiny * (D + 2))%Q) in *.
    assert (HP : (0 <= (1 - eps) * (1 - eps) * D * SA)%Q).
    { assert (0 <= D * SA)%Q by (now apply Qmult_le_0_compat). rewrite He. nra. }
    set (P := ((1 - eps) * (1 - eps) * D * SA)%Q) in *.
    set (Y := (c + (1 - eps) * (1 - eps) * a * D)%Q) in *.
    apply Qle_trans with (G * (L + P) - K * N)%Q; [|exact IH].
    apply Qle_trans with ((1 - eps) * G * (Y + P) - (K + 1) * N)%Q.
    + apply Qle_lteq. right. unfold Y, P. ring.
    + assert (0 <= G * (L - ((1 - eps) * Y - N)))%Q by (apply Qmult_le_0_compat; lra).
      assert (0 <= (1 - G) * N)%Q by (apply Qmult_le_0_compat; lra).
      assert (0 <= G * P)%Q by (apply Qmult_le_0_compat; lra).
      rewrite He in *. nra.
Qed.

(** No segment has more characters than the whole list. *)
Lemma sourceLength_bound {num : Type} (segs : list (SubtitleSegment num)) :
  Forall (fun seg => (String.length (original seg) <= sourceLength segs)%nat) segs.
Proof.
  induction segs as [|seg rest IH]; constructor.
  - rewrite sourceLength_cons. lia.
  - eapply Forall_impl; [exact IH|]. intros s Hs. cbn beta in *. rewrite sourceLength_cons. lia.
Qed.

(** Below [2^53] the character count is exact in doubles. *)
Lemma foldl_chars_double (sum : float) (segs : list (SubtitleSegment float)) (A : Z) :
  number sum -> (value sum == inject_Z A)%Q -> 0 <= A ->
  A + Z.of_nat (sourceLength segs) < 2 ^ 53 ->
  number (foldl (fun sum seg => add sum (ofNat (String.length (original seg)))) sum segs)
  /\ (value (foldl (fun sum seg => add sum (ofNat (String.length (original seg)))) sum segs)
      == inject_Z (A + Z.of_nat (sourceLength segs)))%Q.
Proof.
  revert sum A. induction segs as [|seg rest IH]; intros sum A Hsum Hval HA Hfit.
  - cbn [foldl]. split; [exact Hsum|]. unfold sourceLength. cbn. now rewrite Z.add_0_r.
  - rewrite sourceLength_cons, Nat2Z.inj_add in Hfit |- *. cbn [foldl].
    set (n := String.length (original seg)) in *.
    destruct (of_uint63_exact (Z.of_nat n) ltac:(lia)) as [Hl Hlv].
    destruct (add_exact sum _ (A + Z.of_nat n) Hsum Hl) as [Hnext Hnextv].
    { rewrite Hval, Hlv, inject_Z_plus. reflexivity. }
    { lia. }
    destruct (IH _ (A + Z.of_nat n) Hnext Hnextv ltac:(lia) ltac:(lia)) as [Hfin Hfinv].
    split; [exact Hfin|]. rewrite Hfinv. now rewrite Z.add_assoc.
Qed.

Lemma totalChars_double (segs : list (SubtitleSegment float)) :
  Z.of_nat (sourceLength segs) < 2 ^ 53 ->
  number (totalChars segs)
  /\ (value (totalChars segs) == inject_Z (Z.of_nat (sourceLength segs)))%Q.
Proof.
  intros Hfit. unfold totalChars.
  destruct (foldl_chars_double (ofNat 0) segs 0) as [Hn Hv]; try (exact I || reflexivity || lia).
  split; [exact Hn|]. exact Hv.
Qed.

(** The end of the timeline in doubles: with fewer than [2^53] characters
    in fewer than [2^31] segments and a duration up to [2^1023], the last
    segment ends at a finite number whose distance to the duration is at
    most a millionth of the duration plus [2^-1040]. *)
Lemma alignSegments_double_end (segments : list (SubtitleSegment float)) (duration : float)
      (a : SubtitleSegment float) :
  (0 < sourceLength segments)%nat ->
  Z.of_nat (sourceLength segments) < 2 ^ 53 ->
  Z.of_nat (length segments) < 2 ^ 31 ->
  number duration -> (value duration <= pow2 1023)%Q ->
  last (alignSegments segments duration) = Some a ->
  number (endTime a)
  /\ (value duration - ((1 # 1000000) * value duration + pow2 (-1040))
      <= value (endTime a)
      <= value duration + ((1 # 1000000) * value duration + pow2 (-1040)))%Q.
Proof.
  intros Hpos Hfit Hlen Hd Hdmax Hlast. unfold alignSegments in Hlast.
  apply alignFrom_last_cursor in Hlast. rewrite Hlast. clear Hlast a.
  destruct (totalChars_double segments Hfit) as [Ht Htv].
  set (t := totalChars segments) in *.
  assert (HT : (0 < value t)%Q) by (rewrite Htv, <- (Zlt_Qlt 0); lia).
  pose proof (value_nonneg duration Hd) as HD.
  set (D := value duration) in *.
  assert (Hall : Forall (fun seg => Z.of_nat (String.length (original seg)) < 2 ^ 53
                     /\ (inject_Z (Z.of_nat (String.length (original seg))) <= value t)%Q)
                   segments).
  { eapply Forall_impl; [apply sourceLength_bound|]. intros seg Hseg. cbn beta in Hseg.
    split; [lia|]. rewrite Htv, <- Zle_Qle. lia. }
  assert (HS : (shares (value t) segments == 1)%Q).
  { unfold shares. rewrite <- Htv. field. lra. }
  pose proof (upperAfter_le (value t) D 0 segments HT HD ltac:(lra)) as Hup.
  pose proof (lowerAfter_ge (value t) D 0 segments HT HD) as Hlo.
  rewrite HS in Hup, Hlo.
  assert (HN : (0 <= inject_Z (Z.of_nat (length segments)) <= 2147483648)%Q).
  { split; [rewrite <- (Zle_Qle 0); lia|].
    change 2147483648%Q with (inject_Z 2147483648). rewrite <- Zle_Qle. lia. }
  set (N := inject_Z (Z.of_nat (length segments))) in *.
  pose proof (growth_ge_1 (length segments)) as Hg1.
  pose proof (growth_le (length segments)) as Hg. fold N in Hg.
  pose proof (decay_ge (length segments)) as Hdk. fold N in Hdk.
  pose proof (decay_bounds (length segments)) as Hdk0.
  pose proof tiny_pos as Htiny. pose proof tiny_small as Hsmall. pose proof pow2_1040 as HP.
  pose proof huge_value as Hhuge. pose proof pow2_1023_ge_2 as Hbig.
  assert (HtD : (0 <= tiny * D <= (1 # 1267650600228229401496703205376) * D)%Q).
  { split; [apply Qmult_le_0_compat; lra | apply Qmult_le_compat_r; lra]. }
  rewrite eps_value in *. specialize (Hg ltac:(lra)).
  set (g := growth (length segments)) in *. set (dk := decay (length segments)) in *.
  set (tD := (tiny * D)%Q) in *.
  set (B := (tiny * ((1 + (1 # 4503599627370496)) * D + 2))%Q) in *.
  assert (HB : (B == (1 + (1 # 4503599627370496)) * tD + 2 * tiny)%Q) by (unfold B, tD; ring).
  set (C := (tiny * (D + 2))%Q) in *.
  assert (HC : (C == tD + 2 * tiny)%Q) by (unfold C, tD; ring).
  assert (HNB : (0 <= N * B <= 2147483648 * B)%Q).
  { split; [apply Qmult_le_0_compat; lra | apply Qmult_le_compat_r; lra]. }
  assert (HNC : (0 <= N * C <= 2147483648 * C)%Q).
  { split; [apply Qmult_le_0_compat; lra | apply Qmult_le_compat_r; lra]. }
  set (NB := (N * B)%Q) in *. set (NC := (N * C)%Q) in *.
  set (X := (0 + (1 + (1 # 4503599627370496)) * (1 + (1 # 4503599627370496)) * D * 1 + NB)%Q)
    in *.
  set (Y := (0 + (1 - (1 # 4503599627370496)) * (1 - (1 # 4503599627370496)) * D * 1)%Q) in *.
  assert (HX : (X == (1 + (1 # 4503599627370496)) * (1 + (1 # 4503599627370496)) * D + NB)%Q)
    by (unfold X; ring).
  assert (HY : (Y == (1 - (1 # 4503599627370496)) * (1 - (1 # 4503599627370496)) * D)%Q)
    by (unfold Y; ring).
  assert (HgX : (g * X <= (1 + 2 * 2147483648 * (1 # 4503599627370496)) * X)%Q)
    by (apply Qmult_le_compat_r; lra).
  assert (HdY : ((1 - 2147483648 * (1 # 4503599627370496)) * Y <= dk * Y)%Q)
    by (apply Qmult_le_compat_r; lra).
  set (gX := (g * X)%Q) in *. set (dY := (dk * Y)%Q) in *.
  assert (Hzero : number (@ofNat float double 0)) by exact I.
  destruct (cursorAfter_double t duration (@ofNat float double 0) segments Ht HT Hd Hall Hzero)
    as [Hend [Hendlo Hendhi]].
  { change (value (@ofNat float double 0)) with 0%Q. fold D. lra. }
  change (value (@ofNat float double 0)) with 0%Q in Hendlo, Hendhi. fold D in Hendlo, Hendhi.
  split; [exact Hend|]. split; lra.
Qed.

(** *** In doubles: the order of the times *)

Local Open Scope float_scope.

(** With fewer than [2^53] characters and a duration up to [2^1023], the
    share of a segment, as the code computes it, is a finite number: the
    exact share [n / T * D] rounded twice, which is within [2^-50] of it
    relatively, and [2^-1073 * (D + 1)] absolutely. *)
Lemma share_double_near (n : nat) (t d : float) :
  number t -> (0 < value t)%Q -> number d -> (value d <= pow2 1023)%Q ->
  (Z.of_nat n < 2 ^ 53)%Z -> (inject_Z (Z.of_nat n) <= value t)%Q ->
  number (mul (div (ofNat n) t) d)
  /\ (share (value t) n * value d
      - (pow2 (-50) * (share (value t) n * value d) + pow2 (-1073) * (value d + 1))
      <= value (mul (div (ofNat n) t) d)
      <= share (value t) n * value d
         + (pow2 (-50) * (share (value t) n * value d) + pow2 (-1073) * (value d + 1)))%Q.
Proof.
  intros Ht HT Hd Hdmax Hn Hle.
  pose proof (value_nonneg d Hd) as HD.
  pose proof (share_ge_0 (value t) n HT) as Ha.
  set (a := share (value t) n) in *.
  assert (Ha1 : (a <= 1)%Q).
  { unfold a, share. apply Qle_shift_div_r; [exact HT|]. now rewrite Qmult_1_l. }
  destruct (of_uint63_exact (Z.of_nat n) ltac:(lia)) as [Hl Hlv].
  set (l := of_uint63 (Uint63.of_Z (Z.of_nat n))) in *.
  change (mul (div (ofNat n) t) d) with (l / t * d).
  destruct (div_near l t a Hl Ht HT) as [Hq [Hqlo Hqhi]].
  { rewrite Hlv. unfold a, share. field. lra. }
  { eapply Qle_lt_trans; [apply above_mono; exact Ha1 | exact above_1]. }
  pose proof (value_nonneg _ Hq) as Hq0.
  pose proof tiny_pos as Htiny. pose proof tiny_small as Hsmall.
  pose proof huge_value as Hhuge. pose proof pow2_1023_ge_2 as Hbig.
  destruct (mul_near (l / t) d Hq Hd) as [Hs [Hslo Hshi]].
  { pose proof (above_mono a 1 Ha1) as Hq1.
    unfold above in *. rewrite eps_value in *.
    assert (Hprod : (value (l / t) * value d
                     <= (1 + (1 # 4503599627370496) + (1 # 1267650600228229401496703205376))
                        * pow2 1023)%Q).
    { apply Qmult_le_compat_nonneg; split; try assumption. lra. }
    lra. }
  split; [exact Hs|].
  assert (Hprod : (below a * value d <= value (l / t) * value d <= above a * value d)%Q).
  { split; apply Qmult_le_compat_r; assumption. }
  assert (Hlo : (below (below a * value d) <= value (l / t * d))%Q).
  { eapply Qle_trans; [|exact Hslo]. apply below_mono, Hprod. }
  assert (Hhi : (value (l / t * d) <= above (above a * value d))%Q).
  { eapply Qle_trans; [exact Hshi|]. apply above_mono, Hprod. }
  assert (H50 : (pow2 (-50) == 1 # 1125899906842624)%Q) by reflexivity.
  assert (H1073 : (pow2 (-1073) == 2 * tiny)%Q).
  { change (pow2 (-1073)) with (pow2 (1 + -1074)). now rewrite pow2_add. }
  assert (Hx : (0 <= a * value d)%Q) by (now apply Qmult_le_0_compat).
  assert (Hy : (0 <= tiny * value d)%Q) by (apply Qmult_le_0_compat; lra).
  assert (Eup : (above (above a * value d)
                 == (1 + eps) * (1 + eps) * (a * value d) + (1 + eps) * (tiny * value d) + tiny)%Q)
    by (unfold above; ring).
  assert (Edn : (below (below a * value d)
                 == (1 - eps) * (1 - eps) * (a * value d) - (1 - eps) * (tiny * value d) - tiny)%Q)
    by (unfold below; ring).
  assert (E73 : (pow2 (-1073) * (value d + 1) == 2 * (tiny * value d) + 2 * tiny)%Q)
    by (rewrite H1073; ring).
  rewrite Eup in Hhi. rewrite Edn in Hlo. rewrite H50, E73. rewrite eps_value in *.
  set (x := (a * value d)%Q) in *. set (y := (tiny * value d)%Q) in *.
  split; lra.
Qed.

Lemma share_double_number (n : nat) (t d : float) :
  number t -> (0 < value t)%Q -> number d -> (value d <= pow2 1023)%Q ->
  (Z.of_nat n < 2 ^ 53)%Z -> (inject_Z (Z.of_nat n) <= value t)%Q ->
  number (mul (div (ofNat n) t) d).
Proof.
  intros Ht HT Hd Hdmax Hn Hle. now apply share_double_near.
Qed.

(** Every segment starts at or after the cursor, at a number that is not
    negative, and ends at or after its start. *)
Lemma alignFrom_double_after (t d c : float) (segs : list (SubtitleSegment float)) (i : nat)
      (a : SubtitleSegment float) :
  Forall (fun seg => (0 <=? mul (div (ofNat (String.length (original seg))) t) d) = true) segs ->
  (0 <=? c) = true ->
  alignFrom t d c segs !! i = Some a ->
  (c <=? startTime a) = true /\ (0 <=? startTime a) = true
  /\ (startTime a <=? endTime a) = true.
Proof.
  intros Hall. revert c i.
  induction Hall as [|seg rest Hs _ IH]; intros c i Hc; [discriminate|].
  destruct (Double.add_nonneg_ge c _ Hc Hs) as [Hnext Hge].
  destruct i as [|i]; cbn [alignFrom lookup list_lookup].
  - intros [= <-]. cbn [startTime endTime]. split; [|split]; try assumption.
    apply Double.leb_refl. now destruct (Double.leb_not_nan _ _ Hc).
  - intros Ha. destruct (IH _ _ Hnext Ha) as (Hafter & Hpos & Hend).
    split; [|split]; try assumption.
    exact (Double.leb_trans_nonneg _ _ _ Hc Hge Hafter).
Qed.

Lemma alignFrom_double_sorted (t d c : float) (segs : list (SubtitleSegment float)) (i j : nat)
      (a b : SubtitleSegment float) :
  Forall (fun seg => (0 <=? mul (div (ofNat (String.length (original seg))) t) d) = true) segs ->
  (0 <=? c) = true -> (i <= j)%nat ->
  alignFrom t d c segs !! i = Some a ->
  alignFrom t d c segs !! j = Some b ->
  (startTime a <=? startTime b) = true.
Proof.
  intros Hall. revert c i j.
  induction Hall as [|seg rest Hs Hall IH]; intros c i j Hc Hij; [discriminate|].
  destruct i as [|i].
  - intros Ha Hb. apply alignFrom_head in Ha. rewrite Ha.
    now apply (alignFrom_double_after t d c (seg :: rest) j b); [constructor|..].
  - destruct j as [|j]; [lia|]. cbn [alignFrom lookup list_lookup].
    apply IH; [|lia].
    now apply Double.add_nonneg_ge.
Qed.

(** With some characters, fewer than [2^53] of them, and a duration from
    [0] to [2^1023], no share is negative or NaN. *)
Lemma shares_double_nonneg (segments : list (SubtitleSegment float)) (duration : float) :
  (0 < sourceLength segments)%nat ->
  (Z.of_nat (sourceLength segments) < 2 ^ 53)%Z ->
  number duration -> (value duration <= pow2 1023)%Q ->
  Forall (fun seg => (0 <=? mul (div (ofNat (String.length (original seg)))
                                     (totalChars segments)) duration) = true) segments.
Proof.
  intros Hpos Hfit Hd Hdmax.
  destruct (totalChars_double segments Hfit) as [Ht Htv].
  assert (HT : (0 < value (totalChars segments))%Q) by (rewrite Htv, <- (Zlt_Qlt 0); lia).
  eapply Forall_impl; [apply sourceLength_bound|]. intros seg Hseg. cbn beta in Hseg.
  apply number_leb, share_double_number; try assumption; [lia|].
  rewrite Htv, <- Zle_Qle. lia.
Qed.

Local Close Scope float_scope.

(** *** The claims about the aligner *)

(** The identity and the texts of a segment. *)
Definition texts {num : Type} (seg : SubtitleSegment num) : nat * string * string :=
  (id seg, original seg, translated seg).

(** A segment that has not been aligned yet. *)
Definition untimed {num : Type} `{Arith num} (index : nat) (source translation : string)
  : SubtitleSegment num :=
  mkSubtitleSegment index source translation (ofNat 0) (ofNat 0).

(** C4 (as amended). With some characters, fewer than [2^53] of them in
    fewer than [2^31] segments, and a duration that is a double from 0 to
    [2^1023], the result of [alignSegments], as the code computes it in
    doubles, has the length, the order and the texts of its input; its
    first segment starts at 0; every segment ends exactly where the next
    one starts, at a number; the start times never decrease; and the last
    segment ends at a finite number whose distance to the duration is at
    most a millionth of the duration plus [2^-1040] (which matters for
    subnormal durations only). *)
Theorem alignSegments_partition
    (segments : list (SubtitleSegment float)) (duration : float) :
  (0 < sourceLength segments)%nat ->
  Z.of_nat (sourceLength segments) < 2 ^ 53 ->
  Z.of_nat (length segments) < 2 ^ 31 ->
  (0 <=? duration)%float = true -> (duration <=? 0x1p+1023)%float = true ->
  length (alignSegments segments duration) = length segments
  /\ map texts (alignSegments segments duration) = map texts segments
  /\ (forall a, alignSegments segments duration !! 0%nat = Some a -> startTime a = 0%float)
  /\ (forall i a b,
        alignSegments segments duration !! i = Some a ->
        alignSegments segments duration !! S i = Some b ->
        endTime a = startTime b /\ (endTime a =? startTime b)%float = true)
  /\ (forall i j a b, (i <= j)%nat ->
        alignSegments segments duration !! i = Some a ->
        alignSegments segments duration !! j = Some b ->
        (startTime a <=? startTime b)%float = true)
  /\ (exists a, last (alignSegments segments duration) = Some a
        /\ (endTime a <? infinity)%float = true
        /\ (value duration - ((1 # 1000000) * value duration + pow2 (-1040))
            <= value (endTime a)
            <= value duration + ((1 # 1000000) * value duration + pow2 (-1040)))%Q).
Proof.
  intros Hpos Hfit Hlen Hd0 Hdmax.
  split; [apply alignFrom_length|]. split; [apply alignFrom_texts|].
  split; [intros a; apply alignFrom_head|].
  destruct (leb_number_1023 duration Hd0 Hdmax) as [Hnum Hval].
  pose proof (shares_double_nonneg segments duration Hpos Hfit Hnum Hval) as Hshares.
  assert (Hzero : (0 <=? @ofNat float double 0)%float = true) by reflexivity.
  split; [|split].
  - intros i a b Ha Hb.
    pose proof (alignFrom_contiguous _ _ _ _ _ _ _ Ha Hb) as Heq.
    split; [exact Heq|]. rewrite Heq. apply Double.eqb_refl.
    destruct (alignFrom_double_after (totalChars segments) duration (@ofNat float double 0)
                segments (S i) b Hshares Hzero Hb) as (_ & Hb0 & _).
    now destruct (Double.leb_not_nan _ _ Hb0).
  - intros i j a b Hij Ha Hb.
    exact (alignFrom_double_sorted (totalChars segments) duration (@ofNat float double 0)
             segments i j a b Hshares Hzero Hij Ha Hb).
  - destruct (last (alignSegments segments duration)) as [a|] eqn:Hlast.
    + exists a. split; [reflexivity|].
      destruct (alignSegments_double_end segments duration a Hpos Hfit Hlen Hnum Hval Hlast)
        as [Hend Hnear].
      split; [now apply number_finite | exact Hnear].
    + apply last_None in Hlast. apply (f_equal length) in Hlast.
      unfold alignSegments in Hlast. rewrite alignFrom_length in Hlast.
      destruct segments; [cbn in Hpos; lia | discriminate].
Qed.

(** The same partition in exact arithmetic, where no range is needed:
    evaluated on rationals, on a non-empty list with a positive character
    count and a duration [>= 0], [alignSegments] keeps the length, the
    order and the texts, starts at 0, makes every segment end where the
    next one starts, never lets a start time decrease, and ends at the
    duration exactly. *)
Theorem alignSegments_exact (segments : list (SubtitleSegment Q)) (duration : Q) :
  segments <> [] -> (0 < totalChars segments)%Q -> (0 <= duration)%Q ->
  length (alignSegments segments duration) = length segments
  /\ map texts (alignSegments segments duration) = map texts segments
  /\ (forall a, alignSegments segments duration !! 0%nat = Some a -> startTime a = 0%Q)
  /\ (forall i a b,
        alignSegments segments duration !! i = Some a ->
        alignSegments segments duration !! S i = Some b ->
        endTime a = startTime b)
  /\ (forall i j a b, (i <= j)%nat ->
        alignSegments segments duration !! i = Some a ->
        alignSegments segments duration !! j = Some b ->
        (startTime a <= startTime b)%Q)
  /\ (exists a, last (alignSegments segments duration) = Some a
                /\ (endTime a == duration)%Q).
Proof.
  intros Hne Ht Hd. unfold alignSegments.
  split; [apply alignFrom_length|]. split; [apply alignFrom_texts|].
  split; [intros a; apply alignFrom_head|].
  split; [intros i a b; apply alignFrom_contiguous|].
  split; [intros i j a b; now apply alignFrom_sorted|].
  destruct (last (alignFrom (totalChars segments) duration (ofNat 0) segments))
    as [a|] eqn:Hlast.
  - exists a. split; [reflexivity|]. rewrite (alignFrom_last _ _ _ _ _ Hlast).
    rewrite <- totalChars_exact. cbn [ofNat exact]. change (inject_Z (Z.of_nat 0)) with 0%Q.
    field. intros Hz. rewrite Hz in Ht. now apply Qlt_irrefl in Ht.
  - apply last_None in Hlast. apply (f_equal length) in Hlast.
    rewrite alignFrom_length in Hlast. destruct segments; [congruence | discriminate].
Qed.

(** C10 (as amended). When every source text is empty the division by the
    character count is [0 / 0]: every returned [endTime] is NaN, and every
    [startTime] is NaN except that of the first segment, which is the
    initial cursor 0. No fallback is applied. *)
Theorem alignSegments_no_chars
    (segments : list (SubtitleSegment float)) (duration : float)
    (i : nat) (a : SubtitleSegment float) :
  segments <> [] ->
  Forall (fun s => original s = "") segments ->
  alignSegments segments duration !! i = Some a ->
  startTime a = match i with O => 0%float | S _ => nan end /\ endTime a = nan.
Proof.
  intros _ Hall. unfold alignSegments. rewrite (totalChars_no_chars _ Hall).
  now apply alignFrom_no_chars.
Qed.

(** C4, a witness: three segments over ten seconds. *)
Lemma alignSegments_partition_witness :
  let segments : list (SubtitleSegment float) :=
    [untimed 0 "a" "a"; untimed 1 "bc" "bc"; untimed 2 "defghij" "defghij"] in
  (forall i j a b, (i <= j)%nat ->
     alignSegments segments 10%float !! i = Some a ->
     alignSegments segments 10%float !! j = Some b ->
     (startTime a <=? startTime b)%float = true)
  /\ exists a, last (alignSegments segments 10%float) = Some a
       /\ (value 10%float - ((1 # 1000000) * value 10%float + pow2 (-1040))
           <= value (endTime a)
           <= value 10%float + ((1 # 1000000) * value 10%float + pow2 (-1040)))%Q.
Proof.
  intros segments.
  destruct (alignSegments_partition segments 10%float)
    as (_ & _ & _ & _ & Hsorted & a & Ha & _ & Hnear);
    [cbn; lia | reflexivity | reflexivity | reflexivity | reflexivity |].
  split; [exact Hsorted|]. exists a. split; [exact Ha | exact Hnear].
Defined.

(** C4, the counterexample: over the largest finite double the shares of
    three segments of 1, 2 and 2 characters add up to more than the
    doubles hold, and the last segment ends at infinity. *)
Lemma alignSegments_partition_counterexample :
  let segments : list (SubtitleSegment float) :=
    [untimed 0 "a" "a"; untimed 1 "bc" "bc"; untimed 2 "de" "de"] in
  let duration := 0x1.fffffffffffffp+1023%float in
  segments <> [] /\ sourceLength segments = 5%nat
  /\ (0 <=? duration)%float = true /\ (duration <? infinity)%float = true
  /\ map (fun s => (startTime s, endTime s)) (alignSegments segments duration)
     = [(0, 0x1.9999999999999p+1021);
        (0x1.9999999999999p+1021, 0x1.3333333333333p+1023);
        (0x1.3333333333333p+1023, infinity)]%float.
Proof.
  cbv zeta. split; [discriminate|]. repeat split.
Qed.

(** The rounding the tolerance of C4 is about: in doubles, three segments
    of 1, 2 and 4 characters over ten seconds end two units in the last
    place before 10. *)
Example alignSegments_rounding :
  map (fun s => (startTime s, endTime s))
      (alignSegments [untimed 0 "a" "a"; untimed 1 "bc" "bc"; untimed 2 "defg" "defg"] 10%float)
  = [(0, 0x1.6db6db6db6db6p+0);                       (* 1.4285714285714284 *)
     (0x1.6db6db6db6db6p+0, 0x1.1249249249248p+2);    (* 4.2857142857142847 *)
     (0x1.1249249249248p+2, 0x1.3ffffffffffffp+3)]%float. (* 9.9999999999999982 *)
Proof. reflexivity. Qed.

(** Why the tolerance of C4 has an absolute part: half of the smallest
    positive double rounds to 0, so two segments of one character over a
    duration of [2^-1074] both end at 0. *)
Example alignSegments_subnormal :
  map (fun s => (startTime s, endTime s))
      (alignSegments [untimed 0 "a" "a"; untimed 1 "b" "b"] 0x1p-1074%float)
  = [(0, 0); (0, 0)]%float.
Proof. reflexivity. Qed.

(** C10, a witness: two segments without source text. *)
Lemma alignSegments_no_chars_witness :
  exists a : SubtitleSegment float,
    alignSegments [untimed 0 "" ""; untimed 1 "" ""] 12%float !! 1%nat = Some a
    /\ startTime a = nan /\ endTime a = nan.
Proof.
  eexists. split; [reflexivity|].
  refine (alignSegments_no_chars [untimed 0 "" ""; untimed 1 "" ""] 12%float 1 _ _ _ _).
  - discriminate.
  - repeat constructor.
  - reflexivity.
Defined.

(** C10, the counterexample: the first segment starts at 0, not at NaN. *)
Lemma alignSegments_no_chars_counterexample :
  exists a : SubtitleSegment float,
    alignSegments [untimed 0 "" ""] 12%float = [a]
    /\ startTime a = 0%float
    /\ is_nan (startTime a) = false
    /\ is_nan (endTime a) = true.
Proof.
  eexists. split; [reflexivity|]. repeat split.
Qed.

(** *** Further properties of the aligner *)

(** The character count reads the source texts only. *)
Lemma totalChars_texts {num : Type} `{Arith num} (s1 s2 : list (SubtitleSegment num)) :
  map texts s1 = map texts s2 -> totalChars s1 = totalChars s2.
Proof.
  unfold totalChars. generalize (ofNat 0). revert s2.
  induction s1 as [|seg1 rest1 IH]; intros [|seg2 rest2] sum; try discriminate; [reflexivity|].
  cbn [map foldl]. intros [= _ Horiginal _ Hrest]. rewrite Horiginal. now apply IH.
Qed.

Lemma alignFrom_texts_only {num : Type} `{Arith num} (t d c : num)
    (s1 s2 : list (SubtitleSegment num)) :
  map texts s1 = map texts s2 -> alignFrom t d c s1 = alignFrom t d c s2.
Proof.
  revert s2 c.
  induction s1 as [|seg1 rest1 IH]; intros [|seg2 rest2] c; try discriminate; [reflexivity|].
  cbn [map alignFrom]. intros [= Hid Horiginal Htranslated Hrest].
  rewrite Hid, Horiginal, Htranslated. f_equal. now apply IH.
Qed.

(** X3. [alignSegments] reads the identifiers and the texts of its input
    and nothing else: two lists that differ in their times only are
    aligned to the same result, in doubles as in any arithmetic, and
    aligning a result again over the same duration gives it back. *)
Theorem alignSegments_ignores_times {num : Type} `{Arith num}
    (s1 s2 : list (SubtitleSegment num)) (duration : num) :
  map texts s1 = map texts s2 ->
  alignSegments s1 duration = alignSegments s2 duration
  /\ alignSegments (alignSegments s1 duration) duration = alignSegments s1 duration.
Proof.
  intros Htexts.
  assert (Hsame : forall l1 l2 : list (SubtitleSegment num),
            map texts l1 = map texts l2 -> alignSegments l1 duration = alignSegments l2 duration).
  { intros l1 l2 Hl. unfold alignSegments. rewrite (totalChars_texts l1 l2 Hl).
    now apply alignFrom_texts_only. }
  split; [now apply Hsame|].
  apply Hsame. unfold alignSegments. apply alignFrom_texts.
Qed.

(** X3, a witness: segments that carry times already. *)
Lemma alignSegments_ignores_times_witness :
  alignSegments [mkSubtitleSegment 0%nat "Hello" "Xin chao" 3%float 4%float;
                 mkSubtitleSegment 1%nat "World!!" "The gioi!!" 4%float 9%float] 12%float
  = alignSegments [untimed 0 "Hello" "Xin chao"; untimed 1 "World!!" "The gioi!!"] 12%float.
Proof.
  exact (proj1 (alignSegments_ignores_times _ _ 12%float eq_refl)).
Defined.

Lemma last_lookup_length {A : Type} (l : list A) (a : A) :
  last l = Some a -> l !! (length l - 1)%nat = Some a.
Proof.
  rewrite last_lookup. now replace (Nat.pred (length l)) with (length l - 1)%nat by lia.
Qed.

Lemma sourceLength_zero {num : Type} (segs : list (SubtitleSegment num)) :
  sourceLength segs = 0%nat -> Forall (fun s => original s = "") segs.
Proof.
  induction segs as [|seg rest IH]; [constructor|].
  rewrite sourceLength_cons. intros Hsum. constructor.
  - destruct (original seg); [reflexivity | cbn in Hsum; lia].
  - apply IH. lia.
Qed.

Local Open Scope float_scope.

(** In doubles, every aligned segment starts at a number that is not
    negative and ends at or after its start. *)
Lemma alignSegments_double_after (segments : list (SubtitleSegment float)) (duration : float)
    (i : nat) (a : SubtitleSegment float) :
  (0 < sourceLength segments)%nat ->
  (Z.of_nat (sourceLength segments) < 2 ^ 53)%Z ->
  (0 <=? duration) = true -> (duration <=? 0x1p+1023) = true ->
  alignSegments segments duration !! i = Some a ->
  (0 <=? startTime a) = true /\ (startTime a <=? endTime a) = true.
Proof.
  intros Hpos Hfit Hd0 Hdmax Ha.
  destruct (leb_number_1023 duration Hd0 Hdmax) as [Hnum Hval].
  pose proof (shares_double_nonneg segments duration Hpos Hfit Hnum Hval) as Hshares.
  assert (Hzero : (0 <=? @ofNat float double 0) = true) by reflexivity.
  destruct (alignFrom_double_after (totalChars segments) duration (@ofNat float double 0)
              segments i a Hshares Hzero Ha) as (_ & H0 & Hle). now split.
Qed.

(** In doubles, an aligned segment ends at or before the start of every
    segment after it. *)
Lemma alignSegments_double_apart (segments : list (SubtitleSegment float)) (duration : float)
    (i j : nat) (a b : SubtitleSegment float) :
  (0 < sourceLength segments)%nat ->
  (Z.of_nat (sourceLength segments) < 2 ^ 53)%Z ->
  (0 <=? duration) = true -> (duration <=? 0x1p+1023) = true ->
  (i < j)%nat ->
  alignSegments segments duration !! i = Some a ->
  alignSegments segments duration !! j = Some b ->
  (endTime a <=? startTime b) = true.
Proof.
  intros Hpos Hfit Hd0 Hdmax Hij Ha Hb.
  destruct (leb_number_1023 duration Hd0 Hdmax) as [Hnum Hval].
  pose proof (shares_double_nonneg segments duration Hpos Hfit Hnum Hval) as Hshares.
  assert (Hzero : (0 <=? @ofNat float double 0) = true) by reflexivity.
  destruct (lookup_lt_is_Some_2 (alignSegments segments duration) (S i)) as [n Hn].
  { apply lookup_lt_Some in Hb. lia. }
  rewrite (alignFrom_contiguous _ _ _ _ _ _ _ Ha Hn).
  exact (alignFrom_double_sorted (totalChars segments) duration (@ofNat float double 0)
           segments (S i) j n b Hshares Hzero ltac:(lia) Hn Hb).
Qed.

(** In doubles, no aligned segment ends after the last one. *)
Lemma alignSegments_double_before_last
    (segments : list (SubtitleSegment float)) (duration : float)
    (i : nat) (a z : SubtitleSegment float) :
  (0 < sourceLength segments)%nat ->
  (Z.of_nat (sourceLength segments) < 2 ^ 53)%Z ->
  (0 <=? duration) = true -> (duration <=? 0x1p+1023) = true ->
  alignSegments segments duration !! i = Some a ->
  last (alignSegments segments duration) = Some z ->
  (0 <=? endTime a) = true /\ (endTime a <=? endTime z) = true.
Proof.
  intros Hpos Hfit Hd0 Hdmax Ha Hlast.
  destruct (alignSegments_double_after segments duration i a Hpos Hfit Hd0 Hdmax Ha)
    as [H0 Hle].
  pose proof (leb_trans_nonneg 0 _ _ eq_refl H0 Hle) as He0. split; [exact He0|].
  apply last_lookup_length in Hlast.
  destruct (alignSegments_double_after segments duration _ z Hpos Hfit Hd0 Hdmax Hlast)
    as [Hz0 Hzle].
  pose proof (lookup_lt_Some _ _ _ Ha) as Hi.
  destruct (Nat.eq_dec i (length (alignSegments segments duration) - 1)%nat) as [->|Hne].
  - rewrite Hlast in Ha. injection Ha as <-. apply leb_refl.
    now destruct (leb_not_nan _ _ Hzle).
  - apply (leb_trans_nonneg _ (startTime z)); [exact He0 | | exact Hzle].
    apply (alignSegments_double_apart segments duration i
             (length (alignSegments segments duration) - 1)%nat a z);
      try assumption. lia.
Qed.

(** *** Proportionality *)

(** The duration assigned to an aligned segment, [endTime - startTime],
    as the rational number that the two doubles stand for. *)
Definition assigned (s : SubtitleSegment float) : Q :=
  (value (endTime s) - value (startTime s))%Q.

(** The length of the source text of a segment, as a rational. *)
Definition chars {num : Type} (s : SubtitleSegment num) : Q :=
  inject_Z (Z.of_nat (String.length (original s))).

(** How far rounding takes an assigned duration from the proportional
    share of a duration [D]. *)
Definition tolerance (D : Q) : Q := (pow2 (-49) * D + pow2 (-1072))%Q.

Lemma tolerance_nonneg (D : Q) : (0 <= D)%Q -> (0 <= tolerance D)%Q.
Proof.
  intros HD. unfold tolerance. pose proof (pow2_pos (-49)). pose proof (pow2_pos (-1072)).
  nra.
Qed.

(** In doubles, the duration assigned to a segment is its proportional
    share of the duration, up to the tolerance. *)
Lemma alignSegments_double_share (segments : list (SubtitleSegment float)) (duration : float)
    (k : nat) (s : SubtitleSegment float) :
  (0 < sourceLength segments)%nat ->
  (Z.of_nat (sourceLength segments) < 2 ^ 53)%Z ->
  (Z.of_nat (length segments) < 2 ^ 31)%Z ->
  (0 <=? duration) = true -> (duration <=? 0x1p+1023) = true ->
  alignSegments segments duration !! k = Some s ->
  number (startTime s) /\ number (endTime s)
  /\ (chars s / inject_Z (Z.of_nat (sourceLength segments)) * value duration
      - tolerance (value duration)
      <= assigned s
      <= chars s / inject_Z (Z.of_nat (sourceLength segments)) * value duration
         + tolerance (value duration))%Q.
Proof.
  intros Hpos Hfit Hlen Hd0 Hdmax Hs.
  destruct (leb_number_1023 duration Hd0 Hdmax) as [Hnum Hval].
  destruct (totalChars_double segments Hfit) as [Hnt Htv].
  assert (HT : (0 < value (totalChars segments))%Q) by (rewrite Htv, <- (Zlt_Qlt 0); lia).
  destruct (last (alignSegments segments duration)) as [z|] eqn:Hlast;
    [|apply last_None in Hlast; rewrite Hlast in Hs; discriminate].
  destruct (alignSegments_double_end segments duration z Hpos Hfit Hlen Hnum Hval Hlast)
    as [Hnz [_ Hz]].
  destruct (alignSegments_double_after segments duration k s Hpos Hfit Hd0 Hdmax Hs)
    as [Hs0 Hse].
  destruct (alignSegments_double_before_last segments duration k s z
              Hpos Hfit Hd0 Hdmax Hs Hlast) as [He0 Hez].
  pose proof (leb_number _ _ He0 Hez Hnz) as Hne.
  pose proof (leb_number _ _ Hs0 Hse Hne) as Hns.
  pose proof (leb_value _ _ Hne Hnz Hez) as Hev.
  split; [exact Hns|]. split; [exact Hne|].
  unfold alignSegments in Hs.
  pose proof (alignFrom_share _ _ _ _ _ _ Hs) as Hend.
  destruct (alignFrom_original _ _ _ _ _ _ Hs) as (seg & Hseg & Horig).
  pose proof (Forall_lookup_1 _ _ _ _ (sourceLength_bound segments) Hseg) as Hbound.
  cbn beta in Hbound. rewrite <- Horig in Hbound.
  set (n := String.length (original s)) in *.
  destruct (share_double_near n (totalChars segments) duration Hnt HT Hnum Hval)
    as [Hnsh Hnear]; [lia | rewrite Htv, <- Zle_Qle; lia |].
  set (sh := mul (div (ofNat n) (totalChars segments)) duration) in *.
  assert (Hsum : number (add (startTime s) sh)) by (rewrite <- Hend; exact Hne).
  pose proof (add_number_near (startTime s) sh Hns Hnsh Hsum) as Hadd.
  change (startTime s + sh)%float with (add (startTime s) sh) in Hadd. rewrite <- Hend in Hadd.
  pose proof (value_nonneg _ Hns) as Hvs. pose proof (value_nonneg _ Hnsh) as Hvsh.
  pose proof (value_nonneg _ Hnum) as HD.
  pose proof (share_ge_0 (value (totalChars segments)) n HT) as Ha.
  assert (Ha1 : (share (value (totalChars segments)) n <= 1)%Q).
  { unfold share. apply Qle_shift_div_r; [exact HT|]. rewrite Qmult_1_l, Htv, <- Zle_Qle. lia. }
  assert (Hshare : (chars s / inject_Z (Z.of_nat (sourceLength segments))
                    == share (value (totalChars segments)) n)%Q).
  { unfold share, chars. fold n. now rewrite Htv. }
  unfold assigned, tolerance. rewrite Hshare.
  set (a := share (value (totalChars segments)) n) in *.
  assert (Hp : (0 <= a * value duration <= value duration)%Q) by (split; nra).
  assert (H49 : (pow2 (-49) == 1 # 562949953421312)%Q) by reflexivity.
  assert (H50 : (pow2 (-50) == 1 # 1125899906842624)%Q) by reflexivity.
  assert (H1072 : (pow2 (-1072) == 4 * tiny)%Q).
  { change (pow2 (-1072)) with (pow2 (2 + -1074)). now rewrite pow2_add. }
  assert (H1073 : (pow2 (-1073) == 2 * tiny)%Q).
  { change (pow2 (-1073)) with (pow2 (1 + -1074)). now rewrite pow2_add. }
  assert (E73 : (pow2 (-1073) * (value duration + 1) == 2 * (tiny * value duration) + 2 * tiny)%Q)
    by (rewrite H1073; ring).
  pose proof tiny_pos as Htiny. pose proof tiny_small as Hsmall.
  assert (Hy : (0 <= tiny * value duration
                <= (1 # 1267650600228229401496703205376) * value duration)%Q) by (split; nra).
  rewrite pow2_1040 in Hz. rewrite H50, E73 in Hnear. rewrite H49, H1072.
  unfold above, below in Hadd. rewrite eps_value in Hadd.
  set (p := (a * value duration)%Q) in *. set (y := (tiny * value duration)%Q) in *.
  set (vs := value (startTime s)) in *. set (ve := value (endTime s)) in *.
  set (vz := value (endTime z)) in *. set (vsh := value sh) in *.
  split; lra.
Qed.

(** C5 (as amended). In doubles, alignment is proportional to the length
    of the source text up to rounding. With some characters, fewer than
    [2^53] of them in fewer than [2^31] segments, and a duration [D] from 0
    to [2^1023], every aligned segment ends at its start plus
    [length / totalChars * duration] as the code computes it, at finite
    times, and the duration it is assigned, [endTime - startTime], is
    within [2^-49 * D + 2^-1072] of [length / total * D]. Hence the
    durations [d1] and [d2] assigned to two segments with source lengths
    [L1] and [L2] satisfy [d1 * L2 = d2 * L1] up to that tolerance times
    [L1 + L2], and, when [L2] and [d2] are positive, [d1 / d2] is [L1 / L2]
    up to that bound divided by [L2 * d2]. The segments "Hello" and
    "World!!" with duration 12 span exactly [0, 5] and [5, 12]. *)
Theorem alignSegments_proportional
    (segments : list (SubtitleSegment float)) (duration : float) :
  (0 < sourceLength segments)%nat ->
  (Z.of_nat (sourceLength segments) < 2 ^ 53)%Z ->
  (Z.of_nat (length segments) < 2 ^ 31)%Z ->
  (0 <=? duration) = true -> (duration <=? 0x1p+1023) = true ->
  (forall k s, alignSegments segments duration !! k = Some s ->
     endTime s = (startTime s
                  + ofNat (String.length (original s)) / totalChars segments * duration)%float
     /\ (startTime s <? infinity) = true /\ (endTime s <? infinity) = true
     /\ (chars s / inject_Z (Z.of_nat (sourceLength segments)) * value duration
         - tolerance (value duration)
         <= assigned s
         <= chars s / inject_Z (Z.of_nat (sourceLength segments)) * value duration
            + tolerance (value duration))%Q)
  /\ (forall i j a b,
        alignSegments segments duration !! i = Some a ->
        alignSegments segments duration !! j = Some b ->
        (- ((chars a + chars b) * tolerance (value duration))
         <= assigned a * chars b - assigned b * chars a
         <= (chars a + chars b) * tolerance (value duration))%Q
        /\ ((0 < chars b)%Q -> (0 < assigned b)%Q ->
            (chars a / chars b
             - (chars a + chars b) * tolerance (value duration) / (chars b * assigned b)
             <= assigned a / assigned b
             <= chars a / chars b
                + (chars a + chars b) * tolerance (value duration) / (chars b * assigned b))%Q))
  /\ alignSegments [untimed 0 "Hello" "Xin chao"; untimed 1 "World!!" "The gioi!!"] 12%float
     = [mkSubtitleSegment 0%nat "Hello" "Xin chao" 0%float 5%float;
        mkSubtitleSegment 1%nat "World!!" "The gioi!!" 5%float 12%float].
Proof.
  intros Hpos Hfit Hlen Hd0 Hdmax.
  split; [|split; [|reflexivity]].
  - intros k s Hs.
    destruct (alignSegments_double_share segments duration k s Hpos Hfit Hlen Hd0 Hdmax Hs)
      as (Hns & Hne & Hshare).
    split; [exact (alignFrom_share _ _ _ _ _ _ Hs)|].
    split; [now apply number_finite|]. split; [now apply number_finite | exact Hshare].
  - intros i j a b Ha Hb.
    destruct (alignSegments_double_share segments duration i a Hpos Hfit Hlen Hd0 Hdmax Ha)
      as (_ & _ & Hsa).
    destruct (alignSegments_double_share segments duration j b Hpos Hfit Hlen Hd0 Hdmax Hb)
      as (_ & _ & Hsb).
    assert (HLa : (0 <= chars a)%Q) by (unfold chars; rewrite <- (Zle_Qle 0); lia).
    assert (HLb : (0 <= chars b)%Q) by (unfold chars; rewrite <- (Zle_Qle 0); lia).
    assert (HT : (0 < inject_Z (Z.of_nat (sourceLength segments)))%Q)
      by (rewrite <- (Zlt_Qlt 0); lia).
    set (T := inject_Z (Z.of_nat (sourceLength segments))) in *.
    set (tol := tolerance (value duration)) in *.
    set (u := (value duration / T)%Q).
    assert (Ea : (chars a / T * value duration == chars a * u)%Q) by (unfold u; field; lra).
    assert (Eb : (chars b / T * value duration == chars b * u)%Q) by (unfold u; field; lra).
    rewrite Ea in Hsa. rewrite Eb in Hsb.
    assert (Hcross : (- ((chars a + chars b) * tol)
                      <= assigned a * chars b - assigned b * chars a
                      <= (chars a + chars b) * tol)%Q).
    { set (da := assigned a) in *. set (db := assigned b) in *.
      set (La := chars a) in *. set (Lb := chars b) in *.
      assert (H1 : ((La * u - tol) * Lb <= da * Lb)%Q) by (apply Qmult_le_compat_r; lra).
      assert (H2 : (da * Lb <= (La * u + tol) * Lb)%Q) by (apply Qmult_le_compat_r; lra).
      assert (H3 : ((Lb * u - tol) * La <= db * La)%Q) by (apply Qmult_le_compat_r; lra).
      assert (H4 : (db * La <= (Lb * u + tol) * La)%Q) by (apply Qmult_le_compat_r; lra).
      split; lra. }
    split; [exact Hcross|].
    intros HLb' Hdb.
    set (da := assigned a) in *. set (db := assigned b) in *.
    set (La := chars a) in *. set (Lb := chars b) in *.
    assert (Hc : (0 < Lb * db)%Q) by nra.
    assert (Hinv : (0 < / (Lb * db))%Q) by (now apply Qinv_lt_0_compat).
    assert (Eratio : (da / db == La / Lb + (da * Lb - db * La) * / (Lb * db))%Q)
      by (field; split; lra).
    assert (Ebound : ((La + Lb) * tol / (Lb * db) == (La + Lb) * tol * / (Lb * db))%Q)
      by reflexivity.
    rewrite Eratio, Ebound.
    set (c := (/ (Lb * db))%Q) in *. set (X := (da * Lb - db * La)%Q) in *.
    set (B := ((La + Lb) * tol)%Q) in *.
    assert (H1 : (- B * c <= X * c)%Q) by (apply Qmult_le_compat_r; lra).
    assert (H2 : (X * c <= B * c)%Q) by (apply Qmult_le_compat_r; lra).
    split; lra.
Qed.

(** C5, a witness: the sources "abc", "d" and "efg" over ten seconds; the
    durations of the first two segments are as 3 to 1 up to the tolerance. *)
Lemma alignSegments_proportional_witness :
  exists a b : SubtitleSegment float,
    alignSegments [untimed 0 "abc" "abc"; untimed 1 "d" "d"; untimed 2 "efg" "efg"] 10%float
      !! 0%nat = Some a
    /\ alignSegments [untimed 0 "abc" "abc"; untimed 1 "d" "d"; untimed 2 "efg" "efg"] 10%float
         !! 1%nat = Some b
    /\ (- ((chars a + chars b) * tolerance (value 10%float))
        <= assigned a * chars b - assigned b * chars a
        <= (chars a + chars b) * tolerance (value 10%float))%Q.
Proof.
  destruct (alignSegments_proportional
              [untimed 0 "abc" "abc"; untimed 1 "d" "d"; untimed 2 "efg" "efg"] 10%float)
    as (_ & Hratio & _); [cbn; lia | reflexivity | reflexivity | reflexivity | reflexivity |].
  eexists. eexists. split; [reflexivity|]. split; [reflexivity|].
  exact (proj1 (Hratio 0%nat 1%nat _ _ eq_refl eq_refl)).
Defined.

(** C5, the counterexample: for the sources "abc", "d" and "efg" over ten
    seconds the durations of the first two segments are not in the ratio
    3 to 1: the first is longer than three times the second, as rational
    numbers and when the ratio is taken in doubles. *)
Lemma alignSegments_proportional_counterexample :
  exists a b c : SubtitleSegment float,
    alignSegments [untimed 0 "abc" "abc"; untimed 1 "d" "d"; untimed 2 "efg" "efg"] 10%float
    = [a; b; c]
    /\ (assigned b * 3 < assigned a * 1)%Q
    /\ ~ (assigned a / assigned b == 3 / 1)%Q
    /\ ((endTime a - startTime a) / (endTime b - startTime b) =? 3 / 1)%float = false
    /\ (3 / 1 <? (endTime a - startTime a) / (endTime b - startTime b))%float = true.
Proof.
  do 3 eexists. split; [reflexivity|].
  split; [vm_compute; reflexivity|]. split; [vm_compute; discriminate|].
  split; reflexivity.
Qed.

(** X4. With some characters, fewer than [2^53] of them in fewer than
    [2^31] segments, and a duration from 0 to [2^1023], the segments that
    [alignSegments] computes in doubles do not overlap: every segment
    starts at a number that is not negative, ends at or after its start,
    at a finite number, and ends at or before the start of every segment
    after it. *)
Theorem alignSegments_ordered (segments : list (SubtitleSegment float)) (duration : float) :
  (0 < sourceLength segments)%nat ->
  (Z.of_nat (sourceLength segments) < 2 ^ 53)%Z ->
  (Z.of_nat (length segments) < 2 ^ 31)%Z ->
  (0 <=? duration) = true -> (duration <=? 0x1p+1023) = true ->
  (forall i a, alignSegments segments duration !! i = Some a ->
     (0 <=? startTime a) = true /\ (startTime a <=? endTime a) = true
     /\ (endTime a <? infinity) = true)
  /\ (forall i j a b, (i < j)%nat ->
        alignSegments segments duration !! i = Some a ->
        alignSegments segments duration !! j = Some b ->
        (endTime a <=? startTime b) = true).
Proof.
  intros Hpos Hfit Hlen Hd0 Hdmax.
  destruct (leb_number_1023 duration Hd0 Hdmax) as [Hnum Hval].
  split.
  - intros i a Ha.
    destruct (alignSegments_double_after segments duration i a Hpos Hfit Hd0 Hdmax Ha)
      as [H0 Hle].
    split; [exact H0|]. split; [exact Hle|].
    destruct (last (alignSegments segments duration)) as [z|] eqn:Hlast.
    + destruct (alignSegments_double_end segments duration z Hpos Hfit Hlen Hnum Hval Hlast)
        as [Hend _].
      destruct (alignSegments_double_before_last segments duration i a z
                  Hpos Hfit Hd0 Hdmax Ha Hlast) as [He0 Hez].
      exact (number_finite _ (leb_number _ _ He0 Hez Hend)).
    + apply last_None in Hlast. rewrite Hlast in Ha. discriminate.
  - intros i j a b Hij Ha Hb.
    exact (alignSegments_double_apart segments duration i j a b Hpos Hfit Hd0 Hdmax Hij Ha Hb).
Qed.

(** X4, a witness: three segments over ten seconds; the first ends
    before the third starts. *)
Lemma alignSegments_ordered_witness :
  exists a b,
    alignSegments [untimed 0 "a" "a"; untimed 1 "bc" "bc"; untimed 2 "defghij" "defghij"] 10
      !! 0%nat = Some a
    /\ alignSegments [untimed 0 "a" "a"; untimed 1 "bc" "bc"; untimed 2 "defghij" "defghij"] 10
         !! 2%nat = Some b
    /\ (endTime a <=? startTime b) = true.
Proof.
  destruct (alignSegments_ordered
              [untimed 0 "a" "a"; untimed 1 "bc" "bc"; untimed 2 "defghij" "defghij"] 10)
    as [_ Hsep]; [cbn; lia | reflexivity | reflexivity | reflexivity | reflexivity |].
  eexists. eexists. split; [reflexivity|]. split; [reflexivity|].
  apply (Hsep 0%nat 2%nat); [lia | reflexivity | reflexivity].
Defined.

(** A segment without source text ends where it starts. *)
Lemma alignSegments_double_empty
    (segments : list (SubtitleSegment float)) (duration : float)
    (i : nat) (a : SubtitleSegment float) :
  (0 < sourceLength segments)%nat ->
  (Z.of_nat (sourceLength segments) < 2 ^ 53)%Z ->
  (0 <=? duration) = true -> (duration <=? 0x1p+1023) = true ->
  alignSegments segments duration !! i = Some a ->
  original a = "" ->
  (0 <=? endTime a) = true /\ (endTime a =? startTime a) = true.
Proof.
  intros Hpos Hfit Hd0 Hdmax Ha Hempty.
  destruct (leb_number_1023 duration Hd0 Hdmax) as [Hnum Hval].
  pose proof (shares_double_nonneg segments duration Hpos Hfit Hnum Hval) as Hshares.
  assert (Hzero : (0 <=? @ofNat float double 0) = true) by reflexivity.
  destruct (alignFrom_double_after (totalChars segments) duration (@ofNat float double 0)
              segments i a Hshares Hzero Ha) as (_ & H0 & Hle).
  split; [exact (leb_trans_nonneg 0 _ _ eq_refl H0 Hle)|].
  rewrite (alignFrom_share _ _ _ _ _ _ Ha), Hempty.
  destruct (totalChars_double segments Hfit) as [Ht Htv].
  assert (HT : (0 < value (totalChars segments))%Q) by (rewrite Htv, <- (Zlt_Qlt 0); lia).
  destruct (zero_share (totalChars segments) duration Ht HT Hnum) as [sgn Hshare].
  exact (add_zero_r (startTime a) _ sgn H0 Hshare).
Qed.

(** X5. A single segment with some source text, fewer than [2^53]
    characters, over a finite duration that is not negative, spans the
    whole duration without any rounding: it starts at 0 and ends at a
    double equal to the duration. *)
Theorem alignSegments_single (seg : SubtitleSegment float) (duration : float) :
  original seg <> "" ->
  (Z.of_nat (String.length (original seg)) < 2 ^ 53)%Z ->
  (0 <=? duration) = true -> (duration <? infinity) = true ->
  exists e : float,
    alignSegments [seg] duration
    = [mkSubtitleSegment (id seg) (original seg) (translated seg) 0 e]
    /\ (e =? duration) = true.
Proof.
  intros Hne Hfit Hd0 Hdfin.
  pose proof (finite_number duration Hd0 Hdfin) as Hnum.
  eexists. split; [reflexivity|].
  assert (Hlen : (0 < String.length (original seg))%nat).
  { destruct (original seg); [congruence | cbn; lia]. }
  assert (Hsrc : sourceLength [seg] = String.length (original seg)).
  { unfold sourceLength. cbn. lia. }
  destruct (totalChars_double [seg] ltac:(rewrite Hsrc; exact Hfit)) as [Ht Htv].
  rewrite Hsrc in Htv.
  assert (HT : (0 < value (totalChars [seg]))%Q) by (rewrite Htv, <- (Zlt_Qlt 0); lia).
  destruct (of_uint63_exact (Z.of_nat (String.length (original seg))) ltac:(lia)) as [Hl Hlv].
  assert (Hone : (value 1 == 1)%Q) by (vm_compute; reflexivity).
  destruct (div_exact _ (totalChars [seg]) 1 Hl Ht I HT) as [Hq Hqv].
  { rewrite Hlv, Htv, Hone. ring. }
  destruct (mul_exact _ duration duration Hq Hnum Hnum) as [Hs Hsv].
  { rewrite Hqv, Hone. ring. }
  destruct (add_zero_l _ Hs) as [He Hev].
  apply value_eqb; [exact He | exact Hnum |].
  rewrite <- Hsv. exact Hev.
Qed.

(** X5, a witness: one sentence over a duration that is no round number. *)
Lemma alignSegments_single_witness :
  exists e : float,
    alignSegments [untimed 0 "Hello world." "Xin chao."] 0x1.3333333333333p+1
    = [mkSubtitleSegment 0%nat "Hello world." "Xin chao." 0 e]
    /\ (e =? 0x1.3333333333333p+1) = true.
Proof.
  apply (alignSegments_single (untimed 0 "Hello world." "Xin chao.") 0x1.3333333333333p+1);
    [discriminate | cbn; lia | reflexivity | reflexivity].
Defined.

(** Once aligned over a duration from [2^-1022] to [2^1023], the last
    segment does not end at 0: it ends near the duration, or at NaN when
    there is no character at all. *)
Lemma alignSegments_double_settled (segments : list (SubtitleSegment float)) (duration : float)
    (z : SubtitleSegment float) :
  (Z.of_nat (sourceLength segments) < 2 ^ 53)%Z ->
  (Z.of_nat (length segments) < 2 ^ 31)%Z ->
  (0x1p-1022 <=? duration) = true -> (duration <=? 0x1p+1023) = true ->
  last (alignSegments segments duration) = Some z ->
  (endTime z =? 0) = false.
Proof.
  intros Hfit Hlen Hdmin Hdmax Hlast.
  assert (Hd0 : (0 <=? duration) = true).
  { exact (leb_trans_nonneg 0 0x1p-1022 duration eq_refl eq_refl Hdmin). }
  destruct (leb_number_1023 duration Hd0 Hdmax) as [Hnum Hval].
  destruct (Nat.eq_dec (sourceLength segments) 0%nat) as [Hnone|Hsome].
  - apply last_lookup_length in Hlast. unfold alignSegments in Hlast.
    rewrite (totalChars_no_chars _ (sourceLength_zero segments Hnone)) in Hlast.
    apply (alignFrom_no_chars _ _ _ _ _ (sourceLength_zero segments Hnone)) in Hlast.
    destruct Hlast as [_ ->]. reflexivity.
  - destruct (alignSegments_double_end segments duration z ltac:(lia) Hfit Hlen Hnum Hval Hlast)
      as [Hend [Hlo _]].
    apply positive_not_zero; [exact Hend|].
    assert (Hmin : (pow2 (-1022) <= value duration)%Q).
    { assert (Hv : (value 0x1p-1022 == pow2 (-1022))%Q) by (vm_compute; reflexivity).
      rewrite <- Hv. apply leb_value; [exact I | exact Hnum | exact Hdmin]. }
    assert (H1022 : (pow2 (-1022) == 4503599627370496 * tiny)%Q).
    { change (pow2 (-1022)) with (pow2 (52 + -1074)). now rewrite pow2_add. }
    pose proof pow2_1040 as H1040. pose proof tiny_pos as Htiny.
    rewrite H1022 in Hmin. rewrite H1040 in Hlo. lra.
Qed.

Local Close Scope float_scope.

End Aligner.

(** ** The generation orchestrator *)

Module Service.

(** A request to [ai.models.generateContent], in the two shapes the code
    sends: a prompt answered as JSON under the response schema (an array of
    objects with the required string fields [original] and [translated]),
    and a text to be spoken by a prebuilt voice. *)
Inductive Request : Type :=
| TextRequest (model contents : string)
| AudioRequest (model text voiceName : string).

(** What the code reads of a response: [response.text], and the
    [inlineData.data] of the first part of the first candidate, either of
    which may be absent. *)
Record Response : Type := mkResponse {
  text : option string;
  inlineData : option string
}.

(** An element of the parsed answer of the translator. *)
Record RawSegment : Type := mkRawSegment {
  raw_original : string;
  raw_translated : string
}.

(** The environment of the service: [process.env.API_KEY], the remote
    model behind the client made for a key, and [JSON.parse] on an answer
    that follows the response schema. *)
Record Host : Type := mkHost {
  API_KEY : option string;
  generateContent : string -> Request -> Outcome Response;
  JSON_parse : string -> Outcome (list RawSegment)
}.

(** An asynchronous computation: run after the remote calls already made,
    it yields an outcome and the calls made so far, in order. *)
Definition Async (A : Type) : Type := list Request -> Outcome A * list Request.

Definition Async_ret {A} (a : A) : Async A := fun log => (Return a, log).

Definition Async_bind {A B} (f : A -> Async B) (m : Async A) : Async B :=
  fun log =>
    match m log with
    | (Return a, log') => f a log'
    | (Throw e, log') => (Throw e, log')
    end.

#[export] Instance Async_mret : MRet Async := @Async_ret.
#[export] Instance Async_mbind : MBind Async := @Async_bind.

Definition throw {A} (e : exn) : Async A := fun log => (Throw e, log).

Definition lift {A} (o : Outcome A) : Async A := fun log => (o, log).

(** A truthy string: present and not empty. *)
Definition truthy (s : option string) : option string :=
  match s with
  | Some EmptyString => None
  | other => other
  end.

Definition quote : string := String (ascii_of_nat 34) EmptyString.
Definition newline : string := String (ascii_of_nat 10) EmptyString.

Section Service.

Variable host : Host.

(** [getClient()]: the client is determined by its key. *)
Definition getClient : Async string :=
  match truthy (API_KEY host) with
  | Some apiKey => mret apiKey
  | None => throw (Error "API Key is missing. Please set the API_KEY environment variable.")
  end.

(** [await ai.models.generateContent(request)]. *)
Definition await_generateContent (ai : string) (request : Request) : Async Response :=
  fun log => (generateContent host ai request, log ++ [request]).

Definition prompt (text : string) (sourceLang targetLang : Language) : string :=
  String.concat "" [
    newline;
    "    You are a professional translator and subtitle aligner."; newline;
    "    Task:"; newline;
    "    1. Split the following "; Language_text sourceLang;
    " text into logical sentences or phrases suitable for subtitles."; newline;
    "    2. Translate each sentence into "; Language_text targetLang; "."; newline;
    "    3. Return a JSON array of objects, where each object has "; quote; "original"; quote;
    " and "; quote; "translated"; quote; " fields."; newline;
    newline;
    "    Input Text: "; quote; text; quote; newline;
    "  " ].

(** [translateAndSegment(text, sourceLang)]. *)
Definition translateAndSegment (text : string) (sourceLang : Language)
  : Async (list (SubtitleSegment float)) :=
  ai ← getClient;
  let targetLang := match sourceLang with ENGLISH => VIETNAMESE | VIETNAMESE => ENGLISH end in
  let prompt := prompt text sourceLang targetLang in
  response ← await_generateContent ai (TextRequest "gemini-2.5-flash" prompt);
  rawSegments ← lift (JSON_parse host (default "[]" (truthy (Service.text response))));
  mret (imap (fun index seg =>
                {| id := index;
                   original := raw_original seg;
                   translated := raw_translated seg;
                   startTime := 0%float;
                   endTime := 0%float |}) rawSegments).

(** [generateSpeech(text, voiceName)]. *)
Definition generateSpeech (text voiceName : string) : Async string :=
  ai ← getClient;
  response ← await_generateContent ai (AudioRequest "gemini-2.5-flash-preview-tts" text voiceName);
  let audioData := inlineData response in
  match truthy audioData with
  | None => throw (Error "Failed to generate audio.")
  | Some audioData => mret audioData
  end.

(** [processContent(text, language, voiceName)]. *)
Definition processContent (text : string) (language : Language) (voiceName : string)
  : Async GenerationResult :=
  segments ← translateAndSegment text language;
  let fullTextToSpeak := String.concat " " (map original segments) in
  audioBase64 ← generateSpeech fullTextToSpeak voiceName;
  mret {| audioBase64 := audioBase64; segments := segments |}.

(** *** The stages, case by case *)

Definition textRequest (text : string) (sourceLang : Language) : Request :=
  TextRequest "gemini-2.5-flash"
    (prompt text sourceLang (match sourceLang with ENGLISH => VIETNAMESE | VIETNAMESE => ENGLISH end)).

Definition audioRequest (text voiceName : string) : Request :=
  AudioRequest "gemini-2.5-flash-preview-tts" text voiceName.

(** The segments made of a parsed answer. *)
Definition indexed (rawSegments : list RawSegment) : list (SubtitleSegment float) :=
  imap (fun index seg =>
          mkSubtitleSegment index (raw_original seg) (raw_translated seg) 0%float 0%float)
       rawSegments.

Lemma getClient_run (log : list Request) :
  getClient log
  = match truthy (API_KEY host) with
    | Some apiKey => (Return apiKey, log)
    | None => (Throw (Error "API Key is missing. Please set the API_KEY environment variable."), log)
    end.
Proof. unfold getClient. now destruct (truthy (API_KEY host)). Qed.

(** [translateAndSegment], unfolded into its three points of failure. *)
Lemma translateAndSegment_run (text : string) (sourceLang : Language) (log : list Request) :
  translateAndSegment text sourceLang log
  = match truthy (API_KEY host) with
    | None => (Throw (Error "API Key is missing. Please set the API_KEY environment variable."), log)
    | Some apiKey =>
        match generateContent host apiKey (textRequest text sourceLang) with
        | Throw e => (Throw e, log ++ [textRequest text sourceLang])
        | Return response =>
            match JSON_parse host (default "[]" (truthy (Service.text response))) with
            | Throw e => (Throw e, log ++ [textRequest text sourceLang])
            | Return rawSegments => (Return (indexed rawSegments), log ++ [textRequest text sourceLang])
            end
        end
    end.
Proof.
  unfold translateAndSegment, mbind, Async_mbind, Async_bind. rewrite getClient_run.
  destruct (truthy (API_KEY host)) as [apiKey|]; [|reflexivity].
  unfold await_generateContent, textRequest.
  destruct (generateContent host apiKey _) as [response|e]; [|reflexivity].
  unfold lift. now destruct (JSON_parse host _).
Qed.

(** [generateSpeech], unfolded into its three points of failure. *)
Lemma generateSpeech_run (text voiceName : string) (log : list Request) :
  generateSpeech text voiceName log
  = match truthy (API_KEY host) with
    | None => (Throw (Error "API Key is missing. Please set the API_KEY environment variable."), log)
    | Some apiKey =>
        match generateContent host apiKey (audioRequest text voiceName) with
        | Throw e => (Throw e, log ++ [audioRequest text voiceName])
        | Return response =>
            match truthy (inlineData response) with
            | None => (Throw (Error "Failed to generate audio."), log ++ [audioRequest text voiceName])
            | Some audioData => (Return audioData, log ++ [audioRequest text voiceName])
            end
        end
    end.
Proof.
  unfold generateSpeech, mbind, Async_mbind, Async_bind. rewrite getClient_run.
  destruct (truthy (API_KEY host)) as [apiKey|]; [|reflexivity].
  unfold await_generateContent, audioRequest.
  destruct (generateContent host apiKey _) as [response|e]; [|reflexivity].
  now destruct (truthy (inlineData response)).
Qed.

Lemma processContent_run (text : string) (language : Language) (voiceName : string)
      (log : list Request) :
  processContent text language voiceName log
  = match translateAndSegment text language log with
    | (Throw e, log') => (Throw e, log')
    | (Return segments, log') =>
        match generateSpeech (String.concat " " (map original segments)) voiceName log' with
        | (Throw e, log'') => (Throw e, log'')
        | (Return audioBase64, log'') => (Return (mkGenerationResult audioBase64 segments), log'')
        end
    end.
Proof.
  unfold processContent, mbind, Async_mbind, Async_bind.
  destruct (translateAndSegment text language log) as [[segments|e] log']; [|reflexivity].
  now destruct (generateSpeech _ voiceName log') as [[audio|e] log''].
Qed.

Lemma indexed_lookup (rawSegments : list RawSegment) (i : nat) (seg : SubtitleSegment float) :
  indexed rawSegments !! i = Some seg ->
  exists raw, rawSegments !! i = Some raw
              /\ seg = mkSubtitleSegment i (raw_original raw) (raw_translated raw) 0%float 0%float.
Proof.
  unfold indexed. rewrite list_lookup_imap.
  destruct (rawSegments !! i) as [raw|]; cbn; [|discriminate].
  intros [= <-]. now exists raw.
Qed.

Lemma truthy_not_empty (s : option string) (v : string) : truthy s = Some v -> v <> "".
Proof. destruct s as [[|c s]|]; cbn; intros [= <-]; discriminate. Qed.

(** A successful translation stage has made exactly the text request. *)
Lemma translateAndSegment_Return (text : string) (sourceLang : Language)
      (segs : list (SubtitleSegment float)) (log : list Request) :
  translateAndSegment text sourceLang [] = (Return segs, log) ->
  exists apiKey rawSegments,
    truthy (API_KEY host) = Some apiKey
    /\ segs = indexed rawSegments
    /\ log = [textRequest text sourceLang].
Proof.
  rewrite translateAndSegment_run.
  destruct (truthy (API_KEY host)) as [apiKey|]; [|discriminate].
  destruct (generateContent host apiKey _) as [response|e]; [|discriminate].
  destruct (JSON_parse host _) as [rawSegments|e]; [|discriminate].
  intros [= <- <-]. now exists apiKey, rawSegments.
Qed.

(** The source texts of the segments are those of the parsed answer. *)
Lemma indexed_original (rawSegments : list RawSegment) :
  map original (indexed rawSegments) = map raw_original rawSegments.
Proof.
  apply list_eq. intros i. unfold indexed.
  rewrite !list_lookup_fmap, list_lookup_imap. now destruct (rawSegments !! i).
Qed.

Lemma indexed_length (rawSegments : list RawSegment) :
  length (indexed rawSegments) = length rawSegments.
Proof. unfold indexed. apply length_imap. Qed.

(** C6. For every input text, language and voice: when the translator
    answers and its answer parses, the translation stage returns one
    segment for each element of the parsed answer, in the order of the
    answer, after the text request alone; the [i]-th segment holds the
    source text and the translation of the [i]-th element, the index [i]
    and the timestamps 0 and 0. The next remote call of the orchestrator
    asks the speech model for the source texts of these segments joined, in
    order, by one space, with the chosen voice: the text spoken is built
    from the segments, and the input text occurs in the first request only.
    A result, when there is one, holds these segments. The translation
    stage returns segments in no other way. *)
Theorem processContent_segments_and_speech
    (text : string) (language : Language) (voiceName : string) :
  (forall apiKey response rawSegments,
     truthy (API_KEY host) = Some apiKey ->
     generateContent host apiKey (textRequest text language) = Return response ->
     JSON_parse host (default "[]" (truthy (Service.text response))) = Return rawSegments ->
     exists segs,
       translateAndSegment text language [] = (Return segs, [textRequest text language])
       /\ length segs = length rawSegments
       /\ (forall i raw, rawSegments !! i = Some raw ->
             segs !! i = Some (mkSubtitleSegment i (raw_original raw) (raw_translated raw)
                                                 0%float 0%float))
       /\ (forall i seg, segs !! i = Some seg ->
             id seg = i /\ startTime seg = 0%float /\ endTime seg = 0%float)
       /\ String.concat " " (map original segs)
          = String.concat " " (map raw_original rawSegments)
       /\ snd (processContent text language voiceName [])
          = [textRequest text language;
             AudioRequest "gemini-2.5-flash-preview-tts"
                          (String.concat " " (map original segs)) voiceName]
       /\ (forall result, fst (processContent text language voiceName []) = Return result ->
             Types.segments result = segs))
  /\ (forall segs log, translateAndSegment text language [] = (Return segs, log) ->
      exists apiKey response rawSegments,
        truthy (API_KEY host) = Some apiKey
        /\ generateContent host apiKey (textRequest text language) = Return response
        /\ JSON_parse host (default "[]" (truthy (Service.text response))) = Return rawSegments
        /\ log = [textRequest text language]
        /\ length segs = length rawSegments
        /\ (forall i raw, rawSegments !! i = Some raw ->
              segs !! i = Some (mkSubtitleSegment i (raw_original raw) (raw_translated raw)
                                                  0%float 0%float))).
Proof.
  assert (Hlookup : forall rawSegments i raw, rawSegments !! i = Some raw ->
            indexed rawSegments !! i
            = Some (mkSubtitleSegment i (raw_original raw) (raw_translated raw) 0%float 0%float)).
  { intros rawSegments i raw Hraw. unfold indexed. now rewrite list_lookup_imap, Hraw. }
  split.
  - intros apiKey response rawSegments Hkey Hcall Hparse.
    assert (Hsegs : translateAndSegment text language []
                    = (Return (indexed rawSegments), [textRequest text language])).
    { now rewrite translateAndSegment_run, Hkey, Hcall, Hparse. }
    exists (indexed rawSegments).
    split; [exact Hsegs|]. split; [apply indexed_length|]. split; [apply Hlookup|]. split.
    { intros i seg Hseg. apply indexed_lookup in Hseg. destruct Hseg as (raw & _ & ->).
      now repeat split. }
    split; [now rewrite indexed_original|].
    rewrite processContent_run, Hsegs, generateSpeech_run, Hkey.
    destruct (generateContent host apiKey (audioRequest _ _)) as [spoken|e]; [|now split].
    destruct (truthy (inlineData spoken)); [|now split].
    split; [reflexivity|]. now intros result [= <-].
  - intros segs log. rewrite translateAndSegment_run.
    destruct (truthy (API_KEY host)) as [apiKey|]; [|discriminate].
    destruct (generateContent host apiKey _) as [response|e] eqn:Hcall; [|discriminate].
    destruct (JSON_parse host _) as [rawSegments|e] eqn:Hparse; [|discriminate].
    intros [= <- <-]. exists apiKey, response, rawSegments.
    repeat (split; [reflexivity || assumption|]).
    split; [apply indexed_length | apply Hlookup].
Qed.

(** C7 (as amended). A failing translation stage (no key, a rejected call,
    an answer that does not parse) fails the request with the error of
    that stage and the speech model is not called; an answer without text
    is read as the empty array, which is no failure; a failing synthesis (a
    rejected call, or no audio payload, which is the error "Failed to
    generate audio.") fails the request with the error of that stage; and a
    request that returns holds the segments of a successful translation
    stage together with the non-empty audio of a successful synthesis. *)
Theorem processContent_all_or_nothing
    (text : string) (language : Language) (voiceName : string) :
  (forall e log, translateAndSegment text language [] = (Throw e, log) ->
     processContent text language voiceName [] = (Throw e, log)
     /\ forall model t v, AudioRequest model t v ∉ log)
  /\ (truthy (API_KEY host) = None ->
      exists e, translateAndSegment text language [] = (Throw e, []))
  /\ (forall apiKey e, truthy (API_KEY host) = Some apiKey ->
      generateContent host apiKey (textRequest text language) = Throw e ->
      translateAndSegment text language [] = (Throw e, [textRequest text language]))
  /\ (forall apiKey response e, truthy (API_KEY host) = Some apiKey ->
      generateContent host apiKey (textRequest text language) = Return response ->
      JSON_parse host (default "[]" (truthy (Service.text response))) = Throw e ->
      translateAndSegment text language [] = (Throw e, [textRequest text language]))
  /\ (forall apiKey response, truthy (API_KEY host) = Some apiKey ->
      generateContent host apiKey (textRequest text language) = Return response ->
      truthy (Service.text response) = None ->
      JSON_parse host "[]" = Return [] ->
      translateAndSegment text language [] = (Return [], [textRequest text language]))
  /\ (forall segs log e log', translateAndSegment text language [] = (Return segs, log) ->
      generateSpeech (String.concat " " (map original segs)) voiceName log = (Throw e, log') ->
      processContent text language voiceName [] = (Throw e, log'))
  /\ (forall apiKey spoken log e, truthy (API_KEY host) = Some apiKey ->
      generateContent host apiKey (audioRequest spoken voiceName) = Throw e ->
      generateSpeech spoken voiceName log = (Throw e, log ++ [audioRequest spoken voiceName]))
  /\ (forall apiKey spoken log response, truthy (API_KEY host) = Some apiKey ->
      generateContent host apiKey (audioRequest spoken voiceName) = Return response ->
      truthy (inlineData response) = None ->
      generateSpeech spoken voiceName log
      = (Throw (Error "Failed to generate audio."), log ++ [audioRequest spoken voiceName]))
  /\ (forall result log, processContent text language voiceName [] = (Return result, log) ->
      exists log1,
        translateAndSegment text language [] = (Return (Types.segments result), log1)
        /\ generateSpeech (String.concat " " (map original (Types.segments result))) voiceName log1
           = (Return (audioBase64 result), log)
        /\ audioBase64 result <> "").
Proof.
  repeat apply conj.
  - intros e log Hfail. split; [now rewrite processContent_run, Hfail|].
    revert Hfail. rewrite translateAndSegment_run.
    destruct (truthy (API_KEY host)) as [apiKey|].
    + destruct (generateContent host apiKey _) as [response|e'].
      * destruct (JSON_parse host _); [discriminate|].
        intros [= _ <-] m t v Hin. apply list_elem_of_singleton in Hin. discriminate.
      * intros [= _ <-] m t v Hin. apply list_elem_of_singleton in Hin. discriminate.
    + intros [= _ <-] m t v Hin. now apply not_elem_of_nil in Hin.
  - intros Hkey. eexists. now rewrite translateAndSegment_run, Hkey.
  - intros apiKey e Hkey Hcall. now rewrite translateAndSegment_run, Hkey, Hcall.
  - intros apiKey response e Hkey Hcall Hparse.
    now rewrite translateAndSegment_run, Hkey, Hcall, Hparse.
  - intros apiKey response Hkey Hcall Htext Hparse.
    rewrite translateAndSegment_run, Hkey, Hcall, Htext. cbn [default from_option].
    now rewrite Hparse.
  - intros segs log e log' Hsegs Hspeech. now rewrite processContent_run, Hsegs, Hspeech.
  - intros apiKey spoken log e Hkey Hcall. now rewrite generateSpeech_run, Hkey, Hcall.
  - intros apiKey spoken log response Hkey Hcall Hdata.
    now rewrite generateSpeech_run, Hkey, Hcall, Hdata.
  - intros result log. rewrite processContent_run.
    destruct (translateAndSegment text language []) as [[segs|e] log1]; [|discriminate].
    destruct (generateSpeech _ voiceName log1) as [[audio|e] log2] eqn:Hspeech; [|discriminate].
    intros [= <- <-]. exists log1. split; [reflexivity|]. split; [exact Hspeech|].
    cbn. revert Hspeech. rewrite generateSpeech_run.
    destruct (truthy (API_KEY host)) as [apiKey|]; [|discriminate].
    destruct (generateContent host apiKey _) as [response|e]; [|discriminate].
    destruct (truthy (inlineData response)) as [data|] eqn:Hdata; [|discriminate].
    intros [= <- _]. exact (truthy_not_empty _ _ Hdata).
Qed.

End Service.

(** *** Hosts to run the orchestrator on *)

(** A host whose translator answers with two sentences and whose speech
    model answers with four bytes of audio. *)
Definition answering : Host := {|
  API_KEY := Some "key";
  generateContent _ request :=
    match request with
    | TextRequest _ _ => Return (mkResponse (Some "two sentences") None)
    | AudioRequest _ _ _ => Return (mkResponse None (Some "AAECAw=="))
    end;
  JSON_parse answer :=
    if String.eqb answer "two sentences"
    then Return [mkRawSegment "Hello world." "Xin chao."; mkRawSegment "How are you?" "Ban khoe khong?"]
    else if String.eqb answer "[]" then Return []
    else Throw SyntaxError
|}.

(** A host whose translator answers without any text. *)
Definition speechless : Host := {|
  API_KEY := Some "key";
  generateContent _ request :=
    match request with
    | TextRequest _ _ => Return (mkResponse None None)
    | AudioRequest _ _ _ => Return (mkResponse None (Some "AAECAw=="))
    end;
  JSON_parse answer := if String.eqb answer "[]" then Return [] else Throw SyntaxError
|}.

(** A host whose remote calls are all rejected. *)
Definition offline : Host := {|
  API_KEY := Some "key";
  generateContent _ _ := Throw (Rejected "network");
  JSON_parse answer := if String.eqb answer "[]" then Return [] else Throw SyntaxError
|}.

(** C6, a witness: the translator splits an input with a run of spaces
    into two sentences, which come back indexed and untimed in the order of
    the answer and are spoken joined by one space. *)
Lemma processContent_segments_and_speech_witness :
  exists segs,
    translateAndSegment answering "Hello world.   How are you?" ENGLISH []
    = (Return segs, [textRequest "Hello world.   How are you?" ENGLISH])
    /\ length segs = 2%nat
    /\ segs !! 0%nat = Some (mkSubtitleSegment 0%nat "Hello world." "Xin chao." 0%float 0%float)
    /\ segs !! 1%nat
       = Some (mkSubtitleSegment 1%nat "How are you?" "Ban khoe khong?" 0%float 0%float)
    /\ snd (processContent answering "Hello world.   How are you?" ENGLISH "Kore" [])
       = [textRequest "Hello world.   How are you?" ENGLISH;
          AudioRequest "gemini-2.5-flash-preview-tts" "Hello world. How are you?" "Kore"].
Proof.
  destruct (proj1 (processContent_segments_and_speech answering
                     "Hello world.   How are you?" ENGLISH "Kore")
              "key" (mkResponse (Some "two sentences") None)
              [mkRawSegment "Hello world." "Xin chao.";
               mkRawSegment "How are you?" "Ban khoe khong?"]
              eq_refl eq_refl eq_refl)
    as (segs & Hsegs & Hlength & Hlookup & _ & Hjoined & Hcalls & _).
  exists segs. split; [exact Hsegs|]. split; [exact Hlength|].
  split; [exact (Hlookup 0%nat _ eq_refl)|]. split; [exact (Hlookup 1%nat _ eq_refl)|].
  rewrite Hcalls, Hjoined. reflexivity.
Defined.

(** C7, a witness: with every call rejected the request fails at the
    translation stage, after the text request alone. *)
Lemma processContent_all_or_nothing_witness :
  processContent offline "Hello" ENGLISH "Kore" []
  = (Throw (Rejected "network"), [textRequest "Hello" ENGLISH]).
Proof.
  refine (proj1 (proj1 (processContent_all_or_nothing offline "Hello" ENGLISH "Kore") _ _ _)).
  reflexivity.
Defined.

(** C7, the counterexample: the translator returns no text, yet the
    request does not fail; the speech model is called, with the empty
    text, and a result with no segment comes back. *)
Lemma processContent_all_or_nothing_counterexample :
  generateContent speechless "key" (textRequest "Hello" ENGLISH) = Return (mkResponse None None)
  /\ processContent speechless "Hello" ENGLISH "Kore" []
     = (Return (mkGenerationResult "AAECAw==" []),
        [textRequest "Hello" ENGLISH; AudioRequest "gemini-2.5-flash-preview-tts" "" "Kore"]).
Proof.
  split; reflexivity.
Qed.

(** *** The remote calls of a request *)

Section Calls.

Variable host : Host.

(** X6. Without a key, [process.env.API_KEY] undefined or empty, the
    orchestrator and each of its two stages fail with the error "API Key
    is missing. Please set the API_KEY environment variable." before any
    remote call is made. *)
Theorem processContent_missing_key
    (text : string) (language : Language) (voiceName spoken : string) (log : list Request) :
  truthy (API_KEY host) = None ->
  processContent host text language voiceName log
  = (Throw (Error "API Key is missing. Please set the API_KEY environment variable."), log)
  /\ translateAndSegment host text language log
     = (Throw (Error "API Key is missing. Please set the API_KEY environment variable."), log)
  /\ generateSpeech host spoken voiceName log
     = (Throw (Error "API Key is missing. Please set the API_KEY environment variable."), log).
Proof.
  intros Hkey.
  rewrite processContent_run, translateAndSegment_run, generateSpeech_run, Hkey.
  now repeat split.
Qed.

(** X7. A request makes at most two remote calls, after those already
    made: none without a key; the text request alone when the translation
    stage fails; otherwise the text request followed by one speech request,
    for the source texts of the segments joined by spaces. The speech model
    is never called before the translator has answered with segments. *)
Theorem processContent_calls
    (text : string) (language : Language) (voiceName : string) (log : list Request) :
  exists calls,
    snd (processContent host text language voiceName log) = log ++ calls
    /\ ((calls = [] /\ truthy (API_KEY host) = None)
        \/ (calls = [textRequest text language]
            /\ exists e, translateAndSegment host text language log
                         = (Throw e, log ++ [textRequest text language]))
        \/ (exists segs,
              calls = [textRequest text language;
                       audioRequest (String.concat " " (map original segs)) voiceName]
              /\ translateAndSegment host text language log
                 = (Return segs, log ++ [textRequest text language]))).
Proof.
  rewrite processContent_run, translateAndSegment_run.
  destruct (truthy (API_KEY host)) as [apiKey|] eqn:Hkey.
  - destruct (generateContent host apiKey (textRequest text language)) as [response|e].
    + destruct (JSON_parse host _) as [rawSegments|e].
      * exists [textRequest text language;
                audioRequest (String.concat " " (map original (indexed rawSegments))) voiceName].
        split.
        -- rewrite generateSpeech_run, Hkey.
           destruct (generateContent host apiKey (audioRequest _ voiceName)) as [response'|e];
             [destruct (truthy (inlineData response'))|]; cbn [snd];
             now rewrite <- app_assoc.
        -- right. right. now exists (indexed rawSegments).
      * exists [textRequest text language]. split; [reflexivity|]. right. left.
        split; [reflexivity|]. now exists e.
    + exists [textRequest text language]. split; [reflexivity|]. right. left.
      split; [reflexivity|]. now exists e.
  - exists []. split; [cbn; now rewrite app_nil_r|]. left. now split.
Qed.

End Calls.

(** A host whose key is the empty string. *)
Definition keyless : Host := {|
  API_KEY := Some "";
  generateContent _ _ := Return (mkResponse (Some "two sentences") (Some "AAECAw=="));
  JSON_parse _ := Return []
|}.

(** X6, a witness: with the empty key nothing is requested. *)
Lemma processContent_missing_key_witness :
  processContent keyless "Hello" ENGLISH "Kore" []
  = (Throw (Error "API Key is missing. Please set the API_KEY environment variable."), []).
Proof.
  exact (proj1 (processContent_missing_key keyless "Hello" ENGLISH "Kore" "Hello" [] eq_refl)).
Defined.

End Service.

(** ** The player: App.tsx *)

Module App.

Import Service Double.

Local Open Scope float_scope.

(** [Math.max] and [Math.min] on two numbers: NaN if either is NaN, and
    [+0] counts as larger than [-0]. *)
Definition Math_max (x y : float) : float :=
  if is_nan x || is_nan y then nan
  else if x <? y then y
  else if y <? x then x
  else if get_sign x then y else x.

Definition Math_min (x y : float) : float :=
  if is_nan x || is_nan y then nan
  else if x <? y then x
  else if y <? x then y
  else if get_sign x then x else y.

(** The host's audio element, as far as the handlers touch it. *)
Module Audio.

Record t : Type := mk {
  src : string;
  paused : bool;
  currentTime : float;
  playbackRate : float;
  volume : float;
  duration : float     (* of the media it has loaded; NaN while it has none *)
}.

(** [new Audio()]. *)
Definition new : t := mk "" true 0 1 1 nan.

Definition pause (a : t) : t :=
  mk (src a) true (currentTime a) (playbackRate a) (volume a) (duration a).
Definition set_playbackRate (v : float) (a : t) : t :=
  mk (src a) (paused a) (currentTime a) v (volume a) (duration a).
Definition set_volume (v : float) (a : t) : t :=
  mk (src a) (paused a) (currentTime a) (playbackRate a) v (duration a).

(** The load algorithm, which [load()] and every assignment to [src] run:
    the element is paused, rewound and set back to the default playback
    rate, and it has no media until the metadata of its source arrives. *)
Definition load (a : t) : t := mk (src a) true 0 1 (volume a) nan.

(** [audio.src = v]. *)
Definition set_src (v : string) (a : t) : t :=
  load (mk v (paused a) (currentTime a) (playbackRate a) (volume a) (duration a)).

(** A number that is neither NaN nor an infinity. *)
Definition finite (v : float) : bool := (neg_infinity <? v) && (v <? infinity).

(** Where a seek to [v] ends in media that last [duration]: at the end
    when [v] is later, at the start when [v] is earlier. *)
Definition seekable (duration v : float) : float :=
  if duration <? v then duration
  else if v <? 0 then 0
  else v.

(** [audio.currentTime = v]: a [TypeError] unless [v] is finite; a seek,
    moved into the media when [v] lies outside it, once the element has
    loaded media; before that, the position to start from. *)
Definition set_currentTime (v : float) (a : t) : Outcome t :=
  if finite v
  then Return (mk (src a) (paused a)
                  (if is_nan (duration a) then v else seekable (duration a) v)
                  (playbackRate a) (volume a) (duration a))
  else Throw TypeError.

(** What the host does by itself: it finds the duration of the media
    when their metadata arrive, and it moves the position as it plays. *)
Definition loaded (duration : float) (a : t) : t :=
  mk (src a) (paused a) (currentTime a) (playbackRate a) (volume a) duration.
Definition played (position : float) (a : t) : t :=
  mk (src a) (paused a) position (playbackRate a) (volume a) (duration a).

End Audio.

(** The state of the component, the element behind [audioRef], and what
    the user has been shown through [alert] and [console.error]. *)
Record State : Type := mkState {
  inputText : string;
  selectedLang : Language;
  selectedVoice : VoiceOption;
  isGenerating : bool;
  audioUrl : option string;
  isPlaying : bool;
  currentTime : float;
  duration : float;
  segments : list (SubtitleSegment float);
  seekStep : float;
  playbackRate : float;
  volume : float;
  audioRef : option Audio.t;
  alerts : list string;
  console : list exn
}.

Definition setIsGenerating (v : bool) (st : State) : State :=
  mkState (inputText st) (selectedLang st) (selectedVoice st) v (audioUrl st) (isPlaying st)
          (currentTime st) (duration st) (segments st) (seekStep st) (playbackRate st) (volume st)
          (audioRef st) (alerts st) (console st).

Definition setAudioUrl (v : option string) (st : State) : State :=
  mkState (inputText st) (selectedLang st) (selectedVoice st) (isGenerating st) v (isPlaying st)
          (currentTime st) (duration st) (segments st) (seekStep st) (playbackRate st) (volume st)
          (audioRef st) (alerts st) (console st).

Definition setCurrentTime (v : float) (st : State) : State :=
  mkState (inputText st) (selectedLang st) (selectedVoice st) (isGenerating st) (audioUrl st)
          (isPlaying st) v (duration st) (segments st) (seekStep st) (playbackRate st) (volume st)
          (audioRef st) (alerts st) (console st).

Definition setDuration (v : float) (st : State) : State :=
  mkState (inputText st) (selectedLang st) (selectedVoice st) (isGenerating st) (audioUrl st)
          (isPlaying st) (currentTime st) v (segments st) (seekStep st) (playbackRate st) (volume st)
          (audioRef st) (alerts st) (console st).

Definition setSegments (v : list (SubtitleSegment float)) (st : State) : State :=
  mkState (inputText st) (selectedLang st) (selectedVoice st) (isGenerating st) (audioUrl st)
          (isPlaying st) (currentTime st) (duration st) v (seekStep st) (playbackRate st) (volume st)
          (audioRef st) (alerts st) (console st).

(** An update of the element behind [audioRef.current], if there is one. *)
Definition onAudio (f : Audio.t -> Audio.t) (st : State) : State :=
  mkState (inputText st) (selectedLang st) (selectedVoice st) (isGenerating st) (audioUrl st)
          (isPlaying st) (currentTime st) (duration st) (segments st) (seekStep st)
          (playbackRate st) (volume st) (f <$> audioRef st) (alerts st) (console st).

Definition alert (message : string) (st : State) : State :=
  mkState (inputText st) (selectedLang st) (selectedVoice st) (isGenerating st) (audioUrl st)
          (isPlaying st) (currentTime st) (duration st) (segments st) (seekStep st)
          (playbackRate st) (volume st) (audioRef st) (alerts st ++ [message]) (console st).

Definition console_error (e : exn) (st : State) : State :=
  mkState (inputText st) (selectedLang st) (selectedVoice st) (isGenerating st) (audioUrl st)
          (isPlaying st) (currentTime st) (duration st) (segments st) (seekStep st)
          (playbackRate st) (volume st) (audioRef st) (alerts st) (console st ++ [e]).

(** White space in the sense of [String.prototype.trim], among the code
    units a [string] has. *)
Definition isWhiteSpace (c : ascii) : bool :=
  let n := Z.of_N (N_of_ascii c) in
  ((9 <=? n) && (n <=? 13) || (n =? 32) || (n =? 160))%Z.

(** [!s.trim()]: nothing is left of [s] once trimmed. *)
Definition isBlank (s : string) : bool := forallb isWhiteSpace (list_ascii_of_string s).

Section Handlers.

Variable host : Host.
Variable atob : string -> Outcome string.
Variable createObjectURL : Wav.Blob -> string.

(** The [try] block of [handleGenerate]. *)
Definition generate (st : State) : Async State :=
  result ← processContent host (inputText st) (selectedLang st) (name (selectedVoice st));
  blob ← lift (Wav.base64ToWavBlob atob (audioBase64 result) None);
  let url := createObjectURL blob in
  let st := setAudioUrl (Some url) st in
  let st := setSegments (Types.segments result) st in
  let st := onAudio (Audio.set_src url) st in
  let st := onAudio Audio.load st in
  let st := onAudio (Audio.set_playbackRate (playbackRate st)) st in
  let st := onAudio (Audio.set_volume (volume st)) st in
  mret st.

(** [handleGenerate()]. *)
Definition handleGenerate (st : State) (log : list Request) : State * list Request :=
  if isBlank (inputText st) then (st, log)
  else
    let st := setIsGenerating true st in
    let st := setAudioUrl None st in
    let st := setSegments [] st in
    let st := setCurrentTime 0 st in
    let st := setDuration 0 st in
    let st := onAudio Audio.pause st in
    let st := onAudio (Audio.set_src "") st in
    match generate st log with
    | (Return st, log) => (setIsGenerating false st, log)
    | (Throw error, log) =>
        let st := console_error error st in
        let st := alert "Failed to generate content. Please check your API Key and try again." st in
        (setIsGenerating false st, log)
    end.

End Handlers.

(** [handleSeek(time)]. *)
Definition handleSeek (time : float) (st : State) : Outcome State :=
  match audioRef st with
  | Some audio =>
      audio ← Audio.set_currentTime time audio;
      Return (setCurrentTime time (onAudio (fun _ => audio) st))
  | None => Return st
  end.

(** [skip(amount)]. *)
Definition skip (amount : float) (st : State) : Outcome State :=
  match audioRef st with
  | Some audio =>
      audio ← Audio.set_currentTime
                (Math_min (Math_max (Audio.currentTime audio + amount) 0) (duration st)) audio;
      Return (onAudio (fun _ => audio) st)
  | None => Return st
  end.

(** [updateTime], the listener of [timeupdate], which the element fires as
    it plays and after every seek: it publishes the position of the
    element. *)
Definition updateTime (st : State) : State :=
  match audioRef st with
  | Some audio => setCurrentTime (Audio.currentTime audio) st
  | None => st
  end.

(** *** components/SeekBar.tsx *)

(** [containerRef.current.getBoundingClientRect()], the part that is read. *)
Record DOMRect : Type := mkDOMRect { left : float; width : float }.

(** The pointer offset along the bar, as [calculateTimeFromEvent] clamps it. *)
Definition offsetX (rect : DOMRect) (clientX : float) : float :=
  Math_max 0 (Math_min (clientX - left rect) (width rect)).

(** [calculateTimeFromEvent(e)], the time a drag of the seek bar commits
    through [onSeek], which the player binds to [handleSeek]. *)
Definition calculateTimeFromEvent (container : option DOMRect) (duration clientX : float) : float :=
  match container with
  | None => 0
  | Some rect =>
      if duration =? 0 then 0
      else offsetX rect clientX / width rect * duration
  end.

(** [Math.max(x, 0)] is at least 0, and [Math.min(m, d)] lies between 0
    and [d] when [m] and [d] do. *)
Lemma Math_max_0 (x : float) : is_nan x = false -> (0 <=? Math_max x 0) = true.
Proof.
  intros Hx. unfold Math_max. rewrite Hx. cbn [orb is_nan].
  change (is_nan 0) with false. cbn [orb].
  destruct (x <? 0) eqn:Hlt; [reflexivity|].
  destruct (0 <? x) eqn:Hgt; [now apply ltb_leb|].
  destruct (get_sign x); [reflexivity|].
  now apply not_ltb_leb.
Qed.

Lemma Math_min_between (m d : float) :
  (0 <=? m) = true -> (0 <=? d) = true ->
  (0 <=? Math_min m d) = true /\ (Math_min m d <=? d) = true.
Proof.
  intros Hm Hd.
  destruct (leb_not_nan _ _ Hm) as [_ Hmn]. destruct (leb_not_nan _ _ Hd) as [_ Hdn].
  unfold Math_min. rewrite Hmn, Hdn. cbn [orb].
  destruct (m <? d) eqn:Hlt; [split; [exact Hm | now apply ltb_leb]|].
  destruct (d <? m) eqn:Hgt; [split; [exact Hd | now apply leb_refl]|].
  destruct (get_sign m); split; try assumption.
  - now apply not_ltb_leb.
  - now apply leb_refl.
Qed.

Lemma Math_clamp_inside (x d : float) :
  (0 <? x) = true -> (x <? d) = true -> Math_min (Math_max x 0) d = x.
Proof.
  intros H0 Hd.
  destruct (leb_not_nan _ _ (ltb_leb _ _ H0)) as [_ Hx].
  destruct (leb_not_nan _ _ (ltb_leb _ _ Hd)) as [_ Hdn].
  unfold Math_max. rewrite Hx. change (is_nan 0) with false. cbn [orb].
  rewrite (ltb_asym _ _ H0), H0.
  unfold Math_min. now rewrite Hx, Hdn, Hd.
Qed.

Lemma Math_min_le_r (m d : float) :
  is_nan m = false -> is_nan d = false ->
  is_nan (Math_min m d) = false /\ (Math_min m d <=? d) = true.
Proof.
  intros Hm Hd. unfold Math_min. rewrite Hm, Hd. cbn [orb].
  destruct (m <? d) eqn:Hlt; [split; [exact Hm | now apply ltb_leb]|].
  destruct (d <? m) eqn:Hgt; [split; [exact Hd | now apply leb_refl]|].
  destruct (get_sign m); split; try assumption.
  - now apply not_ltb_leb.
  - now apply leb_refl.
Qed.

(** The seek bar clamps the pointer offset to the bar before it converts
    it to a time. *)
Lemma offsetX_between (rect : DOMRect) (clientX : float) :
  is_nan (clientX - left rect) = false -> (0 <=? width rect) = true ->
  (0 <=? offsetX rect clientX) = true /\ (offsetX rect clientX <=? width rect) = true.
Proof.
  intros Hx Hw. destruct (leb_not_nan _ _ Hw) as [_ Hwn].
  destruct (Math_min_le_r _ _ Hx Hwn) as [Hn Hle].
  unfold offsetX. set (y := Math_min (clientX - left rect) (width rect)) in *.
  unfold Math_max. rewrite Hn. change (is_nan 0) with false. cbn [orb].
  destruct (0 <? y) eqn:Hpos; [split; [now apply ltb_leb | exact Hle]|].
  destruct (y <? 0) eqn:Hneg; [split; [reflexivity | exact Hw]|].
  change (get_sign 0) with false. cbn. split; [reflexivity | exact Hw].
Qed.

(** [Math.max(0, y)] is [0] when [y] is at most 0. *)
Lemma Math_max_0_l (y : float) : (y <=? 0) = true -> Math_max 0 y = 0.
Proof.
  intros Hy. destruct (leb_not_nan _ _ Hy) as [Hn _].
  unfold Math_max. rewrite Hn, (leb_not_ltb _ _ Hy). cbn. now destruct (y <? 0).
Qed.

(** The pointer at or before the start of the bar is at offset 0. *)
Lemma offsetX_left (rect : DOMRect) (clientX : float) :
  (clientX - left rect <=? 0) = true -> (0 <=? width rect) = true ->
  offsetX rect clientX = 0.
Proof.
  intros Hv Hw. unfold offsetX. apply Math_max_0_l.
  destruct (leb_not_nan _ _ Hv) as [Hvn _]. destruct (leb_not_nan _ _ Hw) as [_ Hwn].
  unfold Math_min. rewrite Hvn, Hwn. cbn [orb].
  destruct (clientX - left rect <? width rect) eqn:Hlt; [exact Hv|].
  destruct (width rect <? clientX - left rect) eqn:Hgt.
  - apply not_ltb_leb in Hlt; try assumption.
    pose proof (leb_trans_nonneg 0 _ _ eq_refl Hw Hlt) as H0.
    apply ltb_leb in Hgt.
    assert (Hw0 : (width rect <=? 0) = true).
    { apply (leb_trans_nonneg (width rect) (clientX - left rect) 0); assumption. }
    exact Hw0.
  - destruct (get_sign (clientX - left rect)); [exact Hv|].
    apply not_ltb_leb in Hlt; try assumption.
    apply (leb_trans_nonneg (width rect) (clientX - left rect) 0); assumption.
Qed.

(** The pointer at or past the end of a bar of positive width is at the
    offset of the end. *)
Lemma offsetX_right (rect : DOMRect) (clientX : float) :
  (width rect <=? clientX - left rect) = true -> (0 <? width rect) = true ->
  (0 <=? offsetX rect clientX) = true
  /\ (offsetX rect clientX <=? width rect) = true
  /\ (width rect <=? offsetX rect clientX) = true.
Proof.
  intros Hv Hw. destruct (leb_not_nan _ _ Hv) as [Hwn Hvn].
  pose proof (ltb_leb _ _ Hw) as Hw0.
  destruct (offsetX_between rect clientX Hvn Hw0) as [H0 Hle].
  split; [exact H0|]. split; [exact Hle|].
  unfold offsetX in *.
  set (y := Math_min (clientX - left rect) (width rect)) in *.
  assert (Hy : (width rect <=? y) = true).
  { unfold y, Math_min. rewrite Hvn, Hwn, (leb_not_ltb _ _ Hv). cbn [orb].
    destruct (width rect <? clientX - left rect); [now apply leb_refl|].
    destruct (get_sign (clientX - left rect)); [exact Hv | now apply leb_refl]. }
  destruct (leb_not_nan _ _ Hy) as [_ Hyn].
  unfold Math_max. rewrite Hyn. cbn [orb is_nan]. change (is_nan 0) with false. cbn [orb].
  destruct (0 <? y) eqn:Hpos; [exact Hy|].
  exfalso. apply not_ltb_leb in Hpos; [|reflexivity | exact Hyn].
  pose proof (leb_trans_nonneg (width rect) y 0 Hw0 Hy Hpos) as Hcontra.
  apply ltb_not_leb in Hw. congruence.
Qed.

(** The time under the pointer, [offsetX / rect.width * duration], on a
    bar of positive finite width and a finite duration that is not
    negative: it lies between 0 and the duration, is 0 at or before the
    start of the bar and the duration at or past its end. *)
Lemma pointer_time (rect : DOMRect) (duration clientX : float) :
  (0 <? width rect) = true -> (width rect <? infinity) = true ->
  is_nan (clientX - left rect) = false ->
  (0 <=? duration) = true -> (duration <? infinity) = true ->
  ((0 <=? offsetX rect clientX / width rect * duration) = true
   /\ (offsetX rect clientX / width rect * duration <=? duration) = true)
  /\ ((clientX - left rect <=? 0) = true ->
      (offsetX rect clientX / width rect * duration =? 0) = true)
  /\ ((width rect <=? clientX - left rect) = true ->
      (offsetX rect clientX / width rect * duration =? duration) = true).
Proof.
  intros Hw Hwfin Hx Hd0 Hdfin.
  pose proof (ltb_leb _ _ Hw) as Hw0.
  pose proof (finite_number _ Hw0 Hwfin) as Hnw.
  pose proof (finite_number _ Hd0 Hdfin) as Hnd.
  assert (HW : (0 < value (width rect))%Q) by (apply (ltb_value 0); [exact I | exact Hnw | exact Hw]).
  assert (Hone : (value 1 == 1)%Q) by (vm_compute; reflexivity).
  pose proof (value_nonneg _ Hnd) as HD.
  destruct (offsetX_between rect clientX Hx Hw0) as [Ho0 Hole].
  pose proof (leb_number _ _ Ho0 Hole Hnw) as Hno.
  pose proof (leb_value _ _ Hno Hnw Hole) as Hov.
  destruct (div_le (offsetX rect clientX) (width rect) 1 Hno Hnw I HW) as [Hnq Hq];
    [rewrite Hone; lra|].
  rewrite Hone in Hq. pose proof (value_nonneg _ Hnq) as Hq0.
  destruct (mul_le (offsetX rect clientX / width rect) duration duration Hnq Hnd Hnd)
    as [Hnt Ht]; [nra|].
  split; [split; [now apply number_leb | now apply value_leb]|]. split.
  - intros Hleft. rewrite (offsetX_left rect clientX Hleft Hw0).
    destruct (zero_share (width rect) duration Hnw HW Hnd) as [sgn Hshare].
    exact (zero_eqb _ sgn Hshare).
  - intros Hright. destruct (offsetX_right rect clientX Hright Hw) as (_ & _ & Hge).
    pose proof (leb_value _ _ Hnw Hno Hge) as Hge'.
    destruct (div_exact (offsetX rect clientX) (width rect) 1 Hno Hnw I HW) as [_ Hq1];
      [rewrite Hone; lra|].
    destruct (mul_exact (offsetX rect clientX / width rect) duration duration Hnq Hnd Hnd)
      as [_ Ht1]; [rewrite Hq1, Hone; ring|].
    now apply value_eqb.
Qed.

(** On a bar of positive finite width the time under the pointer lies
    between 0 and the duration. *)
Lemma calculateTimeFromEvent_between (rect : DOMRect) (duration clientX : float) :
  (0 <? width rect) = true -> (width rect <? infinity) = true ->
  is_nan (clientX - left rect) = false ->
  (0 <=? duration) = true -> (duration <? infinity) = true ->
  (0 <=? calculateTimeFromEvent (Some rect) duration clientX) = true
  /\ (calculateTimeFromEvent (Some rect) duration clientX <=? duration) = true.
Proof.
  intros Hw Hwfin Hx Hd0 Hdfin. unfold calculateTimeFromEvent.
  destruct (duration =? 0) eqn:Hzero; [now split|].
  exact (proj1 (pointer_time rect duration clientX Hw Hwfin Hx Hd0 Hdfin)).
Qed.

(** What the element's own seek does to a requested time. *)
Lemma finite_not_nan (v : float) : Audio.finite v = true -> is_nan v = false.
Proof.
  unfold Audio.finite. intros Hv. apply andb_prop in Hv. destruct Hv as [_ Hv].
  now destruct (leb_not_nan _ _ (ltb_leb _ _ Hv)).
Qed.

Lemma between_finite (v d : float) :
  (0 <=? v) = true -> (v <=? d) = true -> (d <? infinity) = true -> Audio.finite v = true.
Proof.
  intros H0 Hd Hfin.
  pose proof (leb_trans_nonneg 0 v d eq_refl H0 Hd) as Hd0.
  pose proof (leb_number _ _ H0 Hd (finite_number _ Hd0 Hfin)) as Hv.
  unfold Audio.finite. rewrite (number_finite _ Hv), andb_true_r.
  rewrite FloatAxioms.ltb_spec. unfold number in Hv.
  now destruct (Prim2SF v) as [s|s| |[] m e].
Qed.

Lemma seekable_inside (d v : float) :
  (0 <=? v) = true -> (v <=? d) = true -> Audio.seekable d v = v.
Proof.
  intros H0 Hd. unfold Audio.seekable.
  now rewrite (leb_not_ltb _ _ Hd), (leb_not_ltb _ _ H0).
Qed.

Lemma seekable_between (d v : float) :
  is_nan v = false -> (0 <=? d) = true ->
  (0 <=? Audio.seekable d v) = true /\ (Audio.seekable d v <=? d) = true.
Proof.
  intros Hv Hd. destruct (leb_not_nan _ _ Hd) as [_ Hdn]. unfold Audio.seekable.
  destruct (d <? v) eqn:Hlate; [split; [exact Hd | now apply leb_refl]|].
  destruct (v <? 0) eqn:Hearly; [split; [reflexivity | exact Hd]|].
  split; now apply not_ltb_leb.
Qed.

(** The element moves a requested time to where
    [Math.min(Math.max(v, 0), d)] is. *)
Lemma seekable_clamp (d v : float) :
  is_nan v = false -> (0 <=? d) = true ->
  (Audio.seekable d v =? Math_min (Math_max v 0) d) = true.
Proof.
  intros Hv Hd. destruct (leb_not_nan _ _ Hd) as [_ Hdn].
  unfold Audio.seekable, Math_max. rewrite Hv. change (is_nan 0) with false. cbn [orb].
  destruct (d <? v) eqn:Hlate.
  - assert (Hpos : (0 <? v) = true).
    { revert Hd Hlate. rewrite FloatAxioms.leb_spec, !FloatAxioms.ltb_spec.
      change (Prim2SF 0) with (S754_zero false).
      destruct (Prim2SF d) as [[]|[]| |[] md ed], (Prim2SF v) as [[]|[]| |[] mv ev];
        try discriminate; reflexivity. }
    rewrite (ltb_asym _ _ Hpos), Hpos. unfold Math_min.
    rewrite Hv, Hdn, (ltb_asym _ _ Hlate), Hlate. cbn [orb]. now apply eqb_refl.
  - destruct (v <? 0) eqn:Hearly.
    + unfold Math_min. change (is_nan 0) with false. rewrite Hdn. cbn [orb].
      destruct (0 <? d) eqn:Hd0; [reflexivity|].
      rewrite (leb_not_ltb _ _ Hd). change (get_sign 0) with false. cbn match.
      apply leb_antisym; [exact Hd | now apply not_ltb_leb].
    + pose proof (not_ltb_leb v 0 Hv eq_refl Hearly) as H0.
      pose proof (not_ltb_leb _ _ Hdn Hv Hlate) as Hle.
      assert (Hm : forall m, (m <=? v) = true -> (v <=? m) = true -> (0 <=? m) = true ->
                             (v =? Math_min m d) = true).
      { intros m Hmv Hvm Hm0. destruct (leb_not_nan _ _ Hmv) as [Hmn _].
        pose proof (leb_trans_nonneg m v d Hm0 Hmv Hle) as Hmd.
        unfold Math_min. rewrite Hmn, Hdn. cbn [orb].
        destruct (m <? d) eqn:Hlt; [now apply leb_antisym|].
        rewrite (leb_not_ltb _ _ Hmd).
        destruct (get_sign m); [now apply leb_antisym|].
        apply leb_antisym; [exact Hle|].
        apply (leb_trans_nonneg d m v Hd); [now apply not_ltb_leb | exact Hmv]. }
      destruct (0 <? v) eqn:Hpos; [apply Hm; (now apply leb_refl) || exact H0|].
      destruct (get_sign v).
      * apply Hm; [exact H0 | now apply not_ltb_leb | reflexivity].
      * apply Hm; (now apply leb_refl) || exact H0.
Qed.

(** *** The claims about the player *)

Section Claims.

Variable host : Host.
Variable atob : string -> Outcome string.
Variable createObjectURL : Wav.Blob -> string.

(** The state in which a request leaves the player when it fails with
    [error]: the reset made before the request, the notification, and the
    end of the busy flag. *)
Definition failed (error : exn) (st : State) : State :=
  mkState (inputText st) (selectedLang st) (selectedVoice st) false None (isPlaying st)
          0 0 [] (seekStep st) (playbackRate st) (volume st)
          ((fun a => Audio.mk "" true 0 1 (Audio.volume a) nan) <$> audioRef st)
          (alerts st ++ ["Failed to generate content. Please check your API Key and try again."])
          (console st ++ [error]).

(** C8 (as amended). When a generation request fails, in the orchestrator
    or in the encoding of its audio, the player is left in the state the
    request put it in before calling out: no audio source (the element is
    paused, its address is emptied, and emptying it rewinds the element and
    drops its media), no segments, position 0, duration 0; no new source is
    installed, one notification is shown, the busy flag is cleared, and the
    input, the language, the voice, the seek step, the rate and the volume
    of the player are as they were. *)
Theorem handleGenerate_failure (st : State) (log log' : list Request) (error : exn) :
  isBlank (inputText st) = false ->
  (processContent host (inputText st) (selectedLang st) (name (selectedVoice st)) log
   = (Throw error, log')
   \/ exists result,
        processContent host (inputText st) (selectedLang st) (name (selectedVoice st)) log
        = (Return result, log')
        /\ Wav.base64ToWavBlob atob (audioBase64 result) None = Throw error) ->
  handleGenerate host atob createObjectURL st log = (failed error st, log')
  /\ audioUrl (failed error st) = None
  /\ segments (failed error st) = []
  /\ currentTime (failed error st) = 0
  /\ duration (failed error st) = 0
  /\ (forall audio, audioRef (failed error st) = Some audio ->
        Audio.src audio = "" /\ Audio.paused audio = true /\ Audio.currentTime audio = 0
        /\ is_nan (Audio.duration audio) = true).
Proof.
  intros Hblank Hfail. split.
  - destruct st as [text lang voice busy url playing time total segs step rate vol audio shown logged].
    cbn [inputText selectedLang selectedVoice] in Hblank, Hfail.
    unfold handleGenerate, generate, mbind, Async_mbind, Async_bind. cbn [inputText].
    rewrite Hblank.
    cbn [inputText selectedLang selectedVoice setIsGenerating setAudioUrl setSegments
         setCurrentTime setDuration onAudio isGenerating audioUrl isPlaying currentTime duration
         segments seekStep playbackRate volume audioRef alerts console].
    destruct Hfail as [Hfail|(result & Hok & Hwav)].
    + rewrite Hfail. unfold failed. cbn. now destruct audio.
    + rewrite Hok. unfold lift. rewrite Hwav. unfold failed. cbn. now destruct audio.
  - cbn. do 4 (split; [reflexivity|]).
    intros audio. destruct (audioRef st) as [previous|]; cbn; [|discriminate].
    intros [= <-]. now repeat split.
Qed.


End Claims.

(** A player holding a working audio source, three seconds into twelve. *)
Definition playing : State := {|
  inputText := "Hello";
  selectedLang := ENGLISH;
  selectedVoice := mkVoiceOption "Kore" "Kore" Female;
  isGenerating := false;
  audioUrl := Some "blob:previous";
  isPlaying := true;
  currentTime := 3;
  duration := 12;
  segments := [mkSubtitleSegment 0%nat "Previous" "Truoc" 0 12];
  seekStep := 5;
  playbackRate := 1;
  volume := 1;
  audioRef := Some (Audio.mk "blob:previous" false 3 1 1 12);
  alerts := [];
  console := []
|}.

Definition objectURL (blob : Wav.Blob) : string := "blob:next".

(** C8, a witness: a request on a host whose calls are rejected. *)
Lemma handleGenerate_failure_witness :
  handleGenerate offline Wav.window_atob objectURL playing []
  = (failed (Rejected "network") playing, [textRequest "Hello" ENGLISH]).
Proof.
  refine (proj1 (handleGenerate_failure offline Wav.window_atob objectURL playing []
                   [textRequest "Hello" ENGLISH] (Rejected "network") _ _)).
  - reflexivity.
  - left. reflexivity.
Defined.

(** C8, the counterexample: the failed request has taken the working
    source, the segments, the position and the duration away, and it has
    stopped and rewound the audio. *)
Lemma handleGenerate_failure_counterexample :
  handleGenerate offline Wav.window_atob objectURL playing []
  = ({| inputText := "Hello";
        selectedLang := ENGLISH;
        selectedVoice := mkVoiceOption "Kore" "Kore" Female;
        isGenerating := false;
        audioUrl := None;
        isPlaying := true;
        currentTime := 0;
        duration := 0;
        segments := [];
        seekStep := 5;
        playbackRate := 1;
        volume := 1;
        audioRef := Some (Audio.mk "" true 0 1 1 nan);
        alerts := ["Failed to generate content. Please check your API Key and try again."];
        console := [Rejected "network"] |},
     [textRequest "Hello" ENGLISH])
  /\ audioUrl playing = Some "blob:previous"
  /\ segments playing = [mkSubtitleSegment 0%nat "Previous" "Truoc" 0 12]
  /\ currentTime playing = 3
  /\ duration playing = 12
  /\ audioRef playing = Some (Audio.mk "blob:previous" false 3 1 1 12).
Proof.
  split; [vm_compute; reflexivity|]. repeat split.
Qed.


End App.

(** ** The subtitle display: components/SubtitleDisplay.tsx *)

Module Display.

Import Service Double Aligner.

(** [array.findIndex(predicate)]: the index of the first element that
    satisfies the predicate, [-1] when none does. *)
Fixpoint findIndexFrom {A : Type} (predicate : A -> bool) (index : Z) (array : list A) : Z :=
  match array with
  | [] => -1
  | element :: rest =>
      if predicate element then index else findIndexFrom predicate (index + 1) rest
  end.

Definition findIndex {A : Type} (predicate : A -> bool) (array : list A) : Z :=
  findIndexFrom predicate 0 array.

(** [seg => currentTime >= seg.startTime && currentTime < seg.endTime]. *)
Definition isActive (currentTime : float) (seg : SubtitleSegment float) : bool :=
  (startTime seg <=? currentTime)%float && (currentTime <? endTime seg)%float.

(** [activeIndex], in the display and in the scroll effect of the player. *)
Definition activeIndex (segments : list (SubtitleSegment float)) (currentTime : float) : Z :=
  findIndex (isActive currentTime) segments.

Lemma findIndexFrom_cases {A : Type} (p : A -> bool) (k : Z) (l : list A) :
  (findIndexFrom p k l = -1 /\ forall i x, l !! i = Some x -> p x = false)
  \/ (exists i x, findIndexFrom p k l = k + Z.of_nat i /\ l !! i = Some x /\ p x = true
                  /\ forall j y, (j < i)%nat -> l !! j = Some y -> p y = false).
Proof.
  revert k. induction l as [|a rest IH]; intros k; cbn [findIndexFrom].
  - left. split; [reflexivity|]. intros i x. now rewrite lookup_nil.
  - destruct (p a) eqn:Ha.
    + right. exists 0%nat, a. split; [lia|]. split; [reflexivity|]. split; [exact Ha|]. lia.
    + destruct (IH (k + 1)) as [[Hnone Hall]|(i & x & Hi & Hx & Hpx & Hbefore)].
      * left. split; [exact Hnone|]. intros [|i] x; cbn; [now intros [= <-] | apply Hall].
      * right. exists (S i), x. split; [lia|]. split; [exact Hx|]. split; [exact Hpx|].
        intros [|j] y Hj; cbn; [now intros [= <-] | apply Hbefore; lia].
Qed.

(** [findIndex] answers [-1] when no element satisfies the predicate, and
    otherwise the index of an element that does, no earlier one doing so. *)
Lemma findIndex_cases {A : Type} (p : A -> bool) (l : list A) :
  (findIndex p l = -1 /\ forall i x, l !! i = Some x -> p x = false)
  \/ (exists i x, findIndex p l = Z.of_nat i /\ l !! i = Some x /\ p x = true
                  /\ forall j y, (j < i)%nat -> l !! j = Some y -> p y = false).
Proof. exact (findIndexFrom_cases p 0 l). Qed.

(** A segment that ends where it starts, at a time that is not negative,
    is never active. *)
Lemma isActive_empty (t : float) (seg : SubtitleSegment float) :
  (0 <=? endTime seg)%float = true ->
  (endTime seg =? startTime seg)%float = true -> isActive t seg = false.
Proof.
  intros H0 Heq. unfold isActive.
  destruct (startTime seg <=? t)%float eqn:Hle; [|reflexivity].
  destruct (t <? endTime seg)%float eqn:Hlt; [|reflexivity].
  apply ltb_not_leb in Hlt.
  rewrite (leb_trans_nonneg _ _ _ H0 (eqb_leb _ _ Heq) Hle) in Hlt. discriminate.
Qed.

(** Segments that all start and end at [0] have no active segment. *)
Lemma activeIndex_zero (segments : list (SubtitleSegment float)) (t : float) :
  Forall (fun seg => startTime seg = 0%float /\ endTime seg = 0%float) segments ->
  activeIndex segments t = -1.
Proof.
  intros Hall. unfold activeIndex.
  destruct (findIndex_cases (isActive t) segments) as [[Hnone _]|(i & x & _ & Hx & Hpx & _)];
    [exact Hnone|].
  exfalso. destruct (Forall_lookup_1 _ _ _ _ Hall Hx) as [Hs He].
  rewrite isActive_empty in Hpx; [discriminate | now rewrite He | now rewrite Hs, He].
Qed.

Lemma indexed_untimed (rawSegments : list RawSegment) :
  Forall (fun seg => startTime seg = 0%float /\ endTime seg = 0%float) (indexed rawSegments).
Proof.
  apply Forall_lookup_2. intros i seg Hseg.
  apply indexed_lookup in Hseg. destruct Hseg as (raw & _ & ->). now split.
Qed.

Section Fresh.

Variable host : Host.

(** The segments of a result are those the translation stage makes of a
    parsed answer, which start and end at 0. *)
Lemma processContent_untimed
    (text : string) (language : Language) (voiceName : string)
    (log log' : list Request) (result : GenerationResult) :
  processContent host text language voiceName log = (Return result, log') ->
  exists rawSegments, Types.segments result = indexed rawSegments.
Proof.
  rewrite processContent_run, translateAndSegment_run.
  destruct (truthy (API_KEY host)) as [apiKey|]; [|discriminate].
  destruct (generateContent host apiKey _) as [response|e]; [|discriminate].
  destruct (JSON_parse host _) as [rawSegments|e]; [|discriminate].
  destruct (generateSpeech host _ voiceName _) as [[audio|e] log2]; [|discriminate].
  intros [= <- _]. now exists rawSegments.
Qed.

(** X8. The segments of a generation result, as the orchestrator returns
    them, have no active segment at any playback position, NaN included:
    the display highlights nothing until the segments are aligned. *)
Theorem activeIndex_fresh
    (text : string) (language : Language) (voiceName : string)
    (log log' : list Request) (result : GenerationResult) (currentTime : float) :
  processContent host text language voiceName log = (Return result, log') ->
  activeIndex (Types.segments result) currentTime = -1.
Proof.
  intros Hresult. destruct (processContent_untimed _ _ _ _ _ _ Hresult) as [rawSegments ->].
  apply activeIndex_zero, indexed_untimed.
Qed.

End Fresh.

(** X8, a witness: the two sentences of the answering host. *)
Lemma activeIndex_fresh_witness :
  activeIndex [mkSubtitleSegment 0%nat "Hello world." "Xin chao." 0%float 0%float;
               mkSubtitleSegment 1%nat "How are you?" "Ban khoe khong?" 0%float 0%float] 0%float
  = -1.
Proof.
  exact (activeIndex_fresh answering "Hello world. How are you?" ENGLISH "Kore" [] _ _ 0%float
           eq_refl).
Defined.

(** Past a cursor that is not negative, the aligned segments cover every
    time up to the end of the last one. *)
Lemma alignFrom_covers (t d c tm : float) (segs : list (SubtitleSegment float)) :
  Forall (fun seg => (0 <=? mul (div (ofNat (String.length (original seg))) t) d)%float = true)
         segs ->
  (0 <=? c)%float = true -> (c <=? tm)%float = true ->
  (tm <? cursorAfter t d c segs)%float = true ->
  exists i a, alignFrom t d c segs !! i = Some a /\ isActive tm a = true.
Proof.
  intros Hall. revert c.
  induction Hall as [|seg rest Hs _ IH]; intros c Hc Hle Hlt.
  - cbn in Hlt. apply ltb_not_leb in Hlt. congruence.
  - destruct (add_nonneg_ge c _ Hc Hs) as [Hnext Hge].
    cbn [alignFrom cursorAfter foldl] in *.
    set (next := add c (mul (div (ofNat (String.length (original seg))) t) d)) in *.
    destruct (tm <? next)%float eqn:Hin.
    + exists 0%nat. eexists. split; [reflexivity|].
      unfold isActive. cbn [startTime endTime]. fold next. now rewrite Hle, Hin.
    + apply not_ltb_leb in Hin;
        [|now destruct (leb_not_nan _ _ Hle) | now destruct (leb_not_nan _ _ Hnext)].
      destruct (IH next Hnext Hin Hlt) as (i & a & Ha & Hact).
      exists (S i), a. now split.
Qed.

Local Open Scope float_scope.

(** X9. With some characters, fewer than [2^53], and a duration from 0 to
    [2^1023], the active index of aligned segments, when it is an index
    [k], is that of a segment whose interval holds the playback position,
    start included and end excluded, and no other segment holds it: at
    most one subtitle is active at a time. *)
Theorem activeIndex_aligned
    (segments : list (SubtitleSegment float)) (duration currentTime : float) (k : nat) :
  (0 < sourceLength segments)%nat ->
  (Z.of_nat (sourceLength segments) < 2 ^ 53)%Z ->
  (0 <=? duration) = true -> (duration <=? 0x1p+1023) = true ->
  activeIndex (alignSegments segments duration) currentTime = Z.of_nat k ->
  exists a,
    alignSegments segments duration !! k = Some a
    /\ (startTime a <=? currentTime) = true /\ (currentTime <? endTime a) = true
    /\ forall j b, j <> k -> alignSegments segments duration !! j = Some b ->
         isActive currentTime b = false.
Proof.
  intros Hpos Hfit Hd0 Hdmax Hk.
  destruct (leb_number_1023 duration Hd0 Hdmax) as [Hnum Hval].
  pose proof (shares_double_nonneg segments duration Hpos Hfit Hnum Hval) as Hshares.
  assert (Hzero : (0 <=? @ofNat float double 0) = true) by reflexivity.
  unfold activeIndex in Hk.
  destruct (findIndex_cases (isActive currentTime) (alignSegments segments duration))
    as [[Hnone _]|(i & a & Hi & Ha & Hact & Hbefore)]; [lia|].
  assert (i = k) by lia. subst i. clear Hi Hk.
  exists a. split; [exact Ha|].
  unfold isActive in Hact. apply andb_prop in Hact. destruct Hact as [Hle Hlt].
  split; [exact Hle|]. split; [exact Hlt|].
  intros j b Hjk Hb.
  destruct (Nat.lt_ge_cases j k) as [Hlow|Hhigh]; [exact (Hbefore j b Hlow Hb)|].
  unfold isActive. destruct (startTime b <=? currentTime) eqn:Hsb; [|reflexivity].
  exfalso.
  destruct (lookup_lt_is_Some_2 (alignSegments segments duration) (S k)) as [n Hn].
  { apply lookup_lt_Some in Hb. lia. }
  pose proof (alignFrom_contiguous _ _ _ _ _ _ _ Ha Hn) as Hcont.
  pose proof (alignFrom_double_sorted (totalChars segments) duration (@ofNat float double 0)
                segments (S k) j n b Hshares Hzero ltac:(lia) Hn Hb) as Hsorted.
  destruct (alignFrom_double_after (totalChars segments) duration (@ofNat float double 0)
              segments (S k) n Hshares Hzero Hn) as (_ & Hn0 & _).
  rewrite <- Hcont in Hsorted, Hn0.
  apply ltb_not_leb in Hlt.
  rewrite (leb_trans_nonneg _ _ _ Hn0 Hsorted Hsb) in Hlt. discriminate.
Qed.

(** X9, a witness: six seconds into "Hello" and "World!!" over twelve. *)
Lemma activeIndex_aligned_witness :
  exists a,
    alignSegments [untimed 0 "Hello" "Xin chao"; untimed 1 "World!!" "The gioi!!"] 12
      !! 1%nat = Some a
    /\ (startTime a <=? 6) = true /\ (6 <? endTime a) = true.
Proof.
  destruct (activeIndex_aligned
              [untimed 0 "Hello" "Xin chao"; untimed 1 "World!!" "The gioi!!"] 12 6 1)
    as (a & Ha & Hstart & Hend & _);
    [cbn; lia | reflexivity | reflexivity | reflexivity | reflexivity |].
  exists a. split; [exact Ha|]. split; assumption.
Defined.

(** X10. With some characters, fewer than [2^53] of them in fewer than
    [2^31] segments, and a duration from 0 to [2^1023], the aligned
    segments leave no gap: some segment is active exactly when the
    playback position is at least 0 and before the end of the last
    segment; at that end and after it, before 0 and at NaN, none is. *)
Theorem activeIndex_covers
    (segments : list (SubtitleSegment float)) (duration currentTime : float)
    (z : SubtitleSegment float) :
  (0 < sourceLength segments)%nat ->
  (Z.of_nat (sourceLength segments) < 2 ^ 53)%Z ->
  (Z.of_nat (length segments) < 2 ^ 31)%Z ->
  (0 <=? duration) = true -> (duration <=? 0x1p+1023) = true ->
  last (alignSegments segments duration) = Some z ->
  activeIndex (alignSegments segments duration) currentTime <> (-1)%Z
  <-> (0 <=? currentTime) = true /\ (currentTime <? endTime z) = true.
Proof.
  intros Hpos Hfit Hlen Hd0 Hdmax Hlast.
  destruct (leb_number_1023 duration Hd0 Hdmax) as [Hnum Hval].
  pose proof (shares_double_nonneg segments duration Hpos Hfit Hnum Hval) as Hshares.
  assert (Hzero : (0 <=? @ofNat float double 0) = true) by reflexivity.
  destruct (alignSegments_double_end segments duration z Hpos Hfit Hlen Hnum Hval Hlast)
    as [Hnz _].
  split.
  - intros Hactive. unfold activeIndex in Hactive.
    destruct (findIndex_cases (isActive currentTime) (alignSegments segments duration))
      as [[Hnone _]|(i & a & _ & Ha & Hact & _)]; [contradiction|].
    unfold isActive in Hact. apply andb_prop in Hact. destruct Hact as [Hle Hlt].
    destruct (alignSegments_double_after segments duration i a Hpos Hfit Hd0 Hdmax Ha)
      as [Ha0 _].
    destruct (alignSegments_double_before_last segments duration i a z
                Hpos Hfit Hd0 Hdmax Ha Hlast) as [Hae0 Haz].
    pose proof (leb_trans_nonneg 0 _ _ eq_refl Ha0 Hle) as Ht0.
    split; [exact Ht0|].
    pose proof (leb_number _ _ Hae0 Haz Hnz) as Hna.
    pose proof (leb_number _ _ Ht0 (ltb_leb _ _ Hlt) Hna) as Hnt.
    apply value_ltb; [exact Hnt | exact Hnz|].
    pose proof (ltb_value _ _ Hnt Hna Hlt). pose proof (leb_value _ _ Hna Hnz Haz). lra.
  - intros [Ht0 Hlt] Hnone. unfold activeIndex in Hnone.
    rewrite (alignFrom_last_cursor _ _ _ _ _ Hlast) in Hlt.
    destruct (alignFrom_covers (totalChars segments) duration (@ofNat float double 0)
                currentTime segments Hshares Hzero Ht0 Hlt) as (i & a & Ha & Hact).
    destruct (findIndex_cases (isActive currentTime) (alignSegments segments duration))
      as [[_ Hall]|(i' & a' & Hi' & _)]; [|lia].
    rewrite (Hall i a Ha) in Hact. discriminate.
Qed.

(** X10, a witness: six seconds into twelve, a segment is active. *)
Lemma activeIndex_covers_witness :
  activeIndex
    (alignSegments [untimed 0 "Hello" "Xin chao"; untimed 1 "World!!" "The gioi!!"] 12) 6
  <> (-1)%Z.
Proof.
  refine (proj2 (activeIndex_covers
                   [untimed 0 "Hello" "Xin chao"; untimed 1 "World!!" "The gioi!!"] 12 6
                   (mkSubtitleSegment 1%nat "World!!" "The gioi!!" 5 12) _ _ _ _ _ _) _);
    try reflexivity; try (cbn; lia); split; reflexivity.
Defined.

(** X11. With some characters, fewer than [2^53], and a duration from 0
    to [2^1023], an aligned segment whose source text is empty ends at a
    double equal to its start, and is never the active one. *)
Theorem activeIndex_empty_source
    (segments : list (SubtitleSegment float)) (duration currentTime : float)
    (i : nat) (a : SubtitleSegment float) :
  (0 < sourceLength segments)%nat ->
  (Z.of_nat (sourceLength segments) < 2 ^ 53)%Z ->
  (0 <=? duration) = true -> (duration <=? 0x1p+1023) = true ->
  alignSegments segments duration !! i = Some a ->
  original a = "" ->
  (endTime a =? startTime a) = true
  /\ isActive currentTime a = false
  /\ activeIndex (alignSegments segments duration) currentTime <> Z.of_nat i.
Proof.
  intros Hpos Hfit Hd0 Hdmax Ha Hempty.
  destruct (alignSegments_double_empty segments duration i a Hpos Hfit Hd0 Hdmax Ha Hempty)
    as [H0 Heq].
  pose proof (isActive_empty currentTime a H0 Heq) as Hidle.
  split; [exact Heq|]. split; [exact Hidle|].
  unfold activeIndex.
  destruct (findIndex_cases (isActive currentTime) (alignSegments segments duration))
    as [[-> _]|(k & b & -> & Hb & Hact & _)]; [lia|].
  intros Hk. apply Nat2Z.inj in Hk. subst k. congruence.
Qed.

(** X11, a witness: an empty line between two sentences. *)
Lemma activeIndex_empty_source_witness :
  activeIndex
    (alignSegments [untimed 0 "Hello" "Xin chao"; untimed 1 "" ""; untimed 2 "World!!" "The gioi!!"]
                   12) 5
  <> 1%Z.
Proof.
  refine (proj2 (proj2 (activeIndex_empty_source
    [untimed 0 "Hello" "Xin chao"; untimed 1 "" ""; untimed 2 "World!!" "The gioi!!"] 12 5 1
    (mkSubtitleSegment 1%nat "" "" 5 5) _ _ _ _ _ _))); try reflexivity; cbn; lia.
Defined.

Local Close Scope float_scope.

End Display.
(** ** The player, continued: the remaining handlers and effects of App.tsx
    and the seek bar *)

Module Player.

Import Service Double Aligner App Display.

Local Open Scope float_scope.

(** [audio.play()] on an element that has a source: it is not paused any
    more. *)
Definition play (a : Audio.t) : Audio.t :=
  Audio.mk (Audio.src a) false (Audio.currentTime a) (Audio.playbackRate a) (Audio.volume a)
           (Audio.duration a).

Definition setInputText (v : string) (st : State) : State :=
  mkState v (selectedLang st) (selectedVoice st) (isGenerating st) (audioUrl st) (isPlaying st)
          (currentTime st) (duration st) (segments st) (seekStep st) (playbackRate st) (volume st)
          (audioRef st) (alerts st) (console st).

Definition setSelectedLang (v : Language) (st : State) : State :=
  mkState (inputText st) v (selectedVoice st) (isGenerating st) (audioUrl st) (isPlaying st)
          (currentTime st) (duration st) (segments st) (seekStep st) (playbackRate st) (volume st)
          (audioRef st) (alerts st) (console st).

Definition setSelectedVoice (v : VoiceOption) (st : State) : State :=
  mkState (inputText st) (selectedLang st) v (isGenerating st) (audioUrl st) (isPlaying st)
          (currentTime st) (duration st) (segments st) (seekStep st) (playbackRate st) (volume st)
          (audioRef st) (alerts st) (console st).

Definition setIsPlaying (v : bool) (st : State) : State :=
  mkState (inputText st) (selectedLang st) (selectedVoice st) (isGenerating st) (audioUrl st) v
          (currentTime st) (duration st) (segments st) (seekStep st) (playbackRate st) (volume st)
          (audioRef st) (alerts st) (console st).

Definition setSeekStep (v : float) (st : State) : State :=
  mkState (inputText st) (selectedLang st) (selectedVoice st) (isGenerating st) (audioUrl st)
          (isPlaying st) (currentTime st) (duration st) (segments st) v (playbackRate st)
          (volume st) (audioRef st) (alerts st) (console st).

Definition setPlaybackRate (v : float) (st : State) : State :=
  mkState (inputText st) (selectedLang st) (selectedVoice st) (isGenerating st) (audioUrl st)
          (isPlaying st) (currentTime st) (duration st) (segments st) (seekStep st) v
          (volume st) (audioRef st) (alerts st) (console st).

Definition setVolume (v : float) (st : State) : State :=
  mkState (inputText st) (selectedLang st) (selectedVoice st) (isGenerating st) (audioUrl st)
          (isPlaying st) (currentTime st) (duration st) (segments st) (seekStep st)
          (playbackRate st) v (audioRef st) (alerts st) (console st).

(** The state of the component when it is first rendered. *)
Definition initial : State := {|
  inputText := "";
  selectedLang := ENGLISH;
  selectedVoice := mkVoiceOption "Puck" "Puck" Male;
  isGenerating := false;
  audioUrl := None;
  isPlaying := false;
  currentTime := 0;
  duration := 0;
  segments := [];
  seekStep := 5;
  playbackRate := 1;
  volume := 1;
  audioRef := None;
  alerts := [];
  console := []
|}.

(** The effect that runs once: [audioRef.current = new Audio()]. *)
Definition initAudio (st : State) : State :=
  mkState (inputText st) (selectedLang st) (selectedVoice st) (isGenerating st) (audioUrl st)
          (isPlaying st) (currentTime st) (duration st) (segments st) (seekStep st)
          (playbackRate st) (volume st) (Some Audio.new) (alerts st) (console st).

(** The other listeners of the audio element: [loadedmetadata] with the
    duration the element has found, and [ended]. *)
Definition updateDuration (audio_duration : float) (st : State) : State :=
  setDuration audio_duration st.

Definition onEnded (st : State) : State := setIsPlaying false st.

(** The effect on [playbackRate] and [volume]. *)
Definition syncSettings (st : State) : State :=
  onAudio (Audio.set_volume (volume st)) (onAudio (Audio.set_playbackRate (playbackRate st)) st).

(** The effect on [duration] and [segments]: segments whose last end is
    still 0 are aligned once a duration is known. *)
Definition alignEffect (st : State) : State :=
  if (0 <? duration st) && (0 <? length (segments st))%nat
  then match last (segments st) with
       | Some seg =>
           if endTime seg =? 0
           then setSegments (alignSegments (segments st) (duration st)) st
           else st
       | None => st
       end
  else st.

(** [togglePlay()]. *)
Definition togglePlay (st : State) : State :=
  match audioRef st, truthy (audioUrl st) with
  | Some _, Some _ =>
      setIsPlaying (negb (isPlaying st))
        (if isPlaying st then onAudio Audio.pause st else onAudio play st)
  | _, _ => st
  end.

(** The [onChange] of the voice selector. *)
Definition onVoiceChange (value : string) (st : State) : State :=
  match find (fun v => String.eqb (voice_id v) value) VOICES with
  | Some voice => setSelectedVoice voice st
  | None => st
  end.

(** The [onSeekStart] and [onSeekEnd] the player gives to the seek bar. *)
Definition onSeekStart (st : State) : State :=
  if isPlaying st then onAudio Audio.pause st else st.

Definition onSeekEnd (st : State) : State :=
  if isPlaying st then onAudio play st else st.

(** *** components/SeekBar.tsx, continued *)

Module SeekBar.

Record Bar : Type := mkBar {
  isDragging : bool;
  hoverTime : option float;
  hoverPos : option float;
  dragTime : float
}.

(** The state of the bar when it is first rendered. *)
Definition idle : Bar := mkBar false None None 0.

End SeekBar.

(** The seek bar as the player mounts it: [currentTime] and [duration] are
    the player's, [onSeek] is [handleSeek]. Each handler takes the
    rectangle of the bar, if it is mounted, and the pointer position. When
    [onSeek] throws, [handleMouseUp] ends there: the drag is over,
    [onSeekEnd] has not been called, and the player is as it was. *)
Definition handleMouseDown (container : option DOMRect) (clientX : float)
    (bar : SeekBar.Bar) (st : State) : SeekBar.Bar * State :=
  let newTime := calculateTimeFromEvent container (duration st) clientX in
  (SeekBar.mkBar true (SeekBar.hoverTime bar) (SeekBar.hoverPos bar) newTime, onSeekStart st).

Definition handleMouseMove (container : option DOMRect) (clientX : float)
    (bar : SeekBar.Bar) (st : State) : SeekBar.Bar * State :=
  if SeekBar.isDragging bar
  then let newTime := calculateTimeFromEvent container (duration st) clientX in
       (SeekBar.mkBar true (SeekBar.hoverTime bar) (SeekBar.hoverPos bar) newTime, st)
  else (bar, st).

Definition handleMouseUp (container : option DOMRect) (clientX : float)
    (bar : SeekBar.Bar) (st : State) : SeekBar.Bar * Outcome State :=
  if SeekBar.isDragging bar
  then let newTime := calculateTimeFromEvent container (duration st) clientX in
       (SeekBar.mkBar false (SeekBar.hoverTime bar) (SeekBar.hoverPos bar) (SeekBar.dragTime bar),
        st ← handleSeek newTime st; Return (onSeekEnd st))
  else (bar, Return st).

(** [handleHoverMove(e)] and [handleHoverLeave()]. *)
Definition handleHoverMove (container : option DOMRect) (duration clientX : float)
    (bar : SeekBar.Bar) : SeekBar.Bar :=
  match container with
  | None => bar
  | Some rect =>
      SeekBar.mkBar (SeekBar.isDragging bar)
                      (Some (offsetX rect clientX / width rect * duration))
                      (Some (offsetX rect clientX))
                      (SeekBar.dragTime bar)
  end.

Definition handleHoverLeave (bar : SeekBar.Bar) : SeekBar.Bar :=
  SeekBar.mkBar (SeekBar.isDragging bar) None None (SeekBar.dragTime bar).

(** [progressPercent]. *)
Definition progressPercent (bar : SeekBar.Bar) (currentTime duration : float) : float :=
  let activeTime := if SeekBar.isDragging bar then SeekBar.dragTime bar else currentTime in
  if 0 <? duration then activeTime / duration * 100 else 0.

(** The state in which a request that succeeds leaves the player: the new
    source under [url], loaded into the element with the rate and the
    volume of the player, and the segments of the result. *)
Definition succeeded (url : string) (result : GenerationResult) (st : State) : State :=
  mkState (inputText st) (selectedLang st) (selectedVoice st) false (Some url) (isPlaying st)
          0 0 (Types.segments result) (seekStep st) (playbackRate st) (volume st)
          ((fun _ => Audio.mk url true 0 (playbackRate st) (volume st) nan) <$> audioRef st)
          (alerts st) (console st).

(** The player after a handler of the user's input: as the handler leaves
    it, or as it was when the handler throws before it changes anything. *)
Definition settled (st : State) (outcome : Outcome State) : State :=
  match outcome with
  | Return st' => st'
  | Throw _ => st
  end.

(** *** The player as a whole *)

(** What happens to the player once it is mounted: a render, the user's
    input, and the events of the audio element. *)
Inductive Event : Type :=
| Render
| Input (text : string)
| ChooseLanguage (language : Language)
| ChooseVoice (value : string)
| Generate
| TogglePlay
| Rewind
| Forward
| MouseDown (container : option DOMRect) (clientX : float)
| MouseMove (container : option DOMRect) (clientX : float)
| MouseUp (container : option DOMRect) (clientX : float)
| HoverMove (container : option DOMRect) (clientX : float)
| HoverLeave
| ChooseSeekStep (value : float)
| ChooseRate (value : float)
| ChooseVolume (value : float)
| TimeUpdate (position : float)
| LoadedMetadata (audio_duration : float)
| Ended.

Record World : Type := mkWorld {
  bar : SeekBar.Bar;
  app : State;
  requests : list Request
}.

Section Run.

Variable host : Host.
Variable atob : string -> Outcome string.
Variable createObjectURL : Wav.Blob -> string.

(** The handler of each event, followed by the effects that depend on the
    state it changes. *)
Definition handle (event : Event) (w : World) : World :=
  match event with
  | Render => mkWorld (bar w) (alignEffect (syncSettings (app w))) (requests w)
  | Input text => mkWorld (bar w) (setInputText text (app w)) (requests w)
  | ChooseLanguage language => mkWorld (bar w) (setSelectedLang language (app w)) (requests w)
  | ChooseVoice value => mkWorld (bar w) (onVoiceChange value (app w)) (requests w)
  | Generate =>
      let (st, log) := handleGenerate host atob createObjectURL (app w) (requests w) in
      mkWorld (bar w) (alignEffect st) log
  | TogglePlay => mkWorld (bar w) (togglePlay (app w)) (requests w)
  | Rewind =>
      mkWorld (bar w) (settled (app w) (skip (- seekStep (app w)) (app w))) (requests w)
  | Forward =>
      mkWorld (bar w) (settled (app w) (skip (seekStep (app w)) (app w))) (requests w)
  | MouseDown container clientX =>
      let (b, st) := handleMouseDown container clientX (bar w) (app w) in mkWorld b st (requests w)
  | MouseMove container clientX =>
      let (b, st) := handleMouseMove container clientX (bar w) (app w) in mkWorld b st (requests w)
  | MouseUp container clientX =>
      let (b, outcome) := handleMouseUp container clientX (bar w) (app w) in
      mkWorld b (settled (app w) outcome) (requests w)
  | HoverMove container clientX =>
      mkWorld (handleHoverMove container (duration (app w)) clientX (bar w)) (app w) (requests w)
  | HoverLeave => mkWorld (handleHoverLeave (bar w)) (app w) (requests w)
  | ChooseSeekStep value => mkWorld (bar w) (setSeekStep value (app w)) (requests w)
  | ChooseRate value => mkWorld (bar w) (syncSettings (setPlaybackRate value (app w))) (requests w)
  | ChooseVolume value => mkWorld (bar w) (syncSettings (setVolume value (app w))) (requests w)
  | TimeUpdate position =>
      mkWorld (bar w) (updateTime (onAudio (Audio.played position) (app w))) (requests w)
  | LoadedMetadata audio_duration =>
      mkWorld (bar w)
              (alignEffect (updateDuration audio_duration
                              (onAudio (Audio.loaded audio_duration) (app w))))
              (requests w)
  | Ended => mkWorld (bar w) (onEnded (app w)) (requests w)
  end.

(** The player when it is mounted: the first render, after which every
    effect has run once. *)
Definition mounted : World :=
  mkWorld SeekBar.idle (alignEffect (syncSettings (initAudio initial))) [].

(** The player after a sequence of events. *)
Definition run (events : list Event) : World :=
  foldl (fun w event => handle event w) mounted events.

(** What every state of the player satisfies. *)
Definition consistent (st : State) : Prop :=
  selectedVoice st ∈ VOICES
  /\ map id (segments st) = seq 0 (length (segments st))
  /\ exists audio, audioRef st = Some audio /\ Audio.src audio = default "" (audioUrl st).

End Run.

(** *** Generation *)

Section Generation.

Variable host : Host.
Variable atob : string -> Outcome string.
Variable createObjectURL : Wav.Blob -> string.

(** [handleGenerate], case by case. *)
Lemma handleGenerate_run (st : State) (log : list Request) :
  handleGenerate host atob createObjectURL st log
  = if isBlank (inputText st) then (st, log)
    else match processContent host (inputText st) (selectedLang st) (name (selectedVoice st)) log with
         | (Throw error, log') => (failed error st, log')
         | (Return result, log') =>
             match Wav.base64ToWavBlob atob (audioBase64 result) None with
             | Throw error => (failed error st, log')
             | Return blob => (succeeded (createObjectURL blob) result st, log')
             end
         end.
Proof.
  destruct st as [text lang voice busy url playing time total segs step rate vol audio shown logged].
  unfold handleGenerate, generate, mbind, Async_mbind, Async_bind. cbn [inputText].
  destruct (isBlank text); [reflexivity|].
  cbn [inputText selectedLang selectedVoice setIsGenerating setAudioUrl setSegments
       setCurrentTime setDuration onAudio isGenerating audioUrl isPlaying currentTime duration
       segments seekStep playbackRate volume audioRef alerts console].
  destruct (processContent host text lang (name voice) log) as [[result|error] log'].
  - unfold lift. destruct (Wav.base64ToWavBlob atob (audioBase64 result) None) as [blob|error].
    + unfold succeeded. cbn. now destruct audio.
    + unfold failed. cbn. now destruct audio.
  - unfold failed. cbn. now destruct audio.
Qed.

(** X12. Whatever its outcome, [handleGenerate] leaves the input text,
    the language, the voice, the seek step, the playback rate, the volume
    and the play flag as they were. On an input that is not blank it ends
    with the busy flag cleared, the position and the duration at 0, and
    the audio element paused, while the play flag still is what it was. *)
Theorem handleGenerate_keeps_settings (st : State) (log : list Request) :
  let st' := fst (handleGenerate host atob createObjectURL st log) in
  inputText st' = inputText st
  /\ selectedLang st' = selectedLang st
  /\ selectedVoice st' = selectedVoice st
  /\ seekStep st' = seekStep st
  /\ playbackRate st' = playbackRate st
  /\ volume st' = volume st
  /\ isPlaying st' = isPlaying st
  /\ (isBlank (inputText st) = false ->
      isGenerating st' = false
      /\ currentTime st' = 0 /\ duration st' = 0
      /\ forall audio, audioRef st' = Some audio -> Audio.paused audio = true).
Proof.
  cbn zeta. rewrite handleGenerate_run.
  destruct (isBlank (inputText st)); [now repeat split|].
  assert (Hfailed : forall error audio,
            audioRef (failed error st) = Some audio -> Audio.paused audio = true).
  { intros error audio. cbn. destruct (audioRef st); cbn; [|discriminate]. now intros [= <-]. }
  assert (Hsucceeded : forall url result audio,
            audioRef (succeeded url result st) = Some audio -> Audio.paused audio = true).
  { intros url result audio. cbn. destruct (audioRef st); cbn; [|discriminate]. now intros [= <-]. }
  destruct (processContent host _ _ _ log) as [[result|error] log'];
    [destruct (Wav.base64ToWavBlob atob _ None) as [blob|error]|];
    cbn [fst]; repeat split; try reflexivity; intros; eauto.
Qed.

(** X13. When the orchestrator returns a result and its audio decodes,
    [handleGenerate] makes the remote calls of the orchestrator and no
    other, publishes the address of a blob that holds the 44 header bytes
    for 24000 Hz followed by the decoded audio, installs the segments of
    the result, leaves position and duration at 0, clears the busy flag
    and shows no notification; the audio element, if there is one, has the
    new address as its source, is paused at 0 and has the playback rate
    and the volume of the player again. *)
Theorem handleGenerate_success
    (st : State) (log log' : list Request) (result : GenerationResult) (binaryString : string) :
  isBlank (inputText st) = false ->
  processContent host (inputText st) (selectedLang st) (name (selectedVoice st)) log
  = (Return result, log') ->
  atob (audioBase64 result) = Return binaryString ->
  let blob := Wav.mkBlob (Wav.headerBytes (Z.of_nat (String.length binaryString)) 24000
                          ++ Wav.bytesOf binaryString) "audio/wav" in
  let st' := fst (handleGenerate host atob createObjectURL st log) in
  snd (handleGenerate host atob createObjectURL st log) = log'
  /\ audioUrl st' = Some (createObjectURL blob)
  /\ segments st' = Types.segments result
  /\ currentTime st' = 0 /\ duration st' = 0
  /\ isGenerating st' = false
  /\ alerts st' = alerts st /\ console st' = console st
  /\ audioRef st'
     = (fun _ => Audio.mk (createObjectURL blob) true 0 (playbackRate st) (volume st) nan)
       <$> audioRef st.
Proof.
  intros Hblank Hresult Hatob. cbn zeta.
  rewrite handleGenerate_run, Hblank, Hresult.
  rewrite (Wav.base64ToWavBlob_bytes atob _ _ None Hatob).
  cbn. now repeat split.
Qed.

End Generation.

(** X12, a witness: a request that fails, made while playing. *)
Lemma handleGenerate_keeps_settings_witness :
  isGenerating (fst (handleGenerate offline Wav.window_atob objectURL playing [])) = false
  /\ isPlaying (fst (handleGenerate offline Wav.window_atob objectURL playing [])) = true.
Proof.
  pose proof (handleGenerate_keeps_settings offline Wav.window_atob objectURL playing [])
    as Hkeeps.
  cbn zeta in Hkeeps. destruct Hkeeps as (_ & _ & _ & _ & _ & _ & Hplaying & Hrest).
  destruct (Hrest eq_refl) as [Hbusy _]. split; [exact Hbusy | exact Hplaying].
Defined.

(** X13, a witness: the answering host. *)
Lemma handleGenerate_success_witness :
  segments (fst (handleGenerate answering Wav.window_atob objectURL playing []))
  = [mkSubtitleSegment 0%nat "Hello world." "Xin chao." 0 0;
     mkSubtitleSegment 1%nat "How are you?" "Ban khoe khong?" 0 0]
  /\ audioRef (fst (handleGenerate answering Wav.window_atob objectURL playing []))
     = Some (Audio.mk "blob:next" true 0 1 1 nan).
Proof.
  destruct (handleGenerate_success answering Wav.window_atob objectURL playing [] _ _ _
              eq_refl eq_refl eq_refl)
    as (_ & _ & Hsegments & _ & _ & _ & _ & _ & Haudio).
  split; [exact Hsegments | exact Haudio].
Defined.

(** *** Playback *)



(** *** Alignment *)

(** X15. With fewer than [2^53] characters in fewer than [2^31] segments
    and a duration from [2^-1022] to [2^1023], the effect on the duration
    and the segments aligns segments whose last end is 0, leaves segments
    whose last end is not 0 alone, and is stable: run again on its own
    result it changes nothing, so the segments are aligned once. *)
Theorem alignEffect_once (st : State) :
  (Z.of_nat (sourceLength (segments st)) < 2 ^ 53)%Z ->
  (Z.of_nat (length (segments st)) < 2 ^ 31)%Z ->
  (0x1p-1022 <=? duration st) = true -> (duration st <=? 0x1p+1023) = true ->
  (forall seg, last (segments st) = Some seg -> (endTime seg =? 0) = true ->
     segments (alignEffect st) = alignSegments (segments st) (duration st))
  /\ (forall seg, last (segments st) = Some seg -> (endTime seg =? 0) = false ->
        alignEffect st = st)
  /\ alignEffect (alignEffect st) = alignEffect st.
Proof.
  intros Hfit Hlen Hdmin Hdmax.
  assert (Hd0 : (0 <? duration st) = true).
  { apply value_ltb; [exact I | |].
    - apply (leb_number_1023 (duration st)); [|exact Hdmax].
      exact (leb_trans_nonneg 0 0x1p-1022 (duration st) eq_refl eq_refl Hdmin).
    - apply Qlt_le_trans with (value 0x1p-1022); [vm_compute; reflexivity|].
      apply leb_value; [exact I | | exact Hdmin].
      apply (leb_number_1023 (duration st)); [|exact Hdmax].
      exact (leb_trans_nonneg 0 0x1p-1022 (duration st) eq_refl eq_refl Hdmin). }
  destruct st as [text lang voice busy src playing time total segs step rate vol ref shown logged].
  cbn [segments duration] in *.
  unfold alignEffect. cbn [segments duration setSegments]. rewrite Hd0. cbn [andb].
  destruct segs as [|seg0 rest] eqn:Hsegs;
    [cbn; split; [|split]; [intros; discriminate | intros; discriminate | now rewrite ?Hd0]|].
  rewrite <- Hsegs in *. assert (Hpos : (0 <? length segs)%nat = true) by now rewrite Hsegs.
  rewrite Hpos.
  destruct (last segs) as [seg|] eqn:Hlast;
    [|apply last_None in Hlast; congruence].
  split; [|split].
  - intros seg' [= <-] Hzero. now rewrite Hzero.
  - intros seg' [= <-] Hzero. now rewrite Hzero.
  - destruct (endTime seg =? 0) eqn:Hzero.
    + cbn [segments duration setSegments
           inputText selectedLang selectedVoice isGenerating audioUrl isPlaying currentTime
           seekStep playbackRate volume audioRef alerts console].
      rewrite Hd0. unfold alignSegments at 1. rewrite alignFrom_length, Hpos. cbn [andb].
      fold (alignSegments segs total).
      destruct (last (alignSegments segs total)) as [z|] eqn:Hz; [|reflexivity].
      now rewrite (alignSegments_double_settled segs total z Hfit Hlen Hdmin Hdmax Hz).
    + cbn [segments duration]. now rewrite Hd0, Hpos, Hlast, Hzero.
Qed.

(** X15, a witness: two fresh segments and twelve seconds. *)
Lemma alignEffect_once_witness :
  segments (alignEffect (updateDuration 12
     (setSegments [untimed 0 "Hello" "Xin chao"; untimed 1 "World!!" "The gioi!!"] playing)))
  = alignSegments [untimed 0 "Hello" "Xin chao"; untimed 1 "World!!" "The gioi!!"] 12.
Proof.
  refine (proj1 (alignEffect_once
    (updateDuration 12
       (setSegments [untimed 0 "Hello" "Xin chao"; untimed 1 "World!!" "The gioi!!"] playing))
    _ _ _ _) _ eq_refl eq_refl); reflexivity.
Defined.

(** Segments that have not been aligned are aligned as soon as the
    duration is positive. *)
Lemma alignEffect_untimed (st : State) :
  (0 <? duration st) = true ->
  Forall (fun seg => startTime seg = 0 /\ endTime seg = 0) (segments st) ->
  segments (alignEffect st) = alignSegments (segments st) (duration st).
Proof.
  destruct st as [text lang voice busy src playing time total segs step rate vol ref shown logged].
  cbn [segments duration]. intros Hd Hall.
  unfold alignEffect. cbn [segments duration]. rewrite Hd. cbn [andb].
  destruct segs as [|seg0 rest] eqn:Hsegs; [reflexivity|].
  rewrite <- Hsegs in *. assert (Hpos : (0 <? length segs)%nat = true) by now rewrite Hsegs.
  rewrite Hpos.
  destruct (last segs) as [seg|] eqn:Hlast; [|apply last_None in Hlast; congruence].
  apply last_lookup_length in Hlast.
  destruct (Forall_lookup_1 _ _ _ _ Hall Hlast) as [_ ->].
  reflexivity.
Qed.

Section Pipeline.

Variable host : Host.
Variable atob : string -> Outcome string.
Variable createObjectURL : Wav.Blob -> string.

(** X16. After a generation that succeeds the effect has nothing to
    align, the duration being 0; once the audio element reports a positive
    duration, the effect replaces the segments of the result by their
    alignment over that duration. *)
Theorem generated_segments_aligned
    (st : State) (log log' : list Request) (result : GenerationResult)
    (binaryString : string) (audio_duration : float) :
  isBlank (inputText st) = false ->
  processContent host (inputText st) (selectedLang st) (name (selectedVoice st)) log
  = (Return result, log') ->
  atob (audioBase64 result) = Return binaryString ->
  (0 <? audio_duration) = true ->
  let generated := fst (handleGenerate host atob createObjectURL st log) in
  alignEffect generated = generated
  /\ segments (alignEffect (updateDuration audio_duration generated))
     = alignSegments (Types.segments result) audio_duration
  /\ duration (alignEffect (updateDuration audio_duration generated)) = audio_duration.
Proof.
  intros Hblank Hresult Hatob Hd. cbn zeta.
  rewrite handleGenerate_run, Hblank, Hresult.
  rewrite (Wav.base64ToWavBlob_bytes atob _ _ None Hatob). cbn [fst].
  set (url := createObjectURL _).
  destruct (processContent_untimed _ _ _ _ _ _ _ Hresult) as [rawSegments Hraw].
  split; [reflexivity|].
  assert (Hsegs : segments (alignEffect (updateDuration audio_duration (succeeded url result st)))
                  = alignSegments (Types.segments result) audio_duration).
  { rewrite alignEffect_untimed; [reflexivity | exact Hd |].
    cbn [updateDuration setDuration segments succeeded]. rewrite Hraw. apply indexed_untimed. }
  split; [exact Hsegs|].
  unfold alignEffect.
  destruct ((0 <? duration _) && _); [|reflexivity].
  destruct (last _) as [seg|]; [|reflexivity].
  now destruct (endTime seg =? 0).
Qed.

End Pipeline.

(** X16, a witness: five seconds of audio for the answering host. *)
Lemma generated_segments_aligned_witness :
  segments (alignEffect (updateDuration 5
             (fst (handleGenerate answering Wav.window_atob objectURL playing []))))
  = alignSegments [untimed 0 "Hello world." "Xin chao."; untimed 1 "How are you?" "Ban khoe khong?"] 5.
Proof.
  exact (proj1 (proj2 (generated_segments_aligned answering Wav.window_atob objectURL playing []
                         _ _ _ 5 eq_refl eq_refl eq_refl eq_refl))).
Defined.

(** *** The voice selector *)

(** X17. The voice selector keeps the selected voice among [VOICES]: a
    value that is the id of a voice selects a voice with that id, any other
    value changes nothing. *)
Theorem onVoiceChange_known (value : string) (st : State) :
  selectedVoice st ∈ VOICES ->
  selectedVoice (onVoiceChange value st) ∈ VOICES
  /\ (value ∈ (voice_id <$> VOICES) -> voice_id (selectedVoice (onVoiceChange value st)) = value)
  /\ (value ∉ (voice_id <$> VOICES) -> onVoiceChange value st = st).
Proof.
  intros Hin. unfold onVoiceChange.
  destruct (find (fun v => String.eqb (voice_id v) value) VOICES) as [voice|] eqn:Hfind.
  - apply find_some in Hfind. destruct Hfind as [Hvoice Heq].
    apply String.eqb_eq in Heq. apply list_elem_of_In in Hvoice.
    split; [exact Hvoice|]. split; [intros _; exact Heq|].
    intros Hnot. exfalso. apply Hnot. rewrite <- Heq. now apply list_elem_of_fmap_2.
  - split; [exact Hin|]. split; [|reflexivity].
    intros Hvalue. apply list_elem_of_fmap in Hvalue. destruct Hvalue as (voice & -> & Hvoice).
    apply list_elem_of_In in Hvoice.
    pose proof (find_none _ _ Hfind voice Hvoice) as Hneq. cbn beta in Hneq.
    now rewrite String.eqb_refl in Hneq.
Qed.

(** X17, a witness: choosing Zephyr. *)
Lemma onVoiceChange_known_witness :
  voice_id (selectedVoice (onVoiceChange "Zephyr" playing)) = "Zephyr".
Proof.
  refine (proj1 (proj2 (onVoiceChange_known "Zephyr" playing _)) _).
  - unfold VOICES. cbn. repeat constructor.
  - unfold VOICES. cbn. repeat constructor.
Defined.

(** *** The seek bar *)

(** X18. On a bar of positive finite width, for a pointer position that
    is a number and a finite duration that is not negative, the time
    [calculateTimeFromEvent] computes in doubles lies between 0 and the
    duration; it is 0 when the pointer is at or before the start of the
    bar, and equal to the duration when it is at or past its end. *)
Theorem calculateTimeFromEvent_within (rect : DOMRect) (duration clientX : float) :
  (0 <? width rect) = true -> (width rect <? infinity) = true ->
  is_nan (clientX - left rect) = false ->
  (0 <=? duration) = true -> (duration <? infinity) = true ->
  ((0 <=? calculateTimeFromEvent (Some rect) duration clientX) = true
   /\ (calculateTimeFromEvent (Some rect) duration clientX <=? duration) = true)
  /\ ((clientX - left rect <=? 0) = true ->
      (calculateTimeFromEvent (Some rect) duration clientX =? 0) = true)
  /\ ((width rect <=? clientX - left rect) = true ->
      (calculateTimeFromEvent (Some rect) duration clientX =? duration) = true).
Proof.
  intros Hw Hwfin Hx Hd0 Hdfin. unfold calculateTimeFromEvent.
  destruct (duration =? 0) eqn:Hzero; [|now apply pointer_time].
  split; [split; [reflexivity | exact Hd0]|]. split; [reflexivity|].
  intros _. revert Hzero.
  rewrite !FloatAxioms.eqb_spec. unfold SFeqb.
  rewrite (SFcompare_antisym (Prim2SF duration) (Prim2SF 0)).
  now destruct (SFcompare (Prim2SF duration) (Prim2SF 0)) as [[]|].
Qed.

(** X18, a witness: a bar from 100 to 500 and twelve seconds; the pointer
    at 50 gives 0, the pointer at 700 gives 12. *)
Lemma calculateTimeFromEvent_within_witness :
  (calculateTimeFromEvent (Some (mkDOMRect 100 400)) 12 50 =? 0) = true
  /\ (calculateTimeFromEvent (Some (mkDOMRect 100 400)) 12 700 =? 12) = true.
Proof.
  split.
  - refine (proj1 (proj2 (calculateTimeFromEvent_within (mkDOMRect 100 400) 12 50 _ _ _ _ _)) _);
      reflexivity.
  - refine (proj2 (proj2 (calculateTimeFromEvent_within (mkDOMRect 100 400) 12 700 _ _ _ _ _)) _);
      reflexivity.
Defined.

(** X19. On a bar of width 0 the time is [0 / 0 * duration]: for a
    pointer position that is a number and a duration other than 0,
    [calculateTimeFromEvent] answers NaN. The release of a drag then fails:
    the audio element refuses NaN with a [TypeError], which [handleSeek]
    and [handleMouseUp] let through, so that the drag is over but nothing
    of the player has changed: no position is published, the element
    stays where it was, and [onSeekEnd] is not called, which leaves an
    element that the drag has paused paused. *)
Theorem calculateTimeFromEvent_zero_width
    (host : Host) (atob : string -> Outcome string) (createObjectURL : Wav.Blob -> string)
    (rect : DOMRect) (clientX : float) (w : World) (audio : Audio.t) :
  width rect = 0 -> is_nan (clientX - left rect) = false ->
  (duration (app w) =? 0) = false ->
  calculateTimeFromEvent (Some rect) (duration (app w)) clientX = nan
  /\ (SeekBar.isDragging (bar w) = true -> audioRef (app w) = Some audio ->
      handleSeek (calculateTimeFromEvent (Some rect) (duration (app w)) clientX) (app w)
      = Throw TypeError
      /\ handleMouseUp (Some rect) clientX (bar w) (app w)
         = (SeekBar.mkBar false (SeekBar.hoverTime (bar w)) (SeekBar.hoverPos (bar w))
                          (SeekBar.dragTime (bar w)),
            Throw TypeError)
      /\ handle host atob createObjectURL (MouseUp (Some rect) clientX) w
         = mkWorld (SeekBar.mkBar false (SeekBar.hoverTime (bar w)) (SeekBar.hoverPos (bar w))
                                  (SeekBar.dragTime (bar w)))
                   (app w) (requests w)).
Proof.
  intros Hwidth Hx Hzero.
  assert (Hcalc : calculateTimeFromEvent (Some rect) (duration (app w)) clientX = nan).
  { unfold calculateTimeFromEvent. rewrite Hzero.
    assert (Hoff : offsetX rect clientX = 0).
    { unfold offsetX. apply Math_max_0_l. rewrite Hwidth.
      now apply (Math_min_le_r (clientX - left rect) 0 Hx). }
    rewrite Hoff, Hwidth. change (0 / 0) with nan. apply Aligner.nan_mul_l. }
  split; [exact Hcalc|].
  intros Hdrag Haudio.
  assert (Hseek : handleSeek nan (app w) = Throw TypeError).
  { unfold handleSeek. now rewrite Haudio. }
  rewrite Hcalc. split; [exact Hseek|].
  assert (Hup : handleMouseUp (Some rect) clientX (bar w) (app w)
                = (SeekBar.mkBar false (SeekBar.hoverTime (bar w)) (SeekBar.hoverPos (bar w))
                                 (SeekBar.dragTime (bar w)),
                   Throw TypeError)).
  { unfold handleMouseUp. now rewrite Hdrag, Hcalc, Hseek. }
  split; [exact Hup|].
  cbn [handle]. now rewrite Hup.
Qed.

(** X19, a witness: the release of a drag over a collapsed bar leaves the
    player three seconds into twelve. *)
Lemma calculateTimeFromEvent_zero_width_witness :
  calculateTimeFromEvent (Some (mkDOMRect 100 0)) 12 250 = nan
  /\ handle offline Wav.window_atob objectURL (MouseUp (Some (mkDOMRect 100 0)) 250)
       (mkWorld (SeekBar.mkBar true None None 3) playing [])
     = mkWorld (SeekBar.mkBar false None None 3) playing [].
Proof.
  destruct (calculateTimeFromEvent_zero_width offline Wav.window_atob objectURL
              (mkDOMRect 100 0) 250 (mkWorld (SeekBar.mkBar true None None 3) playing [])
              (Audio.mk "blob:previous" false 3 1 1 12) eq_refl eq_refl eq_refl)
    as [Hnan Hrelease].
  split; [exact Hnan|].
  destruct (Hrelease eq_refl eq_refl) as (_ & _ & Hhandle). exact Hhandle.
Defined.

(** X20. On a bar of positive finite width, for a pointer position that
    is a number and a finite duration that is not negative,
    [handleHoverMove] records a tooltip position between 0 and the width
    of the bar and a tooltip time between 0 and the duration, and leaves
    the drag alone; [handleHoverLeave] clears both; without a mounted bar
    [handleHoverMove] does nothing. *)
Theorem handleHoverMove_within
    (rect : DOMRect) (duration clientX : float) (bar : SeekBar.Bar) :
  (0 <? width rect) = true -> (width rect <? infinity) = true ->
  is_nan (clientX - left rect) = false ->
  (0 <=? duration) = true -> (duration <? infinity) = true ->
  (exists pos time,
     SeekBar.hoverPos (handleHoverMove (Some rect) duration clientX bar) = Some pos
     /\ SeekBar.hoverTime (handleHoverMove (Some rect) duration clientX bar) = Some time
     /\ (0 <=? pos) = true /\ (pos <=? width rect) = true
     /\ (0 <=? time) = true /\ (time <=? duration) = true)
  /\ SeekBar.isDragging (handleHoverMove (Some rect) duration clientX bar)
     = SeekBar.isDragging bar
  /\ SeekBar.dragTime (handleHoverMove (Some rect) duration clientX bar) = SeekBar.dragTime bar
  /\ SeekBar.hoverPos (handleHoverLeave (handleHoverMove (Some rect) duration clientX bar)) = None
  /\ SeekBar.hoverTime (handleHoverLeave (handleHoverMove (Some rect) duration clientX bar)) = None
  /\ handleHoverMove None duration clientX bar = bar.
Proof.
  intros Hw Hwfin Hx Hd0 Hdfin.
  destruct (pointer_time rect duration clientX Hw Hwfin Hx Hd0 Hdfin) as [[Ht0 Htd] _].
  destruct (offsetX_between rect clientX Hx (ltb_leb _ _ Hw)) as [Ho0 Hole].
  split; [|now repeat split].
  eexists. eexists. cbn [handleHoverMove SeekBar.hoverPos SeekBar.hoverTime].
  split; [reflexivity|]. split; [reflexivity|]. now repeat split.
Qed.

(** X20, a witness: the pointer over the middle of the bar. *)
Lemma handleHoverMove_within_witness :
  SeekBar.hoverPos
    (handleHoverLeave (handleHoverMove (Some (mkDOMRect 100 400)) 12 300 SeekBar.idle))
  = None.
Proof.
  refine (proj1 (proj2 (proj2 (proj2
    (handleHoverMove_within (mkDOMRect 100 400) 12 300 SeekBar.idle _ _ _ _ _)))));
    reflexivity.
Defined.

(** X21. [progressPercent] is 0 when the duration is not positive.
    While the position is between 0 and a finite duration, the position
    shown being the drag time during a drag and the current time
    otherwise, [progressPercent] lies between 0 and 100. *)
Theorem progressPercent_within (bar : SeekBar.Bar) (currentTime duration : float) :
  ((0 <? duration) = false -> progressPercent bar currentTime duration = 0)
  /\ ((0 <=? (if SeekBar.isDragging bar then SeekBar.dragTime bar else currentTime)) = true ->
      ((if SeekBar.isDragging bar then SeekBar.dragTime bar else currentTime) <=? duration)
      = true ->
      (duration <? infinity) = true ->
      (0 <=? progressPercent bar currentTime duration) = true
      /\ (progressPercent bar currentTime duration <=? 100) = true).
Proof.
  unfold progressPercent.
  set (activeTime := if SeekBar.isDragging bar then SeekBar.dragTime bar else currentTime).
  split; [now intros ->|].
  intros Ha0 Had Hdfin.
  destruct (0 <? duration) eqn:Hd; [|split; reflexivity].
  pose proof (finite_number _ (ltb_leb _ _ Hd) Hdfin) as Hnd.
  pose proof (leb_number _ _ Ha0 Had Hnd) as Hna.
  pose proof (leb_value _ _ Hna Hnd Had) as Hav.
  assert (HD : (0 < value duration)%Q) by (apply (ltb_value 0); [exact I | exact Hnd | exact Hd]).
  assert (Hone : (value 1 == 1)%Q) by (vm_compute; reflexivity).
  destruct (div_le activeTime duration 1 Hna Hnd I HD) as [Hnq Hq]; [rewrite Hone; lra|].
  rewrite Hone in Hq. pose proof (value_nonneg _ Hnq) as Hq0.
  assert (Hhundred : (0 <= value 100)%Q) by (vm_compute; discriminate).
  destruct (mul_le (activeTime / duration) 100 100 Hnq I I) as [Hnp Hp]; [nra|].
  split; [now apply number_leb | now apply value_leb].
Qed.

(** X21, a witness: three seconds of twelve, and three seconds of a
    duration that is not known yet. *)
Lemma progressPercent_within_witness :
  (progressPercent SeekBar.idle 3 12 <=? 100) = true
  /\ progressPercent SeekBar.idle 3 0 = 0
  /\ progressPercent SeekBar.idle 3 nan = 0.
Proof.
  split; [|split].
  - refine (proj2 (proj2 (progressPercent_within SeekBar.idle 3 12) _ _ _)); reflexivity.
  - exact (proj1 (progressPercent_within SeekBar.idle 3 0) eq_refl).
  - exact (proj1 (progressPercent_within SeekBar.idle 3 nan) eq_refl).
Defined.



(** *** What every state of the player satisfies *)

Section Invariant.

Variable host : Host.
Variable atob : string -> Outcome string.
Variable createObjectURL : Wav.Blob -> string.

Lemma indexed_ids (rawSegments : list RawSegment) :
  map id (indexed rawSegments) = seq 0 (length (indexed rawSegments)).
Proof.
  apply list_eq. intros i. rewrite list_lookup_fmap.
  destruct (indexed rawSegments !! i) as [seg|] eqn:Hseg; cbn.
  - pose proof (lookup_lt_Some _ _ _ Hseg) as Hi.
    apply indexed_lookup in Hseg. destruct Hseg as (raw & _ & ->). cbn.
    symmetry. now apply lookup_seq.
  - symmetry. apply lookup_ge_None. rewrite length_seq. now apply lookup_ge_None.
Qed.

Lemma alignSegments_ids (segs : list (SubtitleSegment float)) (d : float) :
  map id segs = seq 0 (length segs) ->
  map id (alignSegments segs d) = seq 0 (length (alignSegments segs d)).
Proof.
  intros Hids. unfold alignSegments. rewrite alignFrom_length, <- Hids.
  pose proof (f_equal (map (fun p : nat * string * string => p.1.1))
                (alignFrom_texts (totalChars segs) d (ofNat 0) segs)) as Htexts.
  now rewrite !map_map in Htexts.
Qed.

Lemma alignEffect_consistent (st : State) : consistent st -> consistent (alignEffect st).
Proof.
  intros (Hvoice & Hids & Hsrc). unfold alignEffect.
  destruct ((0 <? duration st) && _); [|now repeat split].
  destruct (last (segments st)) as [seg|]; [|now repeat split].
  destruct (endTime seg =? 0); [|now repeat split].
  destruct st. cbn in *. repeat split; try assumption. now apply alignSegments_ids.
Qed.

Lemma handleGenerate_consistent (st : State) (log : list Request) :
  consistent st -> consistent (fst (handleGenerate host atob createObjectURL st log)).
Proof.
  intros (Hvoice & Hids & audio & Haudio & Hsrc). rewrite handleGenerate_run.
  destruct (isBlank (inputText st)); [split; [|split]; eauto|].
  assert (Hfailed : forall error, consistent (failed error st)).
  { intros error. split; [exact Hvoice|]. split; [reflexivity|].
    cbn. rewrite Haudio. cbn. eauto. }
  destruct (processContent host _ _ _ log) as [[result|error] log'] eqn:Hresult;
    [|apply Hfailed].
  destruct (Wav.base64ToWavBlob atob _ None) as [blob|error]; [|apply Hfailed].
  destruct (processContent_untimed _ _ _ _ _ _ _ Hresult) as [rawSegments Hraw].
  cbn [fst]. split; [exact Hvoice|]. split.
  - cbn [segments succeeded]. rewrite Hraw. apply indexed_ids.
  - cbn. rewrite Haudio. cbn. eauto.
Qed.

Lemma onVoiceChange_consistent (value : string) (st : State) :
  consistent st -> consistent (onVoiceChange value st).
Proof.
  intros (Hvoice & Hids & Hsrc). unfold onVoiceChange.
  destruct (find _ VOICES) as [voice|] eqn:Hfind; [|now repeat split].
  apply find_some in Hfind. destruct Hfind as [Hin _]. apply list_elem_of_In in Hin.
  destruct st. cbn in *. now repeat split.
Qed.

Ltac framed st := destruct st as [? ? ? ? ? ? ? ? ? ? ? ? [?|] ? ?]; reflexivity.

(** A handler that keeps the voice, the segments and the address of the
    source keeps the player consistent. *)
Lemma consistent_frame (st st' : State) :
  selectedVoice st' = selectedVoice st -> segments st' = segments st ->
  audioUrl st' = audioUrl st -> Audio.src <$> audioRef st' = Audio.src <$> audioRef st ->
  consistent st -> consistent st'.
Proof.
  intros Hv Hs Hu Ha (Hvoice & Hids & audio & Haudio & Hsrc).
  unfold consistent. rewrite Hv, Hs, Hu. split; [exact Hvoice|]. split; [exact Hids|].
  rewrite Haudio in Ha. destruct (audioRef st') as [audio'|]; [|discriminate].
  exists audio'. split; [reflexivity|]. cbn in Ha. congruence.
Qed.

(** A seek keeps the source of the element. *)
Lemma set_currentTime_src (v : float) (a a' : Audio.t) :
  Audio.set_currentTime v a = Return a' -> Audio.src a' = Audio.src a.
Proof.
  unfold Audio.set_currentTime. destruct (Audio.finite v); [|discriminate].
  now intros [= <-].
Qed.

Lemma skip_consistent (amount : float) (st : State) :
  consistent st -> consistent (settled st (skip amount st)).
Proof.
  intros Hw. unfold skip. destruct (audioRef st) as [audio|] eqn:Haudio; [|exact Hw].
  destruct (Audio.set_currentTime _ audio) as [audio'|error] eqn:Hseek; [|exact Hw].
  apply set_currentTime_src in Hseek.
  apply (consistent_frame st); [reflexivity | reflexivity | reflexivity | | exact Hw].
  cbn. rewrite Haudio. cbn. now rewrite Hseek.
Qed.

Lemma handleMouseUp_consistent (container : option DOMRect) (clientX : float)
    (b : SeekBar.Bar) (st : State) :
  consistent st -> consistent (settled st (snd (handleMouseUp container clientX b st))).
Proof.
  intros Hw. unfold handleMouseUp. destruct (SeekBar.isDragging b); [|exact Hw].
  cbn [snd]. unfold handleSeek.
  destruct (audioRef st) as [audio|] eqn:Haudio.
  - destruct (Audio.set_currentTime _ audio) as [audio'|error] eqn:Hseek; [|exact Hw].
    apply set_currentTime_src in Hseek. cbn.
    apply (consistent_frame st); [| | | |exact Hw]; unfold onSeekEnd;
      destruct st as [? ? ? ? ? playing ? ? ? ? ? ? ? ? ?]; cbn in *; subst;
      destruct playing; cbn; now rewrite ?Hseek.
  - cbn. apply (consistent_frame st); [| | | |exact Hw]; unfold onSeekEnd;
      destruct st as [? ? ? ? ? playing ? ? ? ? ? ? ? ? ?]; cbn in *; subst;
      destruct playing; reflexivity.
Qed.

(** X23. In every state the mounted player reaches through its handlers
    and effects, each taken as one step, the selected voice is one of
    [VOICES], the identifiers of the segments are their indices [0, 1, ...]
    in order, and there is an audio element whose source is the published
    audio address, or empty when there is none. *)
Theorem run_consistent (events : list Event) :
  consistent (app (run host atob createObjectURL events)).
Proof.
  unfold run.
  assert (Hmounted : consistent (app mounted)).
  { split; [unfold VOICES; cbn; repeat constructor|]. split; [reflexivity|].
    eexists. split; reflexivity. }
  revert Hmounted. generalize mounted.
  induction events as [|event events IH]; intros w Hw; [exact Hw|].
  cbn [foldl]. apply IH. clear IH.
  destruct w as [b st log]. cbn [app] in Hw.
  destruct event; cbn [handle app bar requests].
  - (* Render *)
    apply alignEffect_consistent. apply (consistent_frame st); [framed st .. | exact Hw].
  - (* Input *)
    apply (consistent_frame st); [framed st .. | exact Hw].
  - (* ChooseLanguage *)
    apply (consistent_frame st); [framed st .. | exact Hw].
  - (* ChooseVoice *)
    now apply onVoiceChange_consistent.
  - (* Generate *)
    pose proof (handleGenerate_consistent st log Hw) as Hgen.
    destruct (handleGenerate host atob createObjectURL st log) as [st' log'].
    cbn [app]. now apply alignEffect_consistent.
  - (* TogglePlay *)
    apply (consistent_frame st); [| | | |exact Hw]; unfold togglePlay;
      destruct st as [? ? ? ? url playing ? ? ? ? ? ? [?|] ? ?]; cbn;
      destruct (truthy url); destruct playing; reflexivity.
  - (* Rewind *)
    now apply skip_consistent.
  - (* Forward *)
    now apply skip_consistent.
  - (* MouseDown *)
    unfold handleMouseDown. cbn [app].
    apply (consistent_frame st); [| | | |exact Hw]; unfold onSeekStart;
      destruct st as [? ? ? ? ? playing ? ? ? ? ? ? [?|] ? ?]; destruct playing; reflexivity.
  - (* MouseMove *)
    unfold handleMouseMove. destruct (SeekBar.isDragging b); exact Hw.
  - (* MouseUp *)
    pose proof (handleMouseUp_consistent container clientX b st Hw) as Hup.
    destruct (handleMouseUp container clientX b st) as [b' outcome]. exact Hup.
  - (* HoverMove *) exact Hw.
  - (* HoverLeave *) exact Hw.
  - (* ChooseSeekStep *)
    apply (consistent_frame st); [framed st .. | exact Hw].
  - (* ChooseRate *)
    apply (consistent_frame st); [framed st .. | exact Hw].
  - (* ChooseVolume *)
    apply (consistent_frame st); [framed st .. | exact Hw].
  - (* TimeUpdate *)
    apply (consistent_frame st); [| | | |exact Hw]; unfold updateTime; framed st.
  - (* LoadedMetadata *)
    apply alignEffect_consistent. apply (consistent_frame st); [framed st .. | exact Hw].
  - (* Ended *)
    apply (consistent_frame st); [framed st .. | exact Hw].
Qed.

End Invariant.

End Player.
